(** * Genguard: the schema-evolving CSV store and the near-duplicate guard

    A shallow embedding of [dataset_guard.py] and [dataset_append.py].

    Modelling conventions.
    - A Python [str] is a list of Unicode code points ([list N]).
    - The Unicode character database used by [unicodedata], [str.lower],
      [str.strip] and the [re] classes [\w], [\s], [\d] is a type class
      [UnicodeData]; [ascii_data] is its restriction to ASCII text.
    - A Python [dict] is an insertion-ordered association list with unique
      keys; [None] is [Datatypes.None] of an [option].
    - A Python [float] is the exact rational it approximates ([Q], kept in
      lowest terms so that [1.0] and [0.0] have one representation).
    - A CSV file is modelled at two levels.  In [Csv] it is the sequence
      of records the [csv] module reads from it; the guard and the
      rewriting of the store are described there.  In [CsvText] it is its
      text, with the writer's quoting, the reader's state machine and its
      field size limit; appending to an existing store is described
      there.  The two levels agree on texts that end where a record ends
      ([write_refines], [main_refines]). *)

From Stdlib Require Import Ascii String QArith Qreduction.
From stdpp Require Import base option list gmap sets.

Local Open Scope nat_scope.
Local Open Scope list_scope.

(** ** Python strings and dictionaries *)

Module Py.

Abbreviation str := (list N).

(** A string literal. *)
Definition lit (s : String.string) : str :=
  map Ascii.N_of_ascii (String.list_ascii_of_string s).

Class UnicodeData := {
  nfkc : str -> str;          (* unicodedata.normalize("NFKC", s) *)
  lower : str -> str;         (* s.lower() *)
  is_word : N -> bool;        (* \w *)
  is_space : N -> bool;       (* \s and str.isspace *)
  is_digit : N -> bool;       (* \d *)
  space_is_space : is_space 32 = true
}.

(** The database restricted to ASCII text: NFKC is the identity there. *)
Definition ascii_lower_char (c : N) : N :=
  if (65 <=? c)%N && (c <=? 90)%N then (c + 32)%N else c.

Definition ascii_is_digit (c : N) : bool := (48 <=? c)%N && (c <=? 57)%N.

Definition ascii_is_word (c : N) : bool :=
  ascii_is_digit c
  || ((65 <=? c)%N && (c <=? 90)%N)
  || ((97 <=? c)%N && (c <=? 122)%N)
  || (c =? 95)%N.

Definition ascii_is_space (c : N) : bool :=
  ((9 <=? c)%N && (c <=? 13)%N) || ((28 <=? c)%N && (c <=? 32)%N).

#[export] Instance ascii_data : UnicodeData := {|
  nfkc := fun s => s;
  lower := map ascii_lower_char;
  is_word := ascii_is_word;
  is_space := ascii_is_space;
  is_digit := ascii_is_digit;
  space_is_space := eq_refl
|}.

Section strings.
Context {U : UnicodeData}.

Fixpoint lstrip (s : str) : str :=
  match s with
  | c :: s' => if is_space c then lstrip s' else s
  | [] => []
  end.

Definition rstrip (s : str) : str := rev (lstrip (rev s)).

(** [s.strip()] *)
Definition strip (s : str) : str := rstrip (lstrip s).
End strings.

(** [s.rstrip(chars)] for an explicit one-character set. *)
Fixpoint lstrip_char (x : N) (s : str) : str :=
  match s with
  | c :: s' => if (c =? x)%N then lstrip_char x s' else s
  | [] => []
  end.

Definition rstrip_char (x : N) (s : str) : str := rev (lstrip_char x (rev s)).

(** [x in s] for a one-character [x]. *)
Definition contains (x : N) (s : str) : bool := existsb (N.eqb x) s.

(** [s.split(x, 1)] when [x in s]: the text before and after the first [x]. *)
Fixpoint split1 (x : N) (s : str) : str * str :=
  match s with
  | [] => ([], [])
  | c :: s' =>
      if (c =? x)%N then ([], s')
      else let '(k, v) := split1 x s' in (c :: k, v)
  end.

(** Dictionaries: insertion order is kept, an assignment to a key that is
    already present replaces the value in place. *)
Section dict.
Context {V : Type}.

Fixpoint dict_set (d : list (str * V)) (k : str) (v : V) : list (str * V) :=
  match d with
  | [] => [(k, v)]
  | (k', v') :: d' =>
      if bool_decide (k' = k) then (k', v) :: d'
      else (k', v') :: dict_set d' k v
  end.

Fixpoint dict_lookup (d : list (str * V)) (k : str) : option V :=
  match d with
  | [] => None
  | (k', v') :: d' => if bool_decide (k' = k) then Some v' else dict_lookup d' k
  end.

(** [d.get(k, dflt)] *)
Definition dict_get (d : list (str * V)) (k : str) (dflt : V) : V :=
  default dflt (dict_lookup d k).

(** [d.keys()] *)
Definition keys (d : list (str * V)) : list str := map fst d.

(** [dict(zip(ks, vs))] *)
Definition dict_zip (ks : list str) (vs : list V) : list (str * V) :=
  foldl (fun d kv => dict_set d (fst kv) (snd kv)) [] (zip ks vs).
End dict.

(** A value that is a string or [None]. *)
Abbreviation pyval := (option str).

(** Truthiness of a string-or-None value. *)
Definition truthy (v : pyval) : bool :=
  match v with
  | Some (_ :: _) => true
  | _ => false
  end.

(** [v or ""] *)
Definition or_empty (v : pyval) : str :=
  match v with
  | Some s => s
  | None => []
  end.

End Py.

(** ** The fragment of [re] used by the guard

    Backtracking matching with Python's priorities: a greedy repetition
    takes as many characters as it can and gives them back one at a time,
    an optional item is tried before it is skipped.  A match is reported
    by its length; [prev] is the character before the current position
    (needed by [\b]). *)

Module Re.
Import Py.

Inductive re :=
| Eps                                (* the empty pattern *)
| Cls (p : N -> bool)                (* one character of a class *)
| Rep (p : N -> bool) (lo : nat)     (* class{lo,}, greedy *)
| Opt (r : re)                       (* r?, greedy *)
| Seq (r1 r2 : re)
| WordB.                             (* \b *)

Definition Chr (c : N) : re := Cls (N.eqb c).

(** A literal word such as [http]. *)
Definition Lits (s : String.string) : re := foldr (fun c r => Seq (Chr c) r) Eps (lit s).

Section matching.
Context {U : UnicodeData}.

Definition word_before (prev : option N) : bool :=
  match prev with
  | Some c => is_word c
  | None => false
  end.

Definition word_here (s : str) : bool :=
  match s with
  | c :: _ => is_word c
  | [] => false
  end.

Definition at_boundary (prev : option N) (s : str) : bool :=
  negb (Bool.eqb (word_before prev) (word_here s)).

Definition cont := option N -> str -> nat -> option nat.

Fixpoint rep_match (p : N -> bool) (lo : nat) (k : cont) (n : nat)
    (prev : option N) (s : str) (len : nat) : option nat :=
  let stop := if lo <=? n then k prev s len else None in
  match s with
  | c :: s' =>
      if p c then
        match rep_match p lo k (S n) (Some c) s' (S len) with
        | Some r => Some r
        | None => stop
        end
      else stop
  | [] => stop
  end.

Fixpoint match_re (r : re) (k : cont) (prev : option N) (s : str) (len : nat)
    : option nat :=
  match r with
  | Eps => k prev s len
  | Cls p =>
      match s with
      | c :: s' => if p c then k (Some c) s' (S len) else None
      | [] => None
      end
  | Rep p lo => rep_match p lo k 0 prev s len
  | Opt r1 =>
      match match_re r1 k prev s len with
      | Some n => Some n
      | None => k prev s len
      end
  | Seq r1 r2 => match_re r1 (fun prev' s' len' => match_re r2 k prev' s' len') prev s len
  | WordB => if at_boundary prev s then k prev s len else None
  end.

(** The length of the match of [r] that starts at the current position. *)
Definition match_at (r : re) (prev : option N) (s : str) : option nat :=
  match_re r (fun _ _ len => Some len) prev s 0.

(** [re.sub(r, repl, s)]: leftmost matches, scanned left to right, each
    replaced by [repl]; [skip] counts the characters of the current match
    that are still to be passed over.  The patterns of this program never
    match the empty string, so an empty match is treated as no match. *)
Fixpoint sub_from (r : re) (repl : str) (prev : option N) (skip : nat) (s : str) : str :=
  match s with
  | [] => []
  | c :: s' =>
      match skip with
      | S n => sub_from r repl (Some c) n s'
      | O =>
          match match_at r prev s with
          | Some (S n) => repl ++ sub_from r repl (Some c) n s'
          | _ => c :: sub_from r repl (Some c) 0 s'
          end
      end
  end.

Definition sub (r : re) (repl : str) (s : str) : str := sub_from r repl None 0 s.

(** [re.findall(r, s)] for a pattern without groups. *)
Fixpoint findall_from (r : re) (prev : option N) (skip : nat) (s : str) : list str :=
  match s with
  | [] => []
  | c :: s' =>
      match skip with
      | S n => findall_from r (Some c) n s'
      | O =>
          match match_at r prev s with
          | Some (S n) => take (S n) s :: findall_from r (Some c) n s'
          | _ => findall_from r (Some c) 0 s'
          end
      end
  end.

Definition findall (r : re) (s : str) : list str := findall_from r None 0 s.

End matching.
End Re.

(** ** [dataset_guard.py]: text pipeline *)

Module Text.
Import Py Re.

Section text.
Context {U : UnicodeData}.

Definition non_space (c : N) : bool := negb (is_space c).

(** [[\w\.-]] *)
Definition word_dot_dash (c : N) : bool := is_word c || (c =? 46)%N || (c =? 45)%N.

(** [[a-z]] *)
Definition a_to_z (c : N) : bool := (97 <=? c)%N && (c <=? 122)%N.

(** [[^\w\s]] *)
Definition not_word_not_space (c : N) : bool := negb (is_word c) && negb (is_space c).

(** [https?://\S+] *)
Definition url_re : re :=
  Seq (Lits "http") (Seq (Opt (Chr 115)) (Seq (Lits "://") (Rep non_space 1))).

(** [\b[\w\.-]+@[\w\.-]+\.[a-z]{2,}\b] *)
Definition email_re : re :=
  Seq WordB (Seq (Rep word_dot_dash 1) (Seq (Chr 64) (Seq (Rep word_dot_dash 1)
    (Seq (Chr 46) (Seq (Rep a_to_z 2) WordB))))).

(** [\d+], [\s+], [\w+] *)
Definition digits_re : re := Rep is_digit 1.
Definition spaces_re : re := Rep is_space 1.
Definition word_re : re := Rep is_word 1.

Definition normalize_text (text : pyval) : str :=
  let s := nfkc (or_empty text) in
  let s := lower s in
  let s := sub url_re (lit " url ") s in
  let s := sub email_re (lit " email ") s in
  let s := sub digits_re (lit " 0 ") s in
  let s := sub (Cls not_word_not_space) (lit " ") s in
  let s := strip (sub spaces_re (lit " ") s) in
  s.

Definition tokenize (text : str) : list str := findall word_re text.

End text.
End Text.

(** ** [difflib.SequenceMatcher(None, a, b).ratio()]

    The standard library's matcher, with [isjunk = None] and the default
    [autojunk = True].  Indices are list positions ([nat]); where Python
    writes [i-k+1] with [k <= i+1] the model writes [i+1-k]. *)

Module Difflib.
Import Py.

(** A match [(i, j, k)]: [a[i:i+k] == b[j:j+k]]. *)
Abbreviation block := (nat * nat * nat)%type.

Definition block_size (m : block) : nat := snd m.

Section matcher.
Variables a b : str.

(** [__chain_b]: the positions of every element of [b] ... *)
Definition b2j_all : gmap N (list nat) :=
  foldl (fun m ie => <[snd ie := default [] (m !! snd ie) ++ [fst ie]]> m)
        ∅ (imap pair b).

(** ... without the popular elements when [b] has 200 elements or more. *)
Definition b2j : gmap N (list nat) :=
  let n := length b in
  if 200 <=? n then
    let ntest := Nat.div n 100 + 1 in
    filter (fun kv => length (snd kv) <= ntest) b2j_all
  else b2j_all.

(** [isjunk] is [None]: the junk set is empty. *)
Definition isbjunk (c : N) : bool := false.

(** [b2j.get(a[i], nothing)] *)
Definition row_indices (i : nat) : list nat :=
  match a !! i with
  | Some c => default [] (b2j !! c)
  | None => []
  end.

(** [j2len.get(j-1, 0)] *)
Definition j2lenget (j2len : gmap nat nat) (j : nat) : nat :=
  match j with
  | O => 0
  | S j' => default 0 (j2len !! j')
  end.

(** The inner loop of [find_longest_match] over the positions of [a[i]]. *)
Fixpoint scan_row (i blo bhi : nat) (j2len : gmap nat nat) (js : list nat)
    (newj2len : gmap nat nat) (best : block) : gmap nat nat * block :=
  match js with
  | [] => (newj2len, best)
  | j :: js' =>
      if j <? blo then scan_row i blo bhi j2len js' newj2len best
      else if bhi <=? j then (newj2len, best)
      else
        let k := j2lenget j2len j + 1 in
        let newj2len := <[j := k]> newj2len in
        let best := if block_size best <? k then (i + 1 - k, j + 1 - k, k) else best in
        scan_row i blo bhi j2len js' newj2len best
  end.

Definition scan_rows (alo ahi blo bhi : nat) : gmap nat nat * block :=
  foldl (fun st i => scan_row i blo bhi (fst st) (row_indices i) ∅ (snd st))
        (∅, (alo, blo, 0)) (seq alo (ahi - alo)).

Definition same_at (i j : nat) : bool :=
  match a !! i, b !! j with
  | Some x, Some y => (x =? y)%N
  | _, _ => false
  end.

Definition junk_at (j : nat) : bool :=
  match b !! j with
  | Some y => isbjunk y
  | None => false
  end.

(** [while besti > alo and bestj > blo and <junk test> and
    a[besti-1] == b[bestj-1]]; [want] is the required junk status. *)
Fixpoint extend_back (want : bool) (alo blo : nat) (besti bestj bestsize : nat) : block :=
  match besti, bestj with
  | S i', S j' =>
      if (alo <? besti) && (blo <? bestj) && Bool.eqb (junk_at j') want && same_at i' j'
      then extend_back want alo blo i' j' (S bestsize)
      else (besti, bestj, bestsize)
  | _, _ => (besti, bestj, bestsize)
  end.

(** [while besti+bestsize < ahi and bestj+bestsize < bhi and <junk test>
    and a[besti+bestsize] == b[bestj+bestsize]]; at most [n] rounds, and
    the caller passes [n = ahi - (besti+bestsize)]. *)
Fixpoint extend_fwd (want : bool) (ahi bhi : nat) (n : nat) (besti bestj bestsize : nat) : block :=
  match n with
  | O => (besti, bestj, bestsize)
  | S n' =>
      if (besti + bestsize <? ahi) && (bestj + bestsize <? bhi)
         && Bool.eqb (junk_at (bestj + bestsize)) want
         && same_at (besti + bestsize) (bestj + bestsize)
      then extend_fwd want ahi bhi n' besti bestj (S bestsize)
      else (besti, bestj, bestsize)
  end.

Definition find_longest_match (alo ahi blo bhi : nat) : block :=
  let '(besti, bestj, bestsize) := snd (scan_rows alo ahi blo bhi) in
  let '(besti, bestj, bestsize) := extend_back false alo blo besti bestj bestsize in
  let '(besti, bestj, bestsize) :=
    extend_fwd false ahi bhi (ahi - (besti + bestsize)) besti bestj bestsize in
  let '(besti, bestj, bestsize) := extend_back true alo blo besti bestj bestsize in
  extend_fwd true ahi bhi (ahi - (besti + bestsize)) besti bestj bestsize.

(** The work list of [get_matching_blocks]; the head of [queue] is the
    entry [queue.pop()] returns.  [None] only when [fuel] runs out. *)
Fixpoint blocks_loop (fuel : nat) (queue : list (nat * nat * nat * nat))
    (acc : list block) : option (list block) :=
  match queue with
  | [] => Some acc
  | (alo, ahi, blo, bhi) :: rest =>
      match fuel with
      | O => None
      | S fuel' =>
          let '(i, j, k) := find_longest_match alo ahi blo bhi in
          if k =? 0 then blocks_loop fuel' rest acc
          else
            let queue1 := if (alo <? i) && (blo <? j) then (alo, i, blo, j) :: rest else rest in
            let queue2 :=
              if (i + k <? ahi) && (j + k <? bhi) then (i + k, ahi, j + k, bhi) :: queue1
              else queue1 in
            blocks_loop fuel' queue2 (acc ++ [(i, j, k)])
      end
  end.

(** Tuple order of [matching_blocks.sort()]. *)
Definition block_leb (x y : block) : bool :=
  let '(i1, j1, k1) := x in
  let '(i2, j2, k2) := y in
  (i1 <? i2) || ((i1 =? i2) && ((j1 <? j2) || ((j1 =? j2) && (k1 <=? k2)))).

Fixpoint insert_block (x : block) (l : list block) : list block :=
  match l with
  | [] => [x]
  | y :: l' => if block_leb x y then x :: l else y :: insert_block x l'
  end.

Definition sort_blocks (l : list block) : list block := foldr insert_block [] l.

(** Adjacent equal blocks are merged. *)
Fixpoint collapse (cur : block) (l : list block) (acc : list block) : list block :=
  let '(i1, j1, k1) := cur in
  match l with
  | [] => if k1 =? 0 then acc else acc ++ [cur]
  | (i2, j2, k2) :: l' =>
      if (i1 + k1 =? i2) && (j1 + k1 =? j2) then collapse (i1, j1, k1 + k2) l' acc
      else collapse (i2, j2, k2) l' (if k1 =? 0 then acc else acc ++ [cur])
  end.

Definition raw_blocks : option (list block) :=
  blocks_loop (2 * length a + 1) [(0, length a, 0, length b)] [].

Definition get_matching_blocks : list block :=
  collapse (0, 0, 0) (sort_blocks (default [] raw_blocks)) []
  ++ [(length a, length b, 0)].

(** [_calculate_ratio] *)
Definition calculate_ratio (matches length : nat) : Q :=
  if length =? 0 then 1%Q
  else Qred (Qmake (Z.of_nat (2 * matches)) (Pos.of_nat length)).

Definition ratio : Q :=
  let matches := foldr (fun m s => block_size m + s) 0 get_matching_blocks in
  calculate_ratio matches (length a + length b).

End matcher.
End Difflib.

(** ** CSV files and the file system

    A file is the sequence of its records; a blank line is the record [[]].
    The disk maps a path to the file stored there.  Writing a record adds
    it to the sequence: this is what the text of the file does when it
    ends where a record ends, as every text the program wrote does; the
    text itself is in [CsvText] below. *)

Module Csv.
Import Py.

Abbreviation record := (list str).
Abbreviation file := (list (list str)).
Abbreviation disk := (gmap str (list (list str))).
Abbreviation row := (list (str * pyval)).

(** *** [csv.DictReader] *)

(** [reader.fieldnames]: the first record, [None] for an empty file. *)
Definition fieldnames (f : file) : option (list str) := head f.

(** [reader.fieldnames or []] *)
Definition fieldnames_or_nil (f : file) : list str := default [] (fieldnames f).

(** One row of [DictReader]: [dict(zip(fieldnames, row))], then the
    fields the record is too short for are set to [restval = None].  The
    cells a record has in excess are stored under the key [None], which
    no column name is equal to; that entry is left out. *)
Definition read_row (names : list str) (r : record) : row :=
  foldl (fun d key => dict_set d key None)
        (dict_zip names (map Some r))
        (drop (length r) names).

Definition is_blank (r : record) : bool :=
  match r with
  | [] => true
  | _ => false
  end.

(** The rows [DictReader] yields after the header; blank records are
    passed over. *)
Definition reader_rows (f : file) : list row :=
  map (read_row (fieldnames_or_nil f)) (filter (fun r => is_blank r = false) (tail f)).

(** *** [csv.DictWriter] with [extrasaction="ignore"] *)

(** The writer prints [None] as the empty string. *)
Definition cell (v : pyval) : str := or_empty v.

(** [_dict_to_list]: [rowdict.get(key, restval)] for each field name. *)
Definition dict_to_list (names : list str) (rowdict : row) : record :=
  map (fun key => cell (dict_get rowdict key (Some []))) names.

(** [dict(zip(fieldnames, fieldnames))], the row [writeheader] writes. *)
Definition header_row (names : list str) : row := dict_zip names (map Some names).

(** [{col: row.get(col, "") for col in columns}] *)
Definition out_row (columns : list str) (r : row) : row :=
  foldl (fun d col => dict_set d col (dict_get r col (Some []))) [] columns.

(** *** File operations *)

Inductive fop :=
| OpenW (path : str)                 (* open(path, "w"): create or truncate *)
| OpenA (path : str)                 (* open(path, "a"): create when missing *)
| WriteRow (path : str) (r : record) (* one record written by the csv writer *)
| Close (path : str).

Definition run_op (d : disk) (op : fop) : disk :=
  match op with
  | OpenW path => <[path := []]> d
  | OpenA path => <[path := default [] (d !! path)]> d
  | WriteRow path r => <[path := default [] (d !! path) ++ [r]]> d
  | Close path => d
  end.

Definition run (d : disk) (ops : list fop) : disk := foldl run_op d ops.


(** [os.path.exists(path) and os.path.getsize(path) > 0] *)
Definition exists_nonempty (d : disk) (path : str) : bool :=
  match d !! path with
  | Some (_ :: _) => true
  | _ => false
  end.

End Csv.

(** ** [dataset_append.py] *)

Module Append.
Import Py Csv.

Inductive parsed :=
| Parsed (data : row)
| InvalidPair (raw : str)   (* ValueError("Invalid pair (expected key=value): ...") *)
| EmptyKey (raw : str).     (* ValueError("Empty key in pair: ...") *)

Section append.
Context {U : UnicodeData}.

Fixpoint parse_pairs_from (data : row) (pairs : list str) : parsed :=
  match pairs with
  | [] => Parsed data
  | raw :: rest =>
      if negb (contains 61 raw) then InvalidPair raw
      else
        let '(key, value) := split1 61 raw in
        let key := strip key in
        let value := rstrip_char 10 value in
        match key with
        | [] => EmptyKey raw
        | _ => parse_pairs_from (dict_set data key (Some value)) rest
        end
  end.

Definition parse_pairs (pairs : list str) : parsed := parse_pairs_from [] pairs.

Definition read_existing_csv (d : disk) (path : str) : list str * list row :=
  let f := default [] (d !! path) in
  (fieldnames_or_nil f, reader_rows f).

Definition write_full_csv_ops (path : str) (columns : list str) (rows : list row) : list fop :=
  [OpenW path; WriteRow path (dict_to_list columns (header_row columns))]
  ++ map (fun r => WriteRow path (dict_to_list columns (out_row columns r))) rows
  ++ [Close path].

Definition write_full_csv (d : disk) (path : str) (columns : list str) (rows : list row) : disk :=
  run d (write_full_csv_ops path columns rows).

Definition append_row_same_schema_ops (path : str) (columns : list str) (r : row) : list fop :=
  [OpenA path; WriteRow path (dict_to_list columns (out_row columns r)); Close path].

Definition append_row_same_schema (d : disk) (path : str) (columns : list str) (r : row) : disk :=
  run d (append_row_same_schema_ops path columns r).

(** [new_cols = [k for k in row.keys() if k not in existing_cols]] *)
Definition new_cols (r : row) (existing_cols : list str) : list str :=
  filter (fun k => k ∉ existing_cols) (keys r).

Record args := {
  pairs : list str;
  add_timestamp : bool;
  timestamp_col : str
}.

(** The row after [parse_pairs] and the optional timestamp column; [now]
    is what [iso_timestamp()] returns. *)
Definition row_of_args (a : args) (now : str) : parsed :=
  match parse_pairs (pairs a) with
  | Parsed r => Parsed (if add_timestamp a then dict_set r (timestamp_col a) (Some now) else r)
  | e => e
  end.

(** The file operations of [main] on the resolved path. *)
Definition store_ops (d : disk) (csv_path : str) (r : row) : list fop :=
  if exists_nonempty d csv_path then
    let '(existing_cols, existing_rows) := read_existing_csv d csv_path in
    match new_cols r existing_cols with
    | [] => append_row_same_schema_ops csv_path existing_cols r
    | added =>
        let all_cols := existing_cols ++ added in
        write_full_csv_ops csv_path all_cols existing_rows
        ++ append_row_same_schema_ops csv_path all_cols r
    end
  else
    let columns := keys r in
    write_full_csv_ops csv_path columns []
    ++ append_row_same_schema_ops csv_path columns r.

(** [main], given the path [resolve_stamped_path] returned and the clock
    reading; the result is the exit status and the disk afterwards.
    Input and output errors of the operating system (statuses 3 to 6) are
    not modelled: reads and writes succeed. *)
Definition main (a : args) (now : str) (csv_path : str) (d : disk) : Z * disk :=
  match row_of_args a now with
  | Parsed r => (0%Z, run d (store_ops d csv_path r))
  | _ => (2%Z, d)
  end.

End append.
End Append.

(** ** [dataset_guard.py] *)

Module Guard.
Import Py Text Csv.

(** What [main] prints and returns. *)
Inductive outcome :=
| NoFile            (* "File does not exist yet. Input is unique.", 0 *)
| MissingColumn     (* "Error: Proposed data is missing the column ...", 1 *)
| ColumnAbsent      (* "PASS: Column not present yet; treating as unique.", 0 *)
| BelowMinLength    (* "PASS: Below min-length; ...", 0 *)
| Rejected (i : nat) (sim_char sim_tok : Q) (existing proposed : str)
                    (* "REJECTED: Similar to existing row", row i+2, 1 *)
| Unique.           (* "PASS: Input appears unique.", 0 *)

Definition exit_code (o : outcome) : Z :=
  match o with
  | NoFile | ColumnAbsent | BelowMinLength | Unique => 0
  | MissingColumn | Rejected _ _ _ _ _ => 1
  end.

Record args := {
  pairs : list str;
  file : str;
  check_col : str;
  threshold : Q;
  token_threshold : Q;
  no_normalize : bool;
  min_length : Z
}.

(** [x > y] on scores *)
Definition gt (x y : Q) : bool := negb (Qle_bool x y).

Definition jaccard_similarity (tokens_a tokens_b : list str) : Q :=
  let set_a : gset str := list_to_set tokens_a in
  let set_b : gset str := list_to_set tokens_b in
  if bool_decide (set_a = ∅) && bool_decide (set_b = ∅) then 1%Q
  else if bool_decide (set_a = ∅) || bool_decide (set_b = ∅) then 0%Q
  else
    let inter := size (set_a ∩ set_b) in
    let union := size (set_a ∪ set_b) in
    if union =? 0 then 0%Q
    else Qred (Qmake (Z.of_nat inter) (Pos.of_nat union)).

Definition difflib_similarity (a b : str) : Q := Difflib.ratio a b.

Section guard.
Context {U : UnicodeData}.

Definition parse_pairs (pairs : list str) : row :=
  foldl (fun data raw =>
           if contains 61 raw then
             let '(key, value) := split1 61 raw in
             dict_set data (strip key) (Some (strip value))
           else data)
        [] pairs.

(** The text that is compared: normalized unless [--no-normalize]. *)
Definition norm (a : args) (s : str) : str :=
  if no_normalize a then s else normalize_text (Some s).

(** [(row.get(args.check_col, "") or "")] *)
Definition existing_val (a : args) (r : row) : str :=
  or_empty (dict_get r (check_col a) (Some [])).

(** The loop over [enumerate(reader)], from index [i] on. *)
Fixpoint scan (a : args) (target_content norm_new : str) (tokens_new : list str)
    (i : nat) (rows : list row) : outcome :=
  match rows with
  | [] => Unique
  | r :: rest =>
      let old := existing_val a r in
      let norm_old := norm a old in
      let tokens_old := tokenize norm_old in
      let sim_char := difflib_similarity norm_new norm_old in
      let sim_tok := jaccard_similarity tokens_new tokens_old in
      if gt sim_char (threshold a) || gt sim_tok (token_threshold a)
      then Rejected i sim_char sim_tok old target_content
      else scan a target_content norm_new tokens_new (S i) rest
  end.

(** [args.min_length and len(norm_new) < args.min_length] *)
Definition below_min_length (a : args) (norm_new : str) : bool :=
  negb (min_length a =? 0)%Z && (Z.of_nat (length norm_new) <? min_length a)%Z.

(** [main] on a disk whose files are readable CSV text (the [except]
    branch of the source is then never entered); the disk gives the
    records as the guard reads them, from a file opened with universal
    newlines. *)
Definition main (a : args) (d : disk) : outcome :=
  let new_data := parse_pairs (pairs a) in
  match d !! file a with
  | None => NoFile
  | Some f =>
      let target_content := dict_get new_data (check_col a) None in
      if negb (truthy target_content) then MissingColumn
      else
        let target_content := or_empty target_content in
        if negb (bool_decide (check_col a ∈ fieldnames_or_nil f)) then ColumnAbsent
        else
          let norm_new := norm a target_content in
          let tokens_new := tokenize norm_new in
          if below_min_length a norm_new then BelowMinLength
          else scan a target_content norm_new tokens_new 0 (reader_rows f)
  end.

End guard.

(** The defaults of the command line, for a file, a column and pairs. *)
Definition default_args (pairs : list str) (file check_col : str) : args := {|
  pairs := pairs;
  file := file;
  check_col := check_col;
  threshold := Qmake 78 100;
  token_threshold := Qmake 60 100;
  no_normalize := false;
  min_length := 0
|}.

End Guard.

(** ** Vocabulary of the statements *)

Import Py Re Text Csv.

(** The path an operation acts on. *)
Definition target (op : fop) : str :=
  match op with
  | OpenW p | OpenA p | WriteRow p _ | Close p => p
  end.






Section pair_shapes.
Context {U : UnicodeData}.

(** A pair without ["="]. *)
Definition no_separator (raw : str) : bool := negb (contains 61 raw).

(** A pair whose key, the text before the first ["="], is blank. *)
Definition empty_key (raw : str) : bool :=
  contains 61 raw && bool_decide (strip (fst (split1 61 raw)) = []).

End pair_shapes.

Section similar.
Context {U : UnicodeData}.

(** The rejection condition of the guard for a proposed text and an
    existing value: one of the two scores of the compared texts is
    strictly above its threshold. *)
Definition too_similar (a : Guard.args) (proposed existing : str) : Prop :=
  (Guard.threshold a
     < Guard.difflib_similarity (Guard.norm a proposed) (Guard.norm a existing))%Q
  \/ (Guard.token_threshold a
     < Guard.jaccard_similarity (tokenize (Guard.norm a proposed))
                                (tokenize (Guard.norm a existing)))%Q.

(** The values of the checked column, in row order. *)
Definition existing_values (a : Guard.args) (f : file) : list str :=
  map (Guard.existing_val a) (reader_rows f).

End similar.

(** The measure of the work list of [get_matching_blocks]. *)
Definition queue_weight (queue : list (nat * nat * nat * nat)) : nat :=
  foldr (fun q w => 2 * (snd (fst (fst q)) - fst (fst (fst q))) + 1 + w) 0 queue.

Definition queue_ok (q : nat * nat * nat * nat) : Prop :=
  fst (fst (fst q)) <= snd (fst (fst q)).





(** ** Example data (ASCII text) *)

Definition data_csv : str := lit "data.csv".
Definition text_col : str := lit "text".

(** A store with the column [text] and two rows. *)
Definition cats_file : file :=
  [[lit "text"; lit "label"];
   [lit "The cat sat on the mat."; lit "a"];
   [lit "..."; lit "b"]].

Definition cats_disk : disk := {[ data_csv := cats_file ]}.

(** A store without the column [text]. *)
Definition labels_file : file := [[lit "label"]; [lit "a"]; [lit "b"]; [lit "c"]].

Definition labels_disk : disk := {[ data_csv := labels_file ]}.

(** A store with one short value. *)
Definition short_file : file := [[lit "text"]; [lit "ab"]].

Definition short_disk : disk := {[ data_csv := short_file ]}.

(** The default options with a minimum length of 5. *)
Definition min5_args (pairs : list str) : Guard.args := {|
  Guard.pairs := pairs;
  Guard.file := data_csv;
  Guard.check_col := text_col;
  Guard.threshold := Qmake 78 100;
  Guard.token_threshold := Qmake 60 100;
  Guard.no_normalize := false;
  Guard.min_length := 5
|}.

Definition append_args (pairs : list str) : Append.args := {|
  Append.pairs := pairs;
  Append.add_timestamp := false;
  Append.timestamp_col := lit "timestamp"
|}.



(** A record with a field the store does not have. *)
Definition scored_row : row := [(lit "text", Some (lit "hi")); (lit "score", Some (lit "7"))].

(** ** Vocabulary of the further properties *)

Section pair_parts.
Context {U : UnicodeData}.

(** The key and the value [dataset_append.parse_pairs] takes from a pair. *)
Definition pair_key (raw : str) : str := strip (fst (split1 61 raw)).

Definition pair_value (raw : str) : str := rstrip_char 10 (snd (split1 61 raw)).

(** A pair with a separator and a key that is not blank. *)
Definition valid_pair (raw : str) : bool :=
  contains 61 raw && negb (bool_decide (pair_key raw = [])).

End pair_parts.

(** Every record after the header is as wide as the header. *)
Definition rectangular (f : file) : Prop :=
  Forall (fun rec : record => length rec = length (fieldnames_or_nil f)) (tail f).

(** A store as the program writes it: distinct column names, no ragged row. *)
Definition well_formed_store (f : file) : Prop :=
  NoDup (fieldnames_or_nil f) /\ rectangular f.

(** The length of the run of characters of a class at the start of [s]. *)
Fixpoint run_length (p : N -> bool) (s : str) : nat :=
  match s with
  | c :: s' => if p c then S (run_length p s') else 0
  | [] => 0
  end.

(** Every maximal run of characters of a class replaced by [repl];
    [inrun] tells that the current run has been replaced already. *)
Fixpoint squeeze (p : N -> bool) (repl : str) (inrun : bool) (s : str) : str :=
  match s with
  | [] => []
  | c :: s' =>
      if p c then
        if inrun then squeeze p repl true s' else repl ++ squeeze p repl true s'
      else c :: squeeze p repl false s'
  end.

(** [sep.join(l)] *)
Fixpoint join (sep : str) (l : list str) : str :=
  match l with
  | [] => []
  | [x] => x
  | x :: l' => x ++ sep ++ join sep l'
  end.

(** The number of matched elements of a list of blocks. *)
Definition matched (l : list Difflib.block) : nat :=
  foldr (fun m s => Difflib.block_size m + s) 0 l.

(** The elements of [a] and of [b] that the work list still covers. *)
Definition queue_span_a (queue : list (nat * nat * nat * nat)) : nat :=
  foldr (fun q w => snd (fst (fst q)) - fst (fst (fst q)) + w) 0 queue.

Definition queue_span_b (queue : list (nat * nat * nat * nat)) : nat :=
  foldr (fun q w => snd q - snd (fst q) + w) 0 queue.

Definition queue_ranges (q : nat * nat * nat * nat) : Prop :=
  fst (fst (fst q)) <= snd (fst (fst q)) /\ snd (fst q) <= snd q.

(** The entries of [j2len] for a search in [b] from [blo]. *)
Definition j2len_ok (blo : nat) (M : gmap nat nat) : Prop :=
  forall j v, M !! j = Some v -> v <= j + 1 - blo /\ blo <= j.

(** ** [os.path] on a POSIX system *)

Module Posixpath.
Import Py.

(** [s.rfind(c)] for a one-character [c]: the last index of [c], or -1. *)
Fixpoint rfind_from (c : N) (s : str) (i : Z) (found : Z) : Z :=
  match s with
  | [] => found
  | x :: s' => rfind_from c s' (i + 1) (if (x =? c)%N then i else found)
  end.

Definition rfind (c : N) (s : str) : Z := rfind_from c s 0 (-1).

(** [p[:i]] and [p[i:]] for [i >= 0]. *)
Definition upto (i : Z) (p : str) : str := take (Z.to_nat i) p.
Definition from (i : Z) (p : str) : str := drop (Z.to_nat i) p.

Definition is_nil (s : str) : bool :=
  match s with
  | [] => true
  | _ => false
  end.

Definition startswith (c : N) (s : str) : bool :=
  match s with
  | x :: _ => (x =? c)%N
  | [] => false
  end.

Definition endswith (c : N) (s : str) : bool :=
  match last s with
  | Some x => (x =? c)%N
  | None => false
  end.

Definition basename (p : str) : str :=
  let i := (rfind 47 p + 1)%Z in
  from i p.

Definition dirname (p : str) : str :=
  let i := (rfind 47 p + 1)%Z in
  let head := upto i p in
  if negb (is_nil head) && negb (bool_decide (head = replicate (length head) 47%N))
  then rstrip_char 47 head
  else head.

(** [genericpath._splitext(p, "/", None, ".")]: the loop returns at the
    first character of the file name before the last dot that is not a
    dot itself. *)
Definition splitext (p : str) : str * str :=
  let sepIndex := rfind 47 p in
  let dotIndex := rfind 46 p in
  if (sepIndex <? dotIndex)%Z
     && existsb (fun c => negb (c =? 46)%N) (from (sepIndex + 1) (upto dotIndex p))
  then (upto dotIndex p, from dotIndex p)
  else (p, []).

(** [os.path.join(a, b)] *)
Definition join (a b : str) : str :=
  if startswith 47 b then b
  else if is_nil a || endswith 47 a then a ++ b
  else a ++ [47%N] ++ b.

End Posixpath.

(** ** [dataset_append.py] from the command line *)

Module AppendCli.
Import Py Csv Posixpath.

(** [resolve_stamped_path]; [stamp] is what [filename_timestamp()]
    returns. *)
Definition resolve_stamped_path (d : disk) (stamp : str) (path : str) (enable_stamping : bool)
    : str * bool :=
  let exists_and_nonempty := exists_nonempty d path in
  if negb enable_stamping || exists_and_nonempty then (path, false)
  else
    let directory := dirname path in
    let base := basename path in
    let '(root, ext) := splitext base in
    let ext := if is_nil ext then lit ".csv" else ext in
    let stamped := root ++ lit "_" ++ stamp ++ ext in
    let resolved := join (if negb (is_nil directory) then directory else []) stamped in
    (resolved, true).

Section cli.
Context {U : UnicodeData}.

(** [main] with [--file] and the stamping switch; the row is parsed
    before the path is resolved, and resolving changes nothing. *)
Definition main (a : Append.args) (file : str) (stamp_filename_on_create : bool)
    (now stamp : str) (d : disk) : Z * disk :=
  let '(csv_path, stamped) := resolve_stamped_path d stamp file stamp_filename_on_create in
  Append.main a now csv_path d.

End cli.
End AppendCli.

(** The default options with both thresholds at 1. *)
Definition strict_args (pairs : list str) : Guard.args := {|
  Guard.pairs := pairs;
  Guard.file := data_csv;
  Guard.check_col := text_col;
  Guard.threshold := 1;
  Guard.token_threshold := 1;
  Guard.no_normalize := false;
  Guard.min_length := 0
|}.

(** A reading of the clock by [filename_timestamp]. *)
Definition new_year : str := lit "20250101T000000Z".

(** ** CSV files as text

    The text of a file as [open(..., newline="")] reads and writes it,
    with the [excel] dialect of the [csv] module: a comma as
    delimiter, the double quote as quote character, doubled quotes, [QUOTE_MINIMAL], line terminator
    CR LF, not strict. *)

Module CsvText.
Import Py Csv.

Abbreviation tdisk := (gmap str str).

(** *** [csv.writer] *)

(** A field is quoted when it holds the delimiter, the quote character
    or a character of the line terminator. *)
Definition special (c : N) : bool :=
  (c =? 44)%N || (c =? 34)%N || (c =? 13)%N || (c =? 10)%N.

Definition needs_quotes (field : str) : bool := existsb special field.

(** The quote character is doubled. *)
Fixpoint escape (field : str) : str :=
  match field with
  | [] => []
  | c :: s => if (c =? 34)%N then 34%N :: 34%N :: escape s else c :: escape s
  end.

Definition format_field (field : str) : str :=
  if needs_quotes field then [34%N] ++ escape field ++ [34%N] else field.

Fixpoint format_fields (fields : record) : str :=
  match fields with
  | [] => []
  | [f] => format_field f
  | f :: rest => format_field f ++ [44%N] ++ format_fields rest
  end.

(** [writer.writerow(fields)]: a record that would be written as the
    empty text, although it has a field, is written as a quoted empty
    field. *)
Definition format_row (fields : record) : str :=
  let rec := format_fields fields in
  (if is_blank fields then [] else if bool_decide (rec = []) then [34%N; 34%N] else rec)
  ++ [13%N; 10%N].

(** *** [csv.reader] *)

Inductive pstate :=
| START_RECORD | START_FIELD | IN_FIELD | IN_QUOTED_FIELD | QUOTE_IN_QUOTED_FIELD | EAT_CRNL.

#[export] Instance pstate_eq_dec : EqDecision pstate.
Proof. solve_decision. Defined.

(** The parser: its state, the field it is reading and the fields of the
    record it has read. *)
Record parser := Parser { state : pstate; field : str; fields : record }.

Definition parse_reset : parser := Parser START_RECORD [] [].

Definition set_state (s : pstate) (p : parser) : parser := Parser s (field p) (fields p).

(** [csv.field_size_limit()] *)
Definition field_limit : N := 131072.

(** [None] is the error "field larger than field limit". *)
Definition parse_add_char (p : parser) (c : N) : option parser :=
  if (field_limit <=? N.of_nat (length (field p)))%N then None
  else Some (Parser (state p) (field p ++ [c]) (fields p)).

Definition parse_save_field (p : parser) : parser :=
  Parser (state p) [] (fields p ++ [field p]).

(** A character of the line, or the end of the line ([None]). *)
Definition is_newline (c : option N) : bool :=
  match c with
  | None => true
  | Some x => (x =? 10)%N || (x =? 13)%N
  end.

(** [parse_save_field]; [state = (c == EOL ? START_RECORD : EAT_CRNL)] *)
Definition end_of_field (p : parser) (c : option N) : parser :=
  set_state (match c with None => START_RECORD | Some _ => EAT_CRNL end) (parse_save_field p).

Definition start_field (p : parser) (c : option N) : option parser :=
  match c with
  | None => Some (end_of_field p c)
  | Some x =>
      if is_newline c then Some (end_of_field p c)
      else if (x =? 34)%N then Some (set_state IN_QUOTED_FIELD p)
      else if (x =? 44)%N then Some (parse_save_field p)
      else set_state IN_FIELD <$> parse_add_char p x
  end.

(** [parse_process_char]; [None] is an error of the reader: a field
    above the limit, or "new-line character seen in unquoted field". *)
Definition parse_process_char (p : parser) (c : option N) : option parser :=
  match state p with
  | START_RECORD =>
      match c with
      | None => Some p
      | Some x =>
          if is_newline c then Some (set_state EAT_CRNL p)
          else start_field (set_state START_FIELD p) c
      end
  | START_FIELD => start_field p c
  | IN_FIELD =>
      match c with
      | None => Some (end_of_field p c)
      | Some x =>
          if is_newline c then Some (end_of_field p c)
          else if (x =? 44)%N then Some (set_state START_FIELD (parse_save_field p))
          else parse_add_char p x
      end
  | IN_QUOTED_FIELD =>
      match c with
      | None => Some p
      | Some x =>
          if (x =? 34)%N then Some (set_state QUOTE_IN_QUOTED_FIELD p)
          else parse_add_char p x
      end
  | QUOTE_IN_QUOTED_FIELD =>
      match c with
      | None => Some (end_of_field p c)
      | Some x =>
          if (x =? 34)%N then set_state IN_QUOTED_FIELD <$> parse_add_char p x
          else if (x =? 44)%N then Some (set_state START_FIELD (parse_save_field p))
          else if is_newline c then Some (end_of_field p c)
          else set_state IN_FIELD <$> parse_add_char p x
      end
  | EAT_CRNL =>
      match c with
      | None => Some (set_state START_RECORD p)
      | Some x => if is_newline c then Some p else None
      end
  end.

(** A line of the file ends after LF, after CR LF and after a CR that no
    LF follows; [rest] is the text after the character [c]. *)
Definition ends_line (c : N) (rest : str) : bool :=
  (c =? 10)%N
  || ((c =? 13)%N && negb (match rest with x :: _ => (x =? 10)%N | [] => false end)).

(** The reader between two characters: the parser, whether characters of
    the current line have been read, and the records returned so far. *)
Record reader := Reader { parser_of : parser; midline : bool; records : file }.

Definition reader_start : reader := Reader parse_reset false [].

(** The end of a line: the record is returned when the parser is back at
    the start of a record; a quoted field goes on in the next line. *)
Definition end_of_line (p : parser) (out : file) : option reader :=
  match parse_process_char p None with
  | None => None
  | Some p' =>
      if bool_decide (state p' = START_RECORD)
      then Some (Reader parse_reset false (out ++ [fields p']))
      else Some (Reader p' false out)
  end.

Fixpoint read_text (t : str) (r : reader) : option reader :=
  match t with
  | [] => Some r
  | c :: rest =>
      match parse_process_char (parser_of r) (Some c) with
      | None => None
      | Some p =>
          if ends_line c rest then
            match end_of_line p (records r) with
            | None => None
            | Some r' => read_text rest r'
            end
          else read_text rest (Reader p true (records r))
      end
  end.

(** The end of the file: a last line without terminator is ended, and a
    field that was still open is returned with its record. *)
Definition end_of_file (r : reader) : option file :=
  match (if midline r then end_of_line (parser_of r) (records r) else Some r) with
  | None => None
  | Some r' =>
      let p := parser_of r' in
      if bool_decide (field p <> []) || bool_decide (state p = IN_QUOTED_FIELD)
      then Some (records r' ++ [fields (parse_save_field p)])
      else Some (records r')
  end.

(** [list(csv.reader(f))] for the file text [t]. *)
Definition read_records (t : str) : option file :=
  match read_text t reader_start with
  | None => None
  | Some r => end_of_file r
  end.

(** The text ends where a record ends: it is empty or its last line has
    its terminator, outside quotes. *)
Definition ends_record (t : str) : bool :=
  match read_text t reader_start with
  | Some (Reader (Parser START_RECORD [] []) false _) => true
  | _ => false
  end.

(** A field that the reader accepts. *)
Definition short (f : str) : bool := (N.of_nat (length f) <=? field_limit)%N.

(** The records of a file, none when it cannot be read. *)
Definition records_of (t : str) : file := default [] (read_records t).

(** *** The file system, with the text of each file *)

Definition write_op (td : tdisk) (op : fop) : tdisk :=
  match op with
  | OpenW path => <[path := []]> td
  | OpenA path => <[path := default [] (td !! path)]> td
  | WriteRow path r => <[path := default [] (td !! path) ++ format_row r]> td
  | Close path => td
  end.

Definition write (td : tdisk) (ops : list fop) : tdisk := foldl write_op td ops.

(** [os.path.exists(path) and os.path.getsize(path) > 0] *)
Definition exists_nonempty (td : tdisk) (path : str) : bool :=
  match td !! path with
  | Some (_ :: _) => true
  | _ => false
  end.

(** What the reader yields for every file of the disk. *)
Definition disk_of (td : tdisk) : disk := records_of <$> td.

End CsvText.

(** ** [dataset_append.py] on the text of the store *)

Module AppendText.
Import Py Csv CsvText.

Section append_text.
Context {U : UnicodeData}.

(** [None] when the reader raises. *)
Definition read_existing_csv (td : tdisk) (path : str) : option (list str * list row) :=
  match read_records (default [] (td !! path)) with
  | Some f => Some (fieldnames_or_nil f, reader_rows f)
  | None => None
  end.

Definition write_full_csv (td : tdisk) (path : str) (columns : list str) (rows : list row)
    : tdisk :=
  write td (Append.write_full_csv_ops path columns rows).

Definition append_row_same_schema (td : tdisk) (path : str) (columns : list str) (r : row)
    : tdisk :=
  write td (Append.append_row_same_schema_ops path columns r).

(** [main], given the resolved path and the clock reading; the result is
    the exit status and the disk afterwards.  Writing succeeds. *)
Definition main (a : Append.args) (now : str) (csv_path : str) (td : tdisk) : Z * tdisk :=
  match Append.row_of_args a now with
  | Append.Parsed r =>
      if exists_nonempty td csv_path then
        match read_existing_csv td csv_path with
        | None => (3%Z, td)
        | Some (existing_cols, existing_rows) =>
            match Append.new_cols r existing_cols with
            | [] => (0%Z, append_row_same_schema td csv_path existing_cols r)
            | added =>
                let all_cols := existing_cols ++ added in
                (0%Z,
                 append_row_same_schema
                   (write_full_csv td csv_path all_cols existing_rows) csv_path all_cols r)
            end
        end
      else
        let columns := keys r in
        (0%Z, append_row_same_schema (write_full_csv td csv_path columns []) csv_path columns r)
  | _ => (2%Z, td)
  end.

End append_text.
End AppendText.

(** ** Vocabulary of the statements on the text *)

(** Every cell is within the reader's field size limit. *)
Definition record_short (rec : record) : Prop :=
  Forall (fun f => CsvText.short f = true) rec.

(** Every key and every value of the row is within that limit. *)
Definition row_short (r : row) : Prop :=
  Forall (fun kv => CsvText.short (fst kv) = true /\ CsvText.short (cell (snd kv)) = true) r.

Definition op_short (op : fop) : Prop :=
  match op with
  | WriteRow _ rec => record_short rec
  | _ => True
  end.

(** *** Example data *)

Definition crlf : str := [13%N; 10%N].

(** The text of [short_file] as the program writes it, and the same text
    without the terminator of its last line. *)
Definition short_text : str := lit "text" ++ crlf ++ lit "ab" ++ crlf.
Definition short_tdisk : CsvText.tdisk := {[ data_csv := short_text ]}.


Definition parser_short (p : CsvText.parser) : Prop :=
  CsvText.short (CsvText.field p) = true /\ record_short (CsvText.fields p).

Definition reader_short (r : CsvText.reader) : Prop :=
  parser_short (CsvText.parser_of r) /\ Forall record_short (CsvText.records r).

(** * Properties *)

(** ** Dictionaries *)

Section dict_facts.
Context {V : Type}.
Implicit Types (d : list (str * V)) (k : str) (v : V).

Lemma dict_lookup_set d k v k' :
  dict_lookup (dict_set d k v) k' = if bool_decide (k = k') then Some v else dict_lookup d k'.
Proof.
  induction d as [|[k0 v0] d IH]; simpl.
  - reflexivity.
  - destruct (bool_decide_reflect (k0 = k)) as [->|Hne]; simpl.
    + destruct (bool_decide (k = k')); reflexivity.
    + rewrite IH.
      destruct (bool_decide_reflect (k0 = k')) as [->|Hne'].
      * rewrite bool_decide_eq_false_2 by congruence. reflexivity.
      * reflexivity.
Qed.

Lemma dict_lookup_foldl_set {A} (f : A -> str) (g : A -> V) (l : list A) d k :
  dict_lookup (foldl (fun d x => dict_set d (f x) (g x)) d l) k
  = match last (filter (fun x => f x = k) l) with
    | Some x => Some (g x)
    | None => dict_lookup d k
    end.
Proof.
  revert d. induction l as [|x l IH]; intros d; simpl.
  - reflexivity.
  - rewrite IH, filter_cons. destruct (decide (f x = k)) as [Hx|Hx].
    + destruct (filter _ l) as [|y l'] eqn:Hf.
      * simpl. rewrite dict_lookup_set, bool_decide_eq_true_2 by exact Hx. reflexivity.
      * change (last (x :: y :: l')) with (last (y :: l')).
        destruct (last (y :: l')) eqn:E; [reflexivity|].
        apply last_None in E. discriminate.
    + rewrite dict_lookup_set, bool_decide_eq_false_2 by exact Hx. reflexivity.
Qed.

Lemma dict_lookup_keys d k : is_Some (dict_lookup d k) <-> k ∈ keys d.
Proof.
  induction d as [|[k0 v0] d IH]; simpl.
  - split; [intros [? [=]] | intros H; inversion H].
  - destruct (bool_decide_reflect (k0 = k)) as [->|Hne].
    + split; [intros _; left | eauto].
    + rewrite IH. split; [intros H; right; exact H|].
      intros H. inversion H; subst; [congruence | assumption].
Qed.

End dict_facts.

Section fold_facts.
Context {V : Type}.
Implicit Types (d : list (str * V)) (k : str) (v : V).

Lemma last_filter_elem {A} (P : A -> Prop) {HP : forall x, Decision (P x)} (l : list A) x :
  last (filter P l) = Some x -> x ∈ l /\ P x.
Proof.
  intros E. apply last_Some_elem_of in E. apply list_elem_of_filter in E. tauto.
Qed.

(** The value a fold of assignments leaves at a key that some item sets,
    when all items setting that key agree on the value. *)
Lemma dict_lookup_foldl_agree {A} (f : A -> str) (g : A -> V) (l : list A) d k v :
  (exists x, x ∈ l /\ f x = k) ->
  (forall x, x ∈ l -> f x = k -> g x = v) ->
  dict_lookup (foldl (fun d x => dict_set d (f x) (g x)) d l) k = Some v.
Proof.
  intros [x [Hx Hk]] Hall. rewrite dict_lookup_foldl_set.
  destruct (last (filter (fun x => f x = k) l)) as [y|] eqn:E.
  - apply last_filter_elem in E as [Hy Hfy]. f_equal. auto.
  - apply last_None in E.
    assert (x ∈ filter (fun x => f x = k) l) as Hin by (apply list_elem_of_filter; auto).
    rewrite E in Hin. inversion Hin.
Qed.

Lemma dict_lookup_foldl_absent {A} (f : A -> str) (g : A -> V) (l : list A) d k :
  (forall x, x ∈ l -> f x <> k) ->
  dict_lookup (foldl (fun d x => dict_set d (f x) (g x)) d l) k = dict_lookup d k.
Proof.
  intros Hall. rewrite dict_lookup_foldl_set.
  destruct (last (filter (fun x => f x = k) l)) as [y|] eqn:E; [|reflexivity].
  apply last_filter_elem in E as [Hy Hfy]. exfalso. eapply Hall; eauto.
Qed.

End fold_facts.

(** ** The CSV reader and writer *)

Lemma dict_lookup_out_row (columns : list str) (r : row) (k : str) :
  dict_lookup (out_row columns r) k
  = if bool_decide (k ∈ columns) then Some (dict_get r k (Some [])) else None.
Proof.
  unfold out_row.
  destruct (bool_decide_reflect (k ∈ columns)) as [Hin|Hin].
  - apply (dict_lookup_foldl_agree (fun col => col) (fun col => dict_get r col (Some []))).
    + exists k. auto.
    + intros x _ ->. reflexivity.
  - rewrite (dict_lookup_foldl_absent (fun col => col) (fun col => dict_get r col (Some []))).
    + reflexivity.
    + intros x Hx ->. contradiction.
Qed.

Lemma dict_to_list_out_row (columns : list str) (r : row) :
  dict_to_list columns (out_row columns r) = dict_to_list columns r.
Proof.
  unfold dict_to_list. apply map_ext_in. intros col Hin.
  apply list_elem_of_In in Hin.
  unfold dict_get at 1. rewrite dict_lookup_out_row, bool_decide_eq_true_2 by exact Hin.
  reflexivity.
Qed.

Lemma dict_to_list_header (columns : list str) :
  dict_to_list columns (header_row columns) = columns.
Proof.
  unfold dict_to_list, header_row, dict_zip.
  transitivity (map (fun col : str => col) columns); [|apply map_id].
  apply map_ext_in. intros col Hin.
  apply list_elem_of_In in Hin. unfold dict_get.
  rewrite (dict_lookup_foldl_agree fst snd _ _ col (Some col)).
  - reflexivity.
  - exists (col, Some col). split; [|reflexivity].
    apply list_elem_of_lookup in Hin as [i Hi].
    apply list_elem_of_lookup. exists i.
    apply lookup_zip_with_Some. exists col, (Some col).
    rewrite list_lookup_fmap, Hi. auto.
  - intros [k v] Hx Hk. simpl in *. subst k.
    apply list_elem_of_lookup in Hx as [i Hi].
    apply lookup_zip_with_Some in Hi as (x & y & Heq & Hx & Hy).
    rewrite list_lookup_fmap, Hx in Hy. simpl in Hy. congruence.
Qed.


Lemma dict_to_list_length (columns : list str) (r : row) :
  length (dict_to_list columns r) = length columns.
Proof. unfold dict_to_list. apply length_map. Qed.



(** A record as wide as a duplicate-free header is read and written back
    unchanged. *)
Lemma read_row_write_back (names : list str) (r : record) :
  NoDup names -> length r = length names ->
  dict_to_list names (read_row names r) = r.
Proof.
  intros Hnd Hlen. unfold read_row. rewrite Hlen, drop_all. simpl.
  apply list_eq. intros i. unfold dict_to_list. rewrite list_lookup_fmap.
  destruct (names !! i) as [k|] eqn:Hk; simpl.
  - destruct (lookup_lt_is_Some_2 r i) as [x Hx];
      [rewrite Hlen; eapply lookup_lt_Some, Hk|].
    rewrite Hx. f_equal. unfold dict_get, dict_zip.
    rewrite (dict_lookup_foldl_agree fst snd _ _ k (Some x)); [reflexivity| |].
    + exists (k, Some x). split; [|reflexivity].
      apply list_elem_of_lookup. exists i. apply lookup_zip_with_Some.
      exists k, (Some x). rewrite list_lookup_fmap, Hx. auto.
    + intros [k' v] Hin Hk'. simpl in *. subst k'.
      apply list_elem_of_lookup in Hin as [j Hj].
      apply lookup_zip_with_Some in Hj as (k' & v' & Heq & Hkj & Hvj).
      injection Heq as <- <-.
      assert (j = i) as -> by (eapply NoDup_lookup; eassumption).
      rewrite list_lookup_fmap, Hx in Hvj. simpl in Hvj. congruence.
  - symmetry. apply lookup_ge_None. rewrite Hlen. apply lookup_ge_None. exact Hk.
Qed.

Lemma read_row_lookup (names : list str) (r : record) (i : nat) (col : str) :
  NoDup names -> names !! i = Some col ->
  dict_lookup (read_row names r) col = Some (r !! i).
Proof.
  intros Hnd Hi. unfold read_row.
  rewrite (dict_lookup_foldl_set (fun key => key) (fun _ => None)).
  destruct (last (filter (fun x => x = col) (drop (length r) names))) as [x|] eqn:E.
  - apply last_filter_elem in E as [Hx ->].
    apply list_elem_of_lookup in Hx as [j Hj]. rewrite lookup_drop in Hj.
    assert (length r + j = i) as <- by (eapply NoDup_lookup; eassumption).
    symmetry. f_equal. apply lookup_ge_None. lia.
  - assert (Hlt : i < length r).
    { destruct (le_lt_dec (length r) i) as [Hle|Hlt]; [|exact Hlt]. exfalso.
      apply last_None in E.
      assert (col ∈ filter (fun x => x = col) (drop (length r) names)) as Hin.
      { apply list_elem_of_filter. split; [reflexivity|].
        apply list_elem_of_lookup. exists (i - length r). rewrite lookup_drop.
        replace (length r + (i - length r)) with i by lia. exact Hi. }
      rewrite E in Hin. inversion Hin. }
    destruct (lookup_lt_is_Some_2 r i Hlt) as [x Hx]. rewrite Hx.
    unfold dict_zip. apply (dict_lookup_foldl_agree fst snd).
    + exists (col, Some x). split; [|reflexivity].
      apply list_elem_of_lookup. exists i. apply lookup_zip_with_Some.
      exists col, (Some x). rewrite list_lookup_fmap, Hx. auto.
    + intros [k v] Hin Hk. simpl in *. subst k.
      apply list_elem_of_lookup in Hin as [j Hj].
      apply lookup_zip_with_Some in Hj as (k' & v' & Heq & Hkj & Hvj).
      injection Heq as <- <-.
      assert (j = i) as -> by (eapply NoDup_lookup; eassumption).
      rewrite list_lookup_fmap, Hx in Hvj. simpl in Hvj. congruence.
Qed.








(** ** File operations *)

Lemma run_app (d : disk) (l1 l2 : list fop) : run d (l1 ++ l2) = run (run d l1) l2.
Proof. apply foldl_app. Qed.

Lemma run_write_rows (path : str) (recs : list record) (d : disk) (c : file) :
  d !! path = Some c ->
  run d (map (WriteRow path) recs) = <[path := c ++ recs]> d.
Proof.
  revert d c. induction recs as [|r recs IH]; intros d c Hc; simpl.
  - rewrite app_nil_r. symmetry. apply insert_id, Hc.
  - rewrite Hc. simpl. erewrite IH by apply lookup_insert_eq.
    rewrite insert_insert_eq, <- app_assoc. reflexivity.
Qed.

Section append_facts.
Context {U : UnicodeData}.

Lemma write_full_csv_content (d : disk) (path : str) (columns : list str) (rows : list row) :
  Append.write_full_csv d path columns rows
  = <[path := columns :: map (dict_to_list columns) rows]> d.
Proof.
  unfold Append.write_full_csv, Append.write_full_csv_ops.
  change (run d ([OpenW path; ?w] ++ ?l)) with (run (run_op (<[path := []]> d) w) l).
  simpl run_op. rewrite lookup_insert_eq, insert_insert_eq, dict_to_list_header. simpl.
  rewrite run_app. simpl.
  rewrite <- (map_map (fun r => dict_to_list columns (out_row columns r)) (WriteRow path)).
  erewrite run_write_rows by apply lookup_insert_eq.
  rewrite insert_insert_eq. simpl. do 2 f_equal.
  apply map_ext. intros r. apply dict_to_list_out_row.
Qed.

Lemma append_row_same_schema_content (d : disk) (path : str) (columns : list str) (r : row) :
  Append.append_row_same_schema d path columns r
  = <[path := default [] (d !! path) ++ [dict_to_list columns r]]> d.
Proof.
  unfold Append.append_row_same_schema, Append.append_row_same_schema_ops, run. simpl.
  rewrite lookup_insert_eq, insert_insert_eq, dict_to_list_out_row. reflexivity.
Qed.

End append_facts.





Section expansion.
Context {U : UnicodeData}.

(** The file holding the expanded store: the new header, the old rows
    padded with empty cells, the new record. *)
Lemma expansion_ops (d : disk) (path : str) (r : row) (old : file) (added : list str) :
  d !! path = Some old -> old <> [] ->
  Append.new_cols r (fieldnames_or_nil old) = added -> added <> [] ->
  Append.store_ops d path r
  = Append.write_full_csv_ops path (fieldnames_or_nil old ++ added) (reader_rows old)
    ++ Append.append_row_same_schema_ops path (fieldnames_or_nil old ++ added) r.
Proof.
  intros Hold Hne Hadd Hadded. unfold Append.store_ops, exists_nonempty.
  rewrite Hold. destruct old as [|h t]; [contradiction|].
  unfold Append.read_existing_csv. rewrite Hold. simpl default.
  rewrite Hadd. destruct added; [contradiction|reflexivity].
Qed.


Lemma new_cols_fresh (r : row) (schema : list str) (col : str) :
  col ∈ Append.new_cols r schema -> col ∉ schema.
Proof. unfold Append.new_cols. rewrite list_elem_of_filter. tauto. Qed.

Lemma filter_all {A} (P : A -> Prop) {HP : forall x, Decision (P x)} (l : list A) :
  (forall x, x ∈ l -> P x) -> filter P l = l.
Proof.
  induction l as [|x l IH]; intros Hall; [reflexivity|].
  rewrite filter_cons, decide_True by (apply Hall; left).
  rewrite IH by (intros y Hy; apply Hall; right; exact Hy). reflexivity.
Qed.

(** A store that does not exist yet, or is empty, has the empty schema. *)
Lemma creation_ops (d : disk) (path : str) (r : row) :
  default [] (d !! path) = [] ->
  Append.store_ops d path r
  = Append.write_full_csv_ops path (keys r) []
    ++ Append.append_row_same_schema_ops path (keys r) r.
Proof.
  intros Hold. unfold Append.store_ops, exists_nonempty.
  destruct (d !! path) as [[|h t]|]; [reflexivity|discriminate|reflexivity].
Qed.

Lemma run_expansion (d : disk) (path : str) (columns : list str) (rows : list row) (r : row) :
  run d (Append.write_full_csv_ops path columns rows
         ++ Append.append_row_same_schema_ops path columns r)
  = <[path := columns :: map (dict_to_list columns) rows ++ [dict_to_list columns r]]> d.
Proof.
  rewrite run_app.
  pose proof (write_full_csv_content d path columns rows) as Hw.
  unfold Append.write_full_csv in Hw. rewrite Hw.
  pose proof (append_row_same_schema_content
                (<[path := columns :: map (dict_to_list columns) rows]> d) path columns r) as Ha.
  unfold Append.append_row_same_schema in Ha. rewrite Ha.
  rewrite lookup_insert_eq, insert_insert_eq. reflexivity.
Qed.




End expansion.

(** ** The rewrite is done in place *)

Section rewrite.
Context {U : UnicodeData}.



End rewrite.

(** ** Key=value pairs *)

Section pairs_facts.
Context {U : UnicodeData}.


Lemma guard_parse_pairs_skips (pairs : list str) (data : row) :
  foldl (fun data raw =>
           if contains 61 raw then
             let '(key, value) := split1 61 raw in
             dict_set data (strip key) (Some (strip value))
           else data) data pairs
  = foldl (fun data raw =>
           if contains 61 raw then
             let '(key, value) := split1 61 raw in
             dict_set data (strip key) (Some (strip value))
           else data) data (filter (fun raw => contains 61 raw = true) pairs).
Proof.
  revert data. induction pairs as [|p pairs IH]; intros data; [reflexivity|].
  rewrite filter_cons. simpl. destruct (decide (contains 61 p = true)) as [Hp|Hp].
  - simpl. rewrite Hp. apply IH.
  - apply not_true_is_false in Hp. rewrite Hp. apply IH.
Qed.


End pairs_facts.

(** ** Token Jaccard similarity *)

Lemma Qred_zero (p : positive) : Qred (Qmake 0 p) = 0%Q.
Proof. apply (Qred_complete (Qmake 0 p) 0%Q). reflexivity. Qed.

Lemma Qred_same (n : nat) : n <> 0 -> Qred (Qmake (Z.of_nat n) (Pos.of_nat n)) = 1%Q.
Proof.
  intros Hn. apply (Qred_complete _ 1%Q). unfold Qeq. simpl.
  rewrite Z.mul_1_r, Z.mul_1_l.
  destruct n as [|n]; [contradiction|]. rewrite <- Pos.of_nat_succ. lia.
Qed.

Lemma gset_size_union_pos (A B : gset str) : A <> ∅ -> size (A ∪ B) <> 0.
Proof.
  intros HA Hz. apply size_empty_iff in Hz. apply HA.
  apply leibniz_equiv. apply empty_union in Hz. tauto.
Qed.

(** C4: the token Jaccard similarity of two token sequences is
    [|A ∩ B| / |A ∪ B|] for their token sets [A] and [B]; it is 1 when
    both sets are empty and 0 when exactly one is; hence it is exactly 0
    for disjoint non-empty sets and exactly 1 for equal non-empty sets. *)
Theorem jaccard_similarity_spec (tokens_a tokens_b : list str) :
  let A : gset str := list_to_set tokens_a in
  let B : gset str := list_to_set tokens_b in
  let J := Guard.jaccard_similarity tokens_a tokens_b in
  (A = ∅ -> B = ∅ -> J = 1%Q)
  /\ (A = ∅ -> B <> ∅ -> J = 0%Q)
  /\ (A <> ∅ -> B = ∅ -> J = 0%Q)
  /\ (A <> ∅ -> B <> ∅ ->
        (J == inject_Z (Z.of_nat (size (A ∩ B))) / inject_Z (Z.of_nat (size (A ∪ B))))%Q)
  /\ (A <> ∅ -> B <> ∅ -> A ## B -> J = 0%Q)
  /\ (A <> ∅ -> A = B -> J = 1%Q).
Proof.
  intros A B J. unfold J, Guard.jaccard_similarity. fold A B.
  repeat split.
  - intros HA HB. rewrite !bool_decide_eq_true_2 by assumption. reflexivity.
  - intros HA HB. rewrite (bool_decide_eq_true_2 _ HA), (bool_decide_eq_false_2 _ HB).
    reflexivity.
  - intros HA HB. rewrite (bool_decide_eq_false_2 _ HA), (bool_decide_eq_true_2 _ HB).
    reflexivity.
  - intros HA HB. rewrite (bool_decide_eq_false_2 _ HA), (bool_decide_eq_false_2 _ HB).
    simpl. pose proof (gset_size_union_pos A B HA) as Hu.
    destruct (Nat.eqb_spec (size (A ∪ B)) 0) as [|_]; [contradiction|].
    rewrite Qred_correct, Qmake_Qdiv.
    destruct (size (A ∪ B)) as [|n]; [contradiction|].
    replace (Z.pos (Pos.of_nat (S n))) with (Z.of_nat (S n))
      by (rewrite <- Pos.of_nat_succ; lia).
    reflexivity.
  - intros HA HB Hdisj. rewrite (bool_decide_eq_false_2 _ HA), (bool_decide_eq_false_2 _ HB).
    simpl. destruct (size (A ∪ B) =? 0); [reflexivity|].
    assert (A ∩ B = ∅) as -> by (apply disjoint_intersection_L; exact Hdisj).
    rewrite size_empty. apply Qred_zero.
  - intros HA <-. rewrite (bool_decide_eq_false_2 _ HA). simpl.
    pose proof (gset_size_union_pos A A HA) as Hu.
    destruct (Nat.eqb_spec (size (A ∪ A)) 0) as [|_]; [contradiction|].
    assert (A ∩ A = A) as -> by apply (idemp_L (∩)).
    assert (A ∪ A = A) as Hi by apply (idemp_L (∪)).
    rewrite Hi in *. apply Qred_same, Hu.
Qed.

(** ** The guard's decision *)

Lemma gt_iff (x y : Q) : Guard.gt x y = true <-> (y < x)%Q.
Proof.
  unfold Guard.gt. rewrite negb_true_iff, <- not_true_iff_false, Qle_bool_iff.
  split; [apply Qnot_le_lt | apply Qlt_not_le].
Qed.

Section guard_facts.
Context {U : UnicodeData}.

Lemma exceeds_iff (a : Guard.args) (proposed existing : str) :
  Guard.gt (Guard.difflib_similarity (Guard.norm a proposed) (Guard.norm a existing))
           (Guard.threshold a)
  || Guard.gt (Guard.jaccard_similarity (tokenize (Guard.norm a proposed))
                                        (tokenize (Guard.norm a existing)))
              (Guard.token_threshold a) = true
  <-> too_similar a proposed existing.
Proof. unfold too_similar. rewrite orb_true_iff, !gt_iff. reflexivity. Qed.

(** The loop returns at the first row whose value is too similar, and
    reports that row; it passes when there is none. *)
Lemma scan_first (a : Guard.args) (target : str) (rows : list row) (i : nat) :
  match Guard.scan a target (Guard.norm a target) (tokenize (Guard.norm a target)) i rows with
  | Guard.Rejected j sc st ex pr =>
      exists k r,
        j = i + k /\ rows !! k = Some r /\ ex = Guard.existing_val a r
        /\ too_similar a target ex
        /\ (forall k' r', k' < k -> rows !! k' = Some r' ->
              ~ too_similar a target (Guard.existing_val a r'))
        /\ sc = Guard.difflib_similarity (Guard.norm a target) (Guard.norm a ex)
        /\ st = Guard.jaccard_similarity (tokenize (Guard.norm a target))
                                         (tokenize (Guard.norm a ex))
        /\ pr = target
  | Guard.Unique => forall r, r ∈ rows -> ~ too_similar a target (Guard.existing_val a r)
  | _ => False
  end.
Proof.
  revert i. induction rows as [|r rows IH]; intros i; simpl.
  - intros r Hr. inversion Hr.
  - destruct (_ || _) eqn:E.
    + apply exceeds_iff in E. exists 0, r. rewrite Nat.add_0_r.
      repeat split; try reflexivity; [exact E|]. intros k' r' Hk. lia.
    + specialize (IH (S i)).
      destruct (Guard.scan _ _ _ _ (S i) rows) as [| | | |j sc st ex pr|]; try contradiction.
      * destruct IH as (k & r0 & -> & Hk & Hex & Hsim & Hfirst & Hrest).
        exists (S k), r0. repeat split; try tauto; [lia|].
        intros [|k'] r' Hlt Hr'; simpl in Hr'.
        -- injection Hr' as <-. rewrite <- exceeds_iff, E. discriminate.
        -- apply (Hfirst k' r'); [lia|exact Hr'].
      * intros r' Hr'. apply elem_of_cons in Hr' as [->|Hr']; [|auto].
        rewrite <- exceeds_iff, E. discriminate.
Qed.

(** The path of [main] that reaches the loop. *)
Lemma main_reaches_scan (a : Guard.args) (d : disk) (f : file) (target : str) :
  d !! Guard.file a = Some f ->
  dict_get (Guard.parse_pairs (Guard.pairs a)) (Guard.check_col a) None = Some target ->
  target <> [] ->
  Guard.check_col a ∈ fieldnames_or_nil f ->
  Guard.below_min_length a (Guard.norm a target) = false ->
  Guard.main a d
  = Guard.scan a target (Guard.norm a target) (tokenize (Guard.norm a target)) 0
               (reader_rows f).
Proof.
  intros Hf Ht Hne Hcol Hmin. unfold Guard.main. rewrite Hf, Ht.
  destruct target as [|c t]; [contradiction|]. simpl truthy. simpl negb.
  rewrite bool_decide_eq_true_2 by exact Hcol. simpl.
  rewrite Hmin. reflexivity.
Qed.

(** C1, as the program has it: for a non-empty proposed value, on a store
    that has the checked column.  When the minimum length is not zero and
    the compared form of the value is shorter than it, [main] admits
    without looking at any row.  Otherwise [main] rejects if and only if
    some existing value is too similar (a score strictly above its
    threshold, for the character ratio or for the token Jaccard
    similarity); the row it reports is the first such value in row order,
    with its two scores; otherwise it passes the record as unique. *)
Theorem evaluate_scan (a : Guard.args) (d : disk) (f : file) (target : str) :
  d !! Guard.file a = Some f ->
  dict_get (Guard.parse_pairs (Guard.pairs a)) (Guard.check_col a) None = Some target ->
  target <> [] ->
  Guard.check_col a ∈ fieldnames_or_nil f ->
  let vs := existing_values a f in
  (Guard.min_length a <> 0%Z ->
   (Z.of_nat (length (Guard.norm a target)) < Guard.min_length a)%Z ->
     Guard.main a d = Guard.BelowMinLength /\ Guard.exit_code (Guard.main a d) = 0%Z)
  /\ (Guard.min_length a = 0%Z
      \/ (Guard.min_length a <= Z.of_nat (length (Guard.norm a target)))%Z ->
      ((exists i sc st ex pr, Guard.main a d = Guard.Rejected i sc st ex pr)
         <-> (exists v, v ∈ vs /\ too_similar a target v))
      /\ (forall i sc st ex pr,
            Guard.main a d = Guard.Rejected i sc st ex pr ->
            vs !! i = Some ex /\ too_similar a target ex
            /\ (forall j v', j < i -> vs !! j = Some v' -> ~ too_similar a target v')
            /\ sc = Guard.difflib_similarity (Guard.norm a target) (Guard.norm a ex)
            /\ st = Guard.jaccard_similarity (tokenize (Guard.norm a target))
                                             (tokenize (Guard.norm a ex))
            /\ pr = target)
      /\ ((forall v, v ∈ vs -> ~ too_similar a target v) -> Guard.main a d = Guard.Unique)).
Proof.
  intros Hf Ht Hne Hcol vs. split.
  { intros Hnz Hlt.
    assert (Hmin : Guard.below_min_length a (Guard.norm a target) = true).
    { unfold Guard.below_min_length. apply andb_true_iff. split.
      - apply negb_true_iff, Z.eqb_neq, Hnz.
      - apply Z.ltb_lt, Hlt. }
    assert (E : Guard.main a d = Guard.BelowMinLength).
    { unfold Guard.main. rewrite Hf, Ht.
      destruct target as [|c t]; [contradiction|]. simpl truthy. simpl negb.
      rewrite bool_decide_eq_true_2 by exact Hcol. simpl.
      rewrite Hmin. reflexivity. }
    rewrite E. split; reflexivity. }
  intros Hlen.
  assert (Hmin : Guard.below_min_length a (Guard.norm a target) = false).
  { unfold Guard.below_min_length. destruct Hlen as [-> | Hle]; [reflexivity|].
    rewrite (proj2 (Z.ltb_ge _ _) Hle). apply andb_false_r. }
  rewrite (main_reaches_scan a d f target Hf Ht Hne Hcol Hmin).
  pose proof (scan_first a target (reader_rows f) 0) as Hscan.
  unfold vs, existing_values.
  destruct (Guard.scan _ _ _ _ 0 (reader_rows f)) as [| | | |j sc st ex pr|];
    try contradiction.
  - destruct Hscan as (k & r & -> & Hk & -> & Hsim & Hfirst & -> & -> & ->).
    assert (Hin : Guard.existing_val a r ∈ map (Guard.existing_val a) (reader_rows f)).
    { apply list_elem_of_fmap. exists r. split; [reflexivity|].
      apply list_elem_of_lookup. eauto. }
    split; [|split].
    + split; [intros _; eauto|intros _; eauto 10].
    + intros i sc st ex pr [= <- <- <- <- <-]. simpl.
      rewrite list_lookup_fmap, Hk. repeat split; try reflexivity; [exact Hsim|].
      intros j v' Hj Hv'. rewrite list_lookup_fmap in Hv'.
      destruct (reader_rows f !! j) as [r'|] eqn:Hr'; [|discriminate].
      injection Hv' as <-. eapply Hfirst; eassumption.
    + intros Hnone. exfalso. exact (Hnone _ Hin Hsim).
  - split; [|split].
    + split; [intros (i & sc & st & ex & pr & [=])|].
      intros (v & Hv & Hsim). exfalso.
      apply list_elem_of_fmap in Hv as (r & -> & Hr). exact (Hscan r Hr Hsim).
    + intros i sc st ex pr [=].
    + reflexivity.
Qed.

(** C5, as the program has it: when the store has no column of the
    checked name and the proposed value for it is not empty, [main]
    admits, whatever the proposed text and the rows are. *)
Theorem column_absent_passes (a : Guard.args) (d : disk) (f : file) :
  d !! Guard.file a = Some f ->
  Guard.check_col a ∉ fieldnames_or_nil f ->
  truthy (dict_get (Guard.parse_pairs (Guard.pairs a)) (Guard.check_col a) None) = true ->
  Guard.main a d = Guard.ColumnAbsent /\ Guard.exit_code (Guard.main a d) = 0%Z.
Proof.
  intros Hf Hcol Ht. unfold Guard.main. rewrite Hf, Ht. simpl negb.
  rewrite bool_decide_eq_false_2 by exact Hcol. split; reflexivity.
Qed.

(** C6, as the program has it: the proposed record has no value, or an
    empty one, for the checked column.  When the store file exists,
    [main] reports the missing column and returns status 1, whatever the
    file holds; this is not a rejection (nothing is compared and the
    message differs), but the status is the one every rejection returns.
    When the store file does not exist, [main] admits with status 0. *)
Theorem missing_field_fails (a : Guard.args) (d : disk) :
  truthy (dict_get (Guard.parse_pairs (Guard.pairs a)) (Guard.check_col a) None) = false ->
  (forall f, d !! Guard.file a = Some f ->
     Guard.main a d = Guard.MissingColumn
     /\ Guard.exit_code (Guard.main a d) = 1%Z
     /\ forall i sc st ex pr,
          Guard.main a d <> Guard.Rejected i sc st ex pr
          /\ Guard.exit_code (Guard.main a d) = Guard.exit_code (Guard.Rejected i sc st ex pr))
  /\ (d !! Guard.file a = None ->
      Guard.main a d = Guard.NoFile /\ Guard.exit_code (Guard.main a d) = 0%Z).
Proof.
  intros Ht. split.
  - intros f Hf.
    assert (E : Guard.main a d = Guard.MissingColumn).
    { unfold Guard.main. rewrite Hf, Ht. reflexivity. }
    rewrite E. split; [reflexivity|]. split; [reflexivity|].
    intros i sc st ex pr. split; [discriminate|reflexivity].
  - intros Hf.
    assert (E : Guard.main a d = Guard.NoFile).
    { unfold Guard.main. rewrite Hf. reflexivity. }
    rewrite E. split; reflexivity.
Qed.

End guard_facts.

(** ** The text pipeline *)

Section text_facts.
Context {U : UnicodeData}.

Lemma lstrip_head (s : str) (c : N) (t : str) : lstrip s = c :: t -> is_space c = false.
Proof.
  induction s as [|x s IH]; simpl; [discriminate|].
  destruct (is_space x) eqn:E; [exact IH|]. intros [= <- <-]. exact E.
Qed.

Lemma lstrip_elem (s : str) (c : N) : c ∈ lstrip s -> c ∈ s.
Proof.
  induction s as [|x s IH]; simpl; [auto|].
  destruct (is_space x); [|auto]. intros H. right. auto.
Qed.

Lemma elem_of_rev (l : str) (c : N) : c ∈ rev l <-> c ∈ l.
Proof. rewrite !list_elem_of_In. symmetry. apply in_rev. Qed.

(** A non-empty stripped text has a character that is not white space. *)
Lemma strip_non_space (s : str) :
  strip s <> [] -> exists c, c ∈ strip s /\ c ∈ s /\ is_space c = false.
Proof.
  unfold strip, rstrip. intros Hne.
  destruct (lstrip (rev (lstrip s))) as [|c t] eqn:E; [contradiction|].
  exists c. split; [|split].
  - apply elem_of_rev. left.
  - apply lstrip_elem. apply elem_of_rev. apply lstrip_elem. rewrite E. left.
  - eapply lstrip_head, E.
Qed.

Lemma sub_from_elem (r : re) (repl : str) (s : str) (prev : option N) (skip : nat) (c : N) :
  c ∈ sub_from r repl prev skip s -> c ∈ repl \/ c ∈ s.
Proof.
  revert prev skip. induction s as [|x s IH]; intros prev skip; simpl.
  - intros H. inversion H.
  - destruct skip as [|n].
    + destruct (match_at r prev (x :: s)) as [[|n]|].
      * intros H. apply elem_of_cons in H as [->|H]; [right; left|].
        apply IH in H as [H|H]; [left|right; right]; exact H.
      * intros H. apply elem_of_app in H as [H|H]; [left; exact H|].
        apply IH in H as [H|H]; [left|right; right]; exact H.
      * intros H. apply elem_of_cons in H as [->|H]; [right; left|].
        apply IH in H as [H|H]; [left|right; right]; exact H.
    + intros H. apply IH in H as [H|H]; [left|right; right]; exact H.
Qed.

(** Replacing the characters of a class: what is kept is outside the class. *)
Lemma sub_cls_elem (p : N -> bool) (repl : str) (s : str) (prev : option N) (c : N) :
  c ∈ sub_from (Cls p) repl prev 0 s -> c ∈ repl \/ (c ∈ s /\ p c = false).
Proof.
  revert prev. induction s as [|x s IH]; intros prev; simpl.
  - intros H. inversion H.
  - unfold match_at. simpl. destruct (p x) eqn:E.
    + intros H. apply elem_of_app in H as [H|H]; [left; exact H|].
      apply IH in H as [H|[H Hp]]; [left; exact H|right]. split; [right; exact H|exact Hp].
    + intros H. apply elem_of_cons in H as [->|H]; [right; split; [left|exact E]|].
      apply IH in H as [H|[H Hp]]; [left; exact H|right]. split; [right; exact H|exact Hp].
Qed.

Lemma rep_match_some (p : N -> bool) (lo : nat) (s : str) (n : nat) (prev : option N) (len : nat) :
  lo <= n ->
  exists m, rep_match p lo (fun _ _ l => Some l) n prev s len = Some m /\ len <= m.
Proof.
  revert n prev len. induction s as [|x s IH]; intros n prev len Hn; simpl.
  - rewrite (proj2 (Nat.leb_le lo n) Hn). eauto.
  - rewrite (proj2 (Nat.leb_le lo n) Hn). destruct (p x); [|eauto].
    destruct (IH (S n) (Some x) (S len)) as (m & -> & Hm); [lia|].
    exists m. split; [reflexivity|lia].
Qed.

(** A text with a word character has a token. *)
Lemma findall_word (s : str) (prev : option N) (c : N) :
  c ∈ s -> is_word c = true -> findall_from word_re prev 0 s <> [].
Proof.
  revert prev. induction s as [|x s IH]; intros prev Hin Hw; [inversion Hin|].
  simpl. unfold match_at, word_re. simpl.
  destruct (is_word x) eqn:E.
  - destruct (rep_match_some is_word 1 s 1 (Some x) 1) as (m & -> & Hm); [lia|].
    destruct m as [|m]; [lia|]. discriminate.
  - apply elem_of_cons in Hin as [->|Hin]; [congruence|]. apply IH; assumption.
Qed.

(** A non-empty normalized text has a token. *)
Lemma normalize_text_token (text : pyval) :
  normalize_text text <> [] -> tokenize (normalize_text text) <> [].
Proof.
  unfold normalize_text, tokenize, findall.
  set (s3 := sub digits_re _ _). intros Hne.
  destruct (strip_non_space _ Hne) as (c & Hc & Hin & Hsp).
  apply (findall_word _ None c Hc).
  apply sub_from_elem in Hin as [Hin|Hin].
  - apply list_elem_of_singleton in Hin. subst c. rewrite space_is_space in Hsp. discriminate.
  - apply sub_cls_elem in Hin as [Hin|[_ Hp]].
    + apply list_elem_of_singleton in Hin. subst c.
      rewrite space_is_space in Hsp. discriminate.
    + unfold not_word_not_space in Hp. rewrite Hsp in Hp. simpl in Hp.
      rewrite andb_true_r in Hp. apply negb_false_iff in Hp. exact Hp.
Qed.

End text_facts.

(** ** The character ratio against the empty text *)

Lemma ratio_nil_l (b : str) :
  Difflib.ratio [] b = if length b =? 0 then 1%Q else 0%Q.
Proof.
  unfold Difflib.ratio, Difflib.get_matching_blocks, Difflib.raw_blocks. simpl.
  unfold Difflib.calculate_ratio. destruct (length b =? 0); [reflexivity|].
  apply Qred_zero.
Qed.

Lemma jaccard_nil_nil : Guard.jaccard_similarity [] [] = 1%Q.
Proof. reflexivity. Qed.

Lemma jaccard_nil_cons (t : str) (ts : list str) :
  Guard.jaccard_similarity [] (t :: ts) = 0%Q.
Proof.
  unfold Guard.jaccard_similarity.
  rewrite bool_decide_eq_true_2 by reflexivity.
  rewrite bool_decide_eq_false_2; [reflexivity|].
  simpl. intros H. assert (t ∈ (∅ : gset str)) as Hin.
  { rewrite <- H. apply elem_of_union. left. apply elem_of_singleton. reflexivity. }
  exact (not_elem_of_empty t Hin).
Qed.

(** ** Rejection at a given row *)

Section reject_facts.
Context {U : UnicodeData}.

Lemma scan_at_first (a : Guard.args) (target : str) (rows : list row) (i k : nat) (r : row) :
  rows !! k = Some r ->
  too_similar a target (Guard.existing_val a r) ->
  (forall j r', j < k -> rows !! j = Some r' ->
     ~ too_similar a target (Guard.existing_val a r')) ->
  Guard.scan a target (Guard.norm a target) (tokenize (Guard.norm a target)) i rows
  = Guard.Rejected (i + k)
      (Guard.difflib_similarity (Guard.norm a target) (Guard.norm a (Guard.existing_val a r)))
      (Guard.jaccard_similarity (tokenize (Guard.norm a target))
                                (tokenize (Guard.norm a (Guard.existing_val a r))))
      (Guard.existing_val a r) target.
Proof.
  revert i k. induction rows as [|r0 rows IH]; intros i k Hk Hsim Hfirst; [discriminate|].
  simpl. destruct k as [|k].
  - injection Hk as ->. apply exceeds_iff in Hsim. rewrite Hsim, Nat.add_0_r. reflexivity.
  - simpl in Hk. destruct (_ || _) eqn:E.
    + exfalso. apply (Hfirst 0 r0); [lia|reflexivity|]. apply exceeds_iff, E.
    + rewrite (IH (S i) k Hk Hsim).
      * f_equal. lia.
      * intros j r' Hj Hr'. apply (Hfirst (S j) r'); [lia|exact Hr'].
Qed.

Lemma existing_values_lookup (a : Guard.args) (f : file) (k : nat) (v : str) :
  existing_values a f !! k = Some v ->
  exists r, reader_rows f !! k = Some r /\ Guard.existing_val a r = v.
Proof.
  unfold existing_values. rewrite list_lookup_fmap.
  destruct (reader_rows f !! k) as [r|]; [|discriminate].
  intros [= <-]. eauto.
Qed.

(** C10, as the program has it: with the default options, a non-empty
    proposed value whose normalized form is empty is rejected at the
    first row whose value for the checked column also normalizes to the
    empty text, with both scores equal to 1. *)
Theorem empty_normal_form_rejected (pairs : list str) (path col : str) (d : disk)
    (f : file) (target : str) (k : nat) (v : str) :
  let a := Guard.default_args pairs path col in
  d !! path = Some f ->
  col ∈ fieldnames_or_nil f ->
  dict_get (Guard.parse_pairs pairs) col None = Some target ->
  target <> [] ->
  normalize_text (Some target) = [] ->
  existing_values a f !! k = Some v ->
  normalize_text (Some v) = [] ->
  (forall j v', j < k -> existing_values a f !! j = Some v' -> normalize_text (Some v') <> []) ->
  Guard.main a d = Guard.Rejected k 1 1 v target.
Proof.
  intros a Hf Hcol Ht Hne Hnorm Hk Hv Hfirst.
  rewrite (main_reaches_scan a d f target Hf Ht Hne Hcol eq_refl).
  apply existing_values_lookup in Hk as (r & Hr & <-).
  rewrite (scan_at_first a target (reader_rows f) 0 k r Hr).
  - unfold Guard.norm. simpl Guard.no_normalize. cbv iota.
    rewrite Hnorm, Hv. reflexivity.
  - left. unfold Guard.norm. simpl Guard.no_normalize. cbv iota.
    rewrite Hnorm, Hv. reflexivity.
  - intros j r' Hj Hr' Hsim.
    assert (Hn : normalize_text (Some (Guard.existing_val a r')) <> []).
    { apply (Hfirst j); [exact Hj|].
      unfold existing_values. rewrite list_lookup_fmap, Hr'. reflexivity. }
    pose proof (normalize_text_token _ Hn) as Htok.
    unfold too_similar, Guard.norm in Hsim. simpl Guard.no_normalize in Hsim. cbv iota in Hsim.
    rewrite Hnorm in Hsim. unfold Guard.difflib_similarity in Hsim.
    rewrite ratio_nil_l in Hsim.
    destruct (normalize_text (Some (Guard.existing_val a r'))) as [|c s] eqn:En;
      [contradiction|].
    destruct (tokenize (c :: s)) as [|t ts] eqn:Et; [contradiction|].
    change (tokenize []) with (@nil str) in Hsim. rewrite jaccard_nil_cons in Hsim.
    simpl in Hsim. destruct Hsim as [Hsim|Hsim]; discriminate Hsim.
Qed.

End reject_facts.

(** ** The matcher terminates *)

Section matcher_bounds.
Variables a b : str.

Lemma j2lenget_bound (M : gmap nat nat) (m j : nat) :
  (forall j v, M !! j = Some v -> v <= m) -> Difflib.j2lenget M j <= m.
Proof.
  intros HM. destruct j as [|j]; simpl; [lia|].
  destruct (M !! j) as [v|] eqn:E; simpl; [eauto|lia].
Qed.

Lemma scan_row_bounds (i alo blo bhi m : nat) (M : gmap nat nat) (js : list nat)
    (newM : gmap nat nat) (bi bj bs : nat) :
  i = alo + m ->
  (forall j v, M !! j = Some v -> v <= m) ->
  (forall j v, newM !! j = Some v -> v <= S m) ->
  alo <= bi -> bi + bs <= alo + S m ->
  match Difflib.scan_row i blo bhi M js newM (bi, bj, bs) with
  | (newM', (bi', bj', bs')) =>
      (forall j v, newM' !! j = Some v -> v <= S m)
      /\ alo <= bi' /\ bi' + bs' <= alo + S m
  end.
Proof.
  intros -> HM. revert newM bi bj bs.
  induction js as [|j js IH]; intros newM bi bj bs HN Hlo Hhi; simpl.
  - auto.
  - destruct (j <? blo); [apply IH; assumption|].
    destruct (bhi <=? j); [auto|].
    pose proof (j2lenget_bound M m j HM) as Hk.
    assert (HN' : forall j0 v, <[j := Difflib.j2lenget M j + 1]> newM !! j0 = Some v -> v <= S m).
    { intros j0 v. rewrite lookup_insert. case_decide; [intros [= <-]; lia|apply HN]. }
    unfold Difflib.block_size. simpl snd.
    destruct (bs <? Difflib.j2lenget M j + 1); apply IH; try assumption; lia.
Qed.

Lemma scan_rows_bounds (alo blo bhi m : nat) :
  match foldl (fun st i => Difflib.scan_row i blo bhi (fst st) (Difflib.row_indices a b i) ∅ (snd st))
              (∅, (alo, blo, 0)) (seq alo m) with
  | (M, (bi, bj, bs)) =>
      (forall j v, M !! j = Some v -> v <= m) /\ alo <= bi /\ bi + bs <= alo + m
  end.
Proof.
  induction m as [|m IH].
  - simpl. split; [|lia]. intros j v. rewrite lookup_empty. discriminate.
  - rewrite seq_S, foldl_app. simpl.
    destruct (foldl _ _ (seq alo m)) as [M [[bi bj] bs]]. destruct IH as (HM & Hlo & Hhi).
    simpl. apply scan_row_bounds; try assumption; try reflexivity; [|lia].
    intros j v. rewrite lookup_empty. discriminate.
Qed.

Lemma extend_back_bounds (want : bool) (alo blo ahi : nat) (bi bj bs : nat) :
  alo <= bi -> bi + bs <= ahi ->
  match Difflib.extend_back a b want alo blo bi bj bs with
  | (bi', bj', bs') => alo <= bi' /\ bi' + bs' <= ahi /\ bs <= bs'
  end.
Proof.
  revert bj bs. induction bi as [|bi IH]; intros bj bs Hlo Hhi; simpl; [lia|].
  destruct bj as [|bj]; [lia|].
  destruct (_ && _) eqn:E; [|lia].
  apply andb_true_iff in E as [E _]. apply andb_true_iff in E as [E _].
  apply andb_true_iff in E as [E _]. apply Nat.ltb_lt in E.
  specialize (IH bj (S bs)). destruct (Difflib.extend_back _ _ _ _ _ _ _ _) as [[bi' bj'] bs'].
  lia.
Qed.

Lemma extend_fwd_bounds (want : bool) (alo ahi bhi n : nat) (bi bj bs : nat) :
  alo <= bi -> bi + bs <= ahi ->
  match Difflib.extend_fwd a b want ahi bhi n bi bj bs with
  | (bi', bj', bs') => alo <= bi' /\ bi' + bs' <= ahi /\ bs <= bs'
  end.
Proof.
  revert bs. induction n as [|n IH]; intros bs Hlo Hhi; simpl; [lia|].
  destruct (_ && _) eqn:E; [|lia].
  apply andb_true_iff in E as [E _]. apply andb_true_iff in E as [E _].
  apply andb_true_iff in E as [E _]. apply Nat.ltb_lt in E.
  specialize (IH (S bs)). destruct (Difflib.extend_fwd _ _ _ _ _ _ _ _ _) as [[bi' bj'] bs'].
  lia.
Qed.

(** The longest match lies inside the range of [a] it was searched in. *)
Lemma find_longest_match_bounds (alo ahi blo bhi : nat) :
  alo <= ahi ->
  match Difflib.find_longest_match a b alo ahi blo bhi with
  | (i, j, k) => alo <= i /\ i + k <= ahi
  end.
Proof.
  intros Hle. unfold Difflib.find_longest_match, Difflib.scan_rows.
  pose proof (scan_rows_bounds alo blo bhi (ahi - alo)) as H0.
  destruct (foldl _ _ _) as [M [[bi0 bj0] bs0]]. simpl snd.
  destruct H0 as (_ & Hlo0 & Hhi0). replace (alo + (ahi - alo)) with ahi in Hhi0 by lia.
  pose proof (extend_back_bounds false alo blo ahi bi0 bj0 bs0 Hlo0 Hhi0) as H1.
  destruct (Difflib.extend_back a b false alo blo bi0 bj0 bs0) as [[bi1 bj1] bs1].
  destruct H1 as (Hlo1 & Hhi1 & _).
  pose proof (extend_fwd_bounds false alo ahi bhi (ahi - (bi1 + bs1)) bi1 bj1 bs1 Hlo1 Hhi1) as H2.
  destruct (Difflib.extend_fwd a b false ahi bhi _ bi1 bj1 bs1) as [[bi2 bj2] bs2].
  destruct H2 as (Hlo2 & Hhi2 & _).
  pose proof (extend_back_bounds true alo blo ahi bi2 bj2 bs2 Hlo2 Hhi2) as H3.
  destruct (Difflib.extend_back a b true alo blo bi2 bj2 bs2) as [[bi3 bj3] bs3].
  destruct H3 as (Hlo3 & Hhi3 & _).
  pose proof (extend_fwd_bounds true alo ahi bhi (ahi - (bi3 + bs3)) bi3 bj3 bs3 Hlo3 Hhi3) as H4.
  destruct (Difflib.extend_fwd a b true ahi bhi _ bi3 bj3 bs3) as [[bi4 bj4] bs4].
  tauto.
Qed.

Lemma blocks_loop_fuel (fuel : nat) (queue : list (nat * nat * nat * nat))
    (acc : list Difflib.block) :
  Forall queue_ok queue -> queue_weight queue <= fuel ->
  is_Some (Difflib.blocks_loop a b fuel queue acc).
Proof.
  revert queue acc. induction fuel as [|fuel IH]; intros queue acc Hok Hw.
  - destruct queue as [|[[[alo ahi] blo] bhi] rest]; simpl; [eauto|].
    simpl in Hw. lia.
  - destruct queue as [|[[[alo ahi] blo] bhi] rest]; simpl; [eauto|].
    apply Forall_cons in Hok as [Hq Hrest]. unfold queue_ok in Hq. simpl in Hq, Hw.
    pose proof (find_longest_match_bounds alo ahi blo bhi Hq) as Hb.
    destruct (Difflib.find_longest_match a b alo ahi blo bhi) as [[i j] k].
    destruct Hb as [Hlo Hhi].
    destruct (Nat.eqb_spec k 0) as [->|Hk].
    + apply IH; [exact Hrest|lia].
    + destruct ((alo <? i) && (blo <? j)); destruct ((i + k <? ahi) && (j + k <? bhi));
        apply IH; repeat (apply Forall_cons; split); try exact Hrest;
        unfold queue_ok; simpl; lia.
Qed.

(** The work list of [get_matching_blocks] is emptied within the fuel
    it is given: the loop always returns. *)
Lemma raw_blocks_total : is_Some (Difflib.raw_blocks a b).
Proof.
  unfold Difflib.raw_blocks. apply blocks_loop_fuel.
  - apply Forall_cons. split; [unfold queue_ok; simpl; lia|apply Forall_nil_2].
  - simpl. lia.
Qed.

End matcher_bounds.

(** ** The index of the second sequence *)








(** ** One row of the longest-match table *)





(** ** A text against itself *)

Section reflexive.
Variable s : str.



















End reflexive.

(** ** Proposing the text of an existing row *)

Section reflexive_guard.
Context {U : UnicodeData}.




End reflexive_guard.

(** ** The claims on example data *)

Local Ltac by_computation :=
  match goal with |- ?P => apply (bool_decide_unpack P); vm_compute; exact I end.

(** The store of the specification's scenario: the same sentence without
    capital and full stop is rejected at the first row with character
    similarity 1. *)
Example cat_sentence_rejected :
  Guard.main (Guard.default_args [lit "text=the cat sat on the mat"] data_csv text_col) cats_disk
  = Guard.Rejected 0 1 1 (lit "The cat sat on the mat.") (lit "the cat sat on the mat").
Proof. vm_compute. reflexivity. Qed.

Example rockets_pass :
  Guard.main (Guard.default_args [lit "text=Completely unrelated sentence about rockets."]
                                 data_csv text_col) cats_disk
  = Guard.Unique.
Proof. vm_compute. reflexivity. Qed.

(** C1 does not hold as stated: with a minimum length of 5 the proposed
    value [ab] is admitted although the store holds [ab], whose character
    similarity to it is 1. *)
Lemma min_length_passes_duplicate :
  lit "ab" ∈ existing_values (min5_args [lit "text=ab"]) short_file
  /\ too_similar (min5_args [lit "text=ab"]) (lit "ab") (lit "ab")
  /\ Guard.main (min5_args [lit "text=ab"]) short_disk = Guard.BelowMinLength
  /\ Guard.exit_code (Guard.main (min5_args [lit "text=ab"]) short_disk) = 0%Z.
Proof.
  split; [by_computation|]. split; [|split; vm_compute; reflexivity].
  left. vm_compute. reflexivity.
Qed.

Lemma evaluate_scan_witness :
  let a := Guard.default_args [lit "text=the cat sat on the mat"] data_csv text_col in
  let target := lit "the cat sat on the mat" in
  let vs := existing_values a cats_file in
  (Guard.min_length a <> 0%Z ->
   (Z.of_nat (length (Guard.norm a target)) < Guard.min_length a)%Z ->
     Guard.main a cats_disk = Guard.BelowMinLength
     /\ Guard.exit_code (Guard.main a cats_disk) = 0%Z)
  /\ (Guard.min_length a = 0%Z
      \/ (Guard.min_length a <= Z.of_nat (length (Guard.norm a target)))%Z ->
      ((exists i sc st ex pr, Guard.main a cats_disk = Guard.Rejected i sc st ex pr)
         <-> (exists v, v ∈ vs /\ too_similar a target v))
      /\ (forall i sc st ex pr,
            Guard.main a cats_disk = Guard.Rejected i sc st ex pr ->
            vs !! i = Some ex /\ too_similar a target ex
            /\ (forall j v', j < i -> vs !! j = Some v' -> ~ too_similar a target v')
            /\ sc = Guard.difflib_similarity (Guard.norm a target) (Guard.norm a ex)
            /\ st = Guard.jaccard_similarity (tokenize (Guard.norm a target))
                                             (tokenize (Guard.norm a ex))
            /\ pr = target)
      /\ ((forall v, v ∈ vs -> ~ too_similar a target v)
          -> Guard.main a cats_disk = Guard.Unique)).
Proof.
  apply (evaluate_scan
           (Guard.default_args [lit "text=the cat sat on the mat"] data_csv text_col)
           cats_disk cats_file (lit "the cat sat on the mat")).
  - reflexivity.
  - reflexivity.
  - discriminate.
  - by_computation.
Defined.

(** C5 does not hold as stated: on a store without the checked column a
    record without a value for it is not admitted. *)
Lemma column_absent_missing_value_fails :
  labels_disk !! data_csv = Some labels_file
  /\ (text_col ∉ fieldnames_or_nil labels_file)
  /\ Guard.main (Guard.default_args [lit "label=x"] data_csv text_col) labels_disk
     = Guard.MissingColumn
  /\ Guard.exit_code
       (Guard.main (Guard.default_args [lit "label=x"] data_csv text_col) labels_disk) = 1%Z.
Proof.
  split; [reflexivity|]. split; [by_computation|]. split; vm_compute; reflexivity.
Qed.

Lemma column_absent_passes_witness :
  Guard.main (Guard.default_args [lit "text=anything at all"] data_csv text_col) labels_disk
  = Guard.ColumnAbsent
  /\ Guard.exit_code
       (Guard.main (Guard.default_args [lit "text=anything at all"] data_csv text_col)
                   labels_disk) = 0%Z.
Proof.
  apply (column_absent_passes
           (Guard.default_args [lit "text=anything at all"] data_csv text_col)
           labels_disk labels_file).
  - reflexivity.
  - by_computation.
  - reflexivity.
Defined.

(** C6 does not hold as stated.  When the store file does not exist, a
    record with an empty value for the checked column is admitted; and
    when the file exists, the status returned for the empty value is the
    status returned for a rejected value, so that the caller cannot tell
    the two by the status. *)
Lemma missing_field_passes_without_file :
  dict_get (Guard.parse_pairs [lit "text="]) text_col None = Some []
  /\ Guard.main (Guard.default_args [lit "text="] data_csv text_col) ∅ = Guard.NoFile
  /\ Guard.exit_code (Guard.main (Guard.default_args [lit "text="] data_csv text_col) ∅) = 0%Z
  /\ Guard.main (Guard.default_args [lit "text="] data_csv text_col) cats_disk
     = Guard.MissingColumn
  /\ Guard.main (Guard.default_args [lit "text=the cat sat on the mat"] data_csv text_col)
                cats_disk
     = Guard.Rejected 0 1 1 (lit "The cat sat on the mat.") (lit "the cat sat on the mat")
  /\ Guard.exit_code (Guard.main (Guard.default_args [lit "text="] data_csv text_col) cats_disk)
     = Guard.exit_code
         (Guard.main (Guard.default_args [lit "text=the cat sat on the mat"] data_csv text_col)
                     cats_disk).
Proof. repeat split; vm_compute; reflexivity. Qed.

Lemma missing_field_fails_witness :
  let a := Guard.default_args [lit "text="] data_csv text_col in
  (forall f, cats_disk !! Guard.file a = Some f ->
     Guard.main a cats_disk = Guard.MissingColumn
     /\ Guard.exit_code (Guard.main a cats_disk) = 1%Z
     /\ forall i sc st ex pr,
          Guard.main a cats_disk <> Guard.Rejected i sc st ex pr
          /\ Guard.exit_code (Guard.main a cats_disk)
             = Guard.exit_code (Guard.Rejected i sc st ex pr))
  /\ (cats_disk !! Guard.file a = None ->
      Guard.main a cats_disk = Guard.NoFile /\ Guard.exit_code (Guard.main a cats_disk) = 0%Z).
Proof.
  apply (missing_field_fails (Guard.default_args [lit "text="] data_csv text_col) cats_disk).
  reflexivity.
Defined.

(** C10 does not hold as stated: the empty proposed value has an empty
    normalized form, and the store has a value with an empty normalized
    form, but [main] reports the missing column instead of rejecting at
    that row. *)
Lemma empty_value_not_rejected_at_row :
  normalize_text (Some []) = []
  /\ existing_values (Guard.default_args [lit "text="] data_csv text_col) cats_file !! 1
     = Some (lit "...")
  /\ normalize_text (Some (lit "...")) = []
  /\ Guard.main (Guard.default_args [lit "text="] data_csv text_col) cats_disk
     = Guard.MissingColumn.
Proof. repeat split; vm_compute; reflexivity. Qed.

Lemma empty_normal_form_rejected_witness :
  Guard.main (Guard.default_args [lit "text=?!"] data_csv text_col) cats_disk
  = Guard.Rejected 1 1 1 (lit "...") (lit "?!").
Proof.
  apply (empty_normal_form_rejected [lit "text=?!"] data_csv text_col cats_disk cats_file
                                    (lit "?!") 1 (lit "...")).
  - reflexivity.
  - by_computation.
  - reflexivity.
  - discriminate.
  - reflexivity.
  - reflexivity.
  - reflexivity.
  - intros j v' Hj. assert (j = 0) as -> by lia. vm_compute. intros [= <-]. discriminate.
Defined.



Lemma jaccard_similarity_witness :
  Guard.jaccard_similarity [lit "the"; lit "cat"] [lit "a"; lit "dog"] = 0%Q
  /\ Guard.jaccard_similarity [lit "the"; lit "cat"] [lit "cat"; lit "the"; lit "cat"] = 1%Q.
Proof.
  pose proof (jaccard_similarity_spec [lit "the"; lit "cat"] [lit "a"; lit "dog"])
    as (_ & _ & _ & _ & Hdisjoint & _).
  pose proof (jaccard_similarity_spec [lit "the"; lit "cat"] [lit "cat"; lit "the"; lit "cat"])
    as (_ & _ & _ & _ & _ & Hsame).
  split.
  - apply Hdisjoint; by_computation.
  - apply Hsame; by_computation.
Defined.

(** A store with one column, and a record that brings a second one. *)
Example expansion_example :
  Append.main (append_args [lit "text=hi"; lit "score=7"]) [] data_csv short_disk
  = (0%Z, {[ data_csv := [[lit "text"; lit "score"];
                          [lit "ab"; []];
                          [lit "hi"; lit "7"]] ]}).
Proof. vm_compute. reflexivity. Qed.





(** A known-schema append keeps the field in the schema and drops the other. *)
Example same_schema_example :
  Append.append_row_same_schema short_disk data_csv [lit "text"] scored_row
  = {[ data_csv := [[lit "text"]; [lit "ab"]; [lit "hi"]] ]}.
Proof. vm_compute. reflexivity. Qed.



(** * Further properties *)

(** ** Records built from key=value pairs *)

Section dict_keys.
Context {V : Type}.
Implicit Types (d : list (str * V)) (k : str) (v : V).

Lemma keys_dict_set d k v :
  keys (dict_set d k v) = if bool_decide (k ∈ keys d) then keys d else keys d ++ [k].
Proof.
  induction d as [|[k0 v0] d IH].
  - destruct (bool_decide_reflect (k ∈ keys (@nil (str * V)))) as [Hin|Hin];
      [inversion Hin|reflexivity].
  - destruct (bool_decide_reflect (k ∈ keys ((k0, v0) :: d))) as [Hin|Hin];
      cbn [dict_set]; destruct (bool_decide_reflect (k0 = k)) as [->|Hne]; try reflexivity.
    + cbn [keys map fst] in *. fold (keys d) in *. fold (keys (dict_set d k v)).
      rewrite IH, bool_decide_eq_true_2; [reflexivity|].
      apply elem_of_cons in Hin as [->|Hin]; [congruence|exact Hin].
    + exfalso. apply Hin. left.
    + cbn [keys map fst] in *. fold (keys d) in *. fold (keys (dict_set d k v)).
      rewrite IH, bool_decide_eq_false_2; [reflexivity|].
      intros H. apply Hin. right. exact H.
Qed.

Lemma keys_dict_set_elem d k v k' : k' ∈ keys (dict_set d k v) <-> k' = k \/ k' ∈ keys d.
Proof.
  rewrite keys_dict_set. destruct (bool_decide_reflect (k ∈ keys d)) as [Hin|Hin].
  - split; [auto|]. intros [->|H]; assumption.
  - rewrite elem_of_app, list_elem_of_singleton. tauto.
Qed.

Lemma keys_dict_set_NoDup d k v : NoDup (keys d) -> NoDup (keys (dict_set d k v)).
Proof.
  intros Hnd. rewrite keys_dict_set. destruct (bool_decide_reflect (k ∈ keys d)) as [Hin|Hin].
  - exact Hnd.
  - apply NoDup_app. split; [exact Hnd|]. split.
    + intros x Hx Hx'. apply list_elem_of_singleton in Hx'. subst x. contradiction.
    + apply NoDup_singleton.
Qed.

Lemma keys_foldl_set {A} (f : A -> str) (g : A -> V) (l : list A) d :
  NoDup (keys d) ->
  NoDup (keys (foldl (fun d x => dict_set d (f x) (g x)) d l))
  /\ forall k, k ∈ keys (foldl (fun d x => dict_set d (f x) (g x)) d l)
               <-> k ∈ keys d \/ exists x, x ∈ l /\ f x = k.
Proof.
  revert d. induction l as [|x l IH]; intros d Hnd; simpl.
  - split; [exact Hnd|]. intros k. split; [auto|].
    intros [H|(x & Hx & _)]; [exact H|inversion Hx].
  - destruct (IH (dict_set d (f x) (g x)) (keys_dict_set_NoDup d _ _ Hnd)) as [Hnd' Hk].
    split; [exact Hnd'|]. intros k. rewrite Hk, keys_dict_set_elem. split.
    + intros [[->|H]|(y & Hy & Hfy)]; [right; exists x; split; [left|reflexivity]|auto|].
      right. exists y. split; [right; exact Hy|exact Hfy].
    + intros [H|(y & Hy & Hfy)]; [auto|].
      apply elem_of_cons in Hy as [->|Hy]; [left; left; auto|right; eauto].
Qed.

End dict_keys.

Section append_pairs.
Context {U : UnicodeData}.

Lemma valid_pair_iff (raw : str) :
  valid_pair raw = negb (no_separator raw || empty_key raw).
Proof.
  unfold valid_pair, no_separator, empty_key, pair_key.
  destruct (contains 61 raw); simpl; [|reflexivity].
  destruct (bool_decide _); reflexivity.
Qed.

Lemma parse_pairs_from_step (data : row) (raw : str) (rest : list str) :
  Append.parse_pairs_from data (raw :: rest)
  = if negb (contains 61 raw) then Append.InvalidPair raw
    else if bool_decide (pair_key raw = []) then Append.EmptyKey raw
    else Append.parse_pairs_from (dict_set data (pair_key raw) (Some (pair_value raw))) rest.
Proof.
  simpl. destruct (contains 61 raw); simpl; [|reflexivity].
  unfold pair_key, pair_value. destruct (split1 61 raw) as [key value]. simpl.
  destruct (strip key) as [|c key'] eqn:E.
  - rewrite bool_decide_eq_true_2 by reflexivity. reflexivity.
  - rewrite bool_decide_eq_false_2 by discriminate. reflexivity.
Qed.

Lemma parse_pairs_from_valid (pairs : list str) (data : row) :
  Forall (fun raw => valid_pair raw = true) pairs ->
  Append.parse_pairs_from data pairs
  = Append.Parsed (foldl (fun d raw => dict_set d (pair_key raw) (Some (pair_value raw)))
                         data pairs).
Proof.
  revert data. induction pairs as [|raw pairs IH]; intros data Hall; [reflexivity|].
  apply Forall_cons in Hall as [Hraw Hall]. rewrite parse_pairs_from_step.
  unfold valid_pair in Hraw. apply andb_true_iff in Hraw as [Hsep Hkey].
  rewrite Hsep. simpl. apply negb_true_iff in Hkey. rewrite Hkey.
  simpl. apply IH, Hall.
Qed.

Lemma parse_pairs_from_outcome (pairs : list str) (data : row) :
  match Append.parse_pairs_from data pairs with
  | Append.Parsed _ => Forall (fun raw => valid_pair raw = true) pairs
  | Append.InvalidPair raw =>
      exists l1 l2, pairs = l1 ++ raw :: l2
                    /\ Forall (fun raw => valid_pair raw = true) l1
                    /\ contains 61 raw = false
  | Append.EmptyKey raw =>
      exists l1 l2, pairs = l1 ++ raw :: l2
                    /\ Forall (fun raw => valid_pair raw = true) l1
                    /\ contains 61 raw = true /\ pair_key raw = []
  end.
Proof.
  revert data. induction pairs as [|raw pairs IH]; intros data.
  - simpl. apply Forall_nil_2.
  - rewrite parse_pairs_from_step. destruct (contains 61 raw) eqn:Hsep; simpl.
    + destruct (bool_decide_reflect (pair_key raw = [])) as [Hkey|Hkey].
      * exists [], pairs. split; [reflexivity|]. split; [apply Forall_nil_2|]. auto.
      * assert (Hv : valid_pair raw = true).
        { unfold valid_pair. rewrite Hsep, bool_decide_eq_false_2 by exact Hkey. reflexivity. }
        specialize (IH (dict_set data (pair_key raw) (Some (pair_value raw)))).
        destruct (Append.parse_pairs_from _ pairs) as [r|bad|bad].
        -- apply Forall_cons. split; assumption.
        -- destruct IH as (l1 & l2 & -> & Hl1 & Hbad).
           exists (raw :: l1), l2. split; [reflexivity|]. split; [|exact Hbad].
           apply Forall_cons. split; assumption.
        -- destruct IH as (l1 & l2 & -> & Hl1 & Hbad).
           exists (raw :: l1), l2. split; [reflexivity|]. split; [|exact Hbad].
           apply Forall_cons. split; assumption.
    + exists [], pairs. split; [reflexivity|]. split; [apply Forall_nil_2|exact Hsep].
Qed.

(** X1: [parse_pairs] succeeds exactly when every pair has a separator
    and a key that is not blank; otherwise it raises for the first pair
    that has not, "invalid pair" when the separator is missing and "empty
    key" when the key is blank. *)
Theorem parse_pairs_outcome (pairs : list str) :
  (Forall (fun raw => valid_pair raw = true) pairs
     <-> exists data, Append.parse_pairs pairs = Append.Parsed data)
  /\ (forall raw, Append.parse_pairs pairs = Append.InvalidPair raw ->
        exists l1 l2, pairs = l1 ++ raw :: l2
                      /\ Forall (fun raw => valid_pair raw = true) l1
                      /\ contains 61 raw = false)
  /\ (forall raw, Append.parse_pairs pairs = Append.EmptyKey raw ->
        exists l1 l2, pairs = l1 ++ raw :: l2
                      /\ Forall (fun raw => valid_pair raw = true) l1
                      /\ contains 61 raw = true /\ pair_key raw = []).
Proof.
  unfold Append.parse_pairs.
  pose proof (parse_pairs_from_outcome pairs []) as Hout.
  split; [split|split].
  - intros Hall. rewrite (parse_pairs_from_valid pairs [] Hall). eauto.
  - intros [data Hdata]. rewrite Hdata in Hout. exact Hout.
  - intros raw Hraw. rewrite Hraw in Hout. exact Hout.
  - intros raw Hraw. rewrite Hraw in Hout. exact Hout.
Qed.

(** X2: the record [parse_pairs] builds has distinct keys, none of them
    empty; its keys are the keys of the pairs, and the value of a key is
    the value of the last pair with that key (the last occurrence wins). *)
Theorem parse_pairs_record (pairs : list str) (data : row) :
  Append.parse_pairs pairs = Append.Parsed data ->
  NoDup (keys data)
  /\ (forall k, k ∈ keys data <-> exists raw, raw ∈ pairs /\ pair_key raw = k)
  /\ (forall k, k ∈ keys data -> k <> [])
  /\ (forall k, dict_lookup data k
               = (fun raw => Some (pair_value raw))
                   <$> last (filter (fun raw => pair_key raw = k) pairs)).
Proof.
  intros Hparse.
  assert (Hall : Forall (fun raw => valid_pair raw = true) pairs).
  { pose proof (parse_pairs_from_outcome pairs []) as Hout.
    unfold Append.parse_pairs in Hparse. rewrite Hparse in Hout. exact Hout. }
  unfold Append.parse_pairs in Hparse.
  rewrite (parse_pairs_from_valid pairs [] Hall) in Hparse. injection Hparse as <-.
  destruct (keys_foldl_set pair_key (fun raw => Some (pair_value raw)) pairs [])
    as [Hnd Hkeys]; [apply NoDup_nil_2|].
  split; [exact Hnd|]. split; [|split].
  - intros k. rewrite Hkeys. split; [|auto].
    intros [H|H]; [inversion H|exact H].
  - intros k Hk ->. apply Hkeys in Hk as [H|(raw & Hraw & Hkey)]; [inversion H|].
    rewrite Forall_forall in Hall. specialize (Hall raw Hraw).
    unfold valid_pair in Hall. rewrite Hkey, bool_decide_eq_true_2 in Hall by reflexivity.
    rewrite andb_false_r in Hall. discriminate.
  - intros k. rewrite (dict_lookup_foldl_set pair_key (fun raw => Some (pair_value raw))).
    destruct (last _); reflexivity.
Qed.

(** X3: one more valid pair at the end sets its key in the record built
    so far: a new key goes to the end of the key order, a known key keeps
    its place (keys stay in the order of their first occurrence). *)
Theorem parse_pairs_snoc (pairs : list str) (data : row) (raw : str) :
  Append.parse_pairs pairs = Append.Parsed data ->
  valid_pair raw = true ->
  Append.parse_pairs (pairs ++ [raw])
  = Append.Parsed (dict_set data (pair_key raw) (Some (pair_value raw)))
  /\ keys (dict_set data (pair_key raw) (Some (pair_value raw)))
     = if bool_decide (pair_key raw ∈ keys data) then keys data
       else keys data ++ [pair_key raw].
Proof.
  intros Hparse Hraw. split; [|apply keys_dict_set].
  assert (Hall : Forall (fun raw => valid_pair raw = true) pairs).
  { pose proof (parse_pairs_from_outcome pairs []) as Hout.
    unfold Append.parse_pairs in Hparse. rewrite Hparse in Hout. exact Hout. }
  unfold Append.parse_pairs in *.
  rewrite (parse_pairs_from_valid pairs [] Hall) in Hparse. injection Hparse as <-.
  rewrite parse_pairs_from_valid.
  - rewrite foldl_app. reflexivity.
  - apply Forall_app. split; [exact Hall|]. apply Forall_cons.
    split; [exact Hraw|apply Forall_nil_2].
Qed.

End append_pairs.

(** ** The store after [main] *)

Lemma run_target_frame (path p : str) (ops : list fop) (d : disk) :
  Forall (fun op => target op = path) ops -> p <> path -> run d ops !! p = d !! p.
Proof.
  revert d. induction ops as [|op ops IH]; intros d Hall Hp; [reflexivity|].
  apply Forall_cons in Hall as [Hop Hall]. simpl. rewrite IH by assumption.
  destruct op; simpl in Hop; subst; simpl; try reflexivity;
    apply lookup_insert_ne; congruence.
Qed.

Section store_facts.
Context {U : UnicodeData}.

(** The file [main] leaves at the resolved path, in its three branches. *)
Lemma store_content (d : disk) (path : str) (r : row) :
  let old := default [] (d !! path) in
  let schema := fieldnames_or_nil old in
  let added := Append.new_cols r schema in
  run d (Append.store_ops d path r)
  = <[path := if bool_decide (old <> [] /\ added = [])
              then old ++ [dict_to_list schema r]
              else (schema ++ added)
                   :: map (dict_to_list (schema ++ added)) (reader_rows old)
                   ++ [dict_to_list (schema ++ added) r]]> d.
Proof.
  intros old schema added. subst added schema old.
  destruct (d !! path) as [[|h t]|] eqn:Hfile; simpl default.
  - rewrite (creation_ops d path r) by (rewrite Hfile; reflexivity).
    rewrite run_expansion, bool_decide_eq_false_2 by (intros [H _]; congruence).
    unfold Append.new_cols. rewrite filter_all; [reflexivity|].
    intros k _ Hk. inversion Hk.
  - destruct (Append.new_cols r (fieldnames_or_nil (h :: t))) as [|c added] eqn:Hadd.
    + rewrite bool_decide_eq_true_2 by (split; [discriminate|reflexivity]).
      unfold Append.store_ops, exists_nonempty, Append.read_existing_csv.
      rewrite Hfile. simpl default. rewrite Hadd.
      pose proof (append_row_same_schema_content d path (fieldnames_or_nil (h :: t)) r) as Ha.
      unfold Append.append_row_same_schema in Ha. rewrite Ha, Hfile. reflexivity.
    + rewrite bool_decide_eq_false_2 by (intros [_ H]; discriminate).
      rewrite (expansion_ops d path r (h :: t) (c :: added) Hfile);
        [|discriminate|exact Hadd|discriminate].
      apply run_expansion.
  - rewrite (creation_ops d path r) by (rewrite Hfile; reflexivity).
    rewrite run_expansion, bool_decide_eq_false_2 by (intros [H _]; congruence).
    unfold Append.new_cols. rewrite filter_all; [reflexivity|].
    intros k _ Hk. inversion Hk.
Qed.

(** X4: [main] reads and writes the file at the resolved path only:
    every other file is left as it was, whatever the arguments. *)
Theorem main_other_files (a : Append.args) (now path : str) (d : disk) (p : str) :
  p <> path -> snd (Append.main a now path d) !! p = d !! p.
Proof.
  intros Hp. unfold Append.main. destruct (Append.row_of_args a now) as [r| |];
    [|reflexivity..].
  simpl. rewrite store_content. apply lookup_insert_ne. congruence.
Qed.

(** The header after a successful [main], on the records: the header
    before followed by the keys of the record that were not in it, in the
    record's key order. *)
Lemma store_schema_grows (a : Append.args) (now path : str) (d : disk) (r : row) :
  Append.row_of_args a now = Append.Parsed r ->
  let schema := fieldnames_or_nil (default [] (d !! path)) in
  fieldnames_or_nil (default [] (snd (Append.main a now path d) !! path))
  = schema ++ Append.new_cols r schema.
Proof.
  intros Hrow schema. unfold Append.main. rewrite Hrow. simpl snd.
  rewrite store_content, lookup_insert_eq. simpl default. fold schema.
  destruct (bool_decide_reflect (default [] (d !! path) <> [] /\ Append.new_cols r schema = []))
    as [[Hne ->]|_]; [|reflexivity].
  rewrite app_nil_r. unfold schema.
  destruct (default [] (d !! path)); [contradiction|reflexivity].
Qed.

Lemma row_of_args_shape (a : Append.args) (now : str) (r : row) :
  Append.row_of_args a now = Append.Parsed r ->
  NoDup (keys r) /\ Forall (fun kv => is_Some (snd kv)) r.
Proof.
  unfold Append.row_of_args, Append.parse_pairs. intros Hrow.
  pose proof (parse_pairs_from_outcome (Append.pairs a) []) as Hout.
  destruct (Append.parse_pairs_from [] (Append.pairs a)) as [data| |] eqn:Hparse;
    try discriminate.
  rewrite (parse_pairs_from_valid _ [] Hout) in Hparse. injection Hparse as <-.
  injection Hrow as <-.
  assert (Hsome : forall (l : list str) (d0 : row),
            Forall (fun kv => is_Some (snd kv)) d0 ->
            Forall (fun kv => is_Some (snd kv))
              (foldl (fun d raw => dict_set d (pair_key raw) (Some (pair_value raw))) d0 l)).
  { induction l as [|x l IH]; intros d0 Hd0; [exact Hd0|]. simpl. apply IH.
    clear IH. induction d0 as [|[k v] d0 IH]; simpl.
    - apply Forall_cons. split; [simpl; eauto|apply Forall_nil_2].
    - apply Forall_cons in Hd0 as [Hv Hd0]. destruct (bool_decide (k = pair_key x)).
      + apply Forall_cons. split; [simpl; eauto|exact Hd0].
      + apply Forall_cons. split; [exact Hv|apply IH, Hd0]. }
  assert (Hset : forall (d0 : row) k v,
            Forall (fun kv => is_Some (snd kv)) d0 ->
            Forall (fun kv => is_Some (snd kv)) (dict_set d0 k (Some v))).
  { induction d0 as [|[k0 v0] d0 IH]; intros k v Hd0; simpl.
    - apply Forall_cons. split; [simpl; eauto|apply Forall_nil_2].
    - apply Forall_cons in Hd0 as [Hv Hd0]. destruct (bool_decide (k0 = k)).
      + apply Forall_cons. split; [simpl; eauto|exact Hd0].
      + apply Forall_cons. split; [exact Hv|apply IH, Hd0]. }
  destruct (keys_foldl_set pair_key (fun raw => Some (pair_value raw)) (Append.pairs a) [])
    as [Hnd _]; [apply NoDup_nil_2|].
  specialize (Hsome (Append.pairs a) [] (Forall_nil_2 _)).
  destruct (Append.add_timestamp a).
  - split; [apply keys_dict_set_NoDup, Hnd|apply Hset, Hsome].
  - split; assumption.
Qed.

Lemma new_cols_NoDup (r : row) (schema : list str) :
  NoDup schema -> NoDup (keys r) -> NoDup (schema ++ Append.new_cols r schema).
Proof.
  intros Hs Hr. apply NoDup_app. split; [exact Hs|]. split.
  - intros k Hk Hk'. apply new_cols_fresh in Hk'. contradiction.
  - unfold Append.new_cols. apply NoDup_filter, Hr.
Qed.

(** On the records, [main] keeps the store well formed, with or without
    new columns. *)
Lemma store_keeps_well_formed (a : Append.args) (now path : str) (d : disk) (r : row) :
  Append.row_of_args a now = Append.Parsed r ->
  well_formed_store (default [] (d !! path)) ->
  well_formed_store (default [] (snd (Append.main a now path d) !! path)).
Proof.
  intros Hrow [Hnd Hrect].
  destruct (row_of_args_shape a now r Hrow) as [Hkeys _].
  unfold Append.main. rewrite Hrow. simpl snd.
  rewrite store_content, lookup_insert_eq. simpl default.
  set (old := default [] (d !! path)) in *. set (schema := fieldnames_or_nil old) in *.
  destruct (bool_decide_reflect (old <> [] /\ Append.new_cols r schema = [])) as [[Hne Hno]|_].
  - destruct old as [|h t] eqn:Hold; [contradiction|]. split; [exact Hnd|].
    unfold rectangular in *. simpl in *. apply Forall_app. split; [exact Hrect|].
    apply Forall_cons. split; [apply dict_to_list_length|apply Forall_nil_2].
  - split; [apply new_cols_NoDup; assumption|].
    unfold rectangular. simpl. apply Forall_app. split.
    + apply Forall_fmap, Forall_forall. intros row _. apply dict_to_list_length.
    + apply Forall_cons. split; [apply dict_to_list_length|apply Forall_nil_2].
Qed.

(** A row that is written and read back under the same header has, for
    every column of the header, the cell that was written. *)
Lemma read_back_lookup (names : list str) (r0 : row) (col : str) :
  col ∈ names ->
  dict_lookup (read_row names (dict_to_list names r0)) col
  = Some (Some (cell (dict_get r0 col (Some [])))).
Proof.
  intros Hcol. unfold read_row. rewrite dict_to_list_length, drop_all. simpl.
  unfold dict_zip. apply (dict_lookup_foldl_agree fst snd).
  - apply list_elem_of_lookup in Hcol as [i Hi].
    exists (col, Some (cell (dict_get r0 col (Some [])))). split; [|reflexivity].
    apply list_elem_of_lookup. exists i. apply lookup_zip_with_Some.
    do 2 eexists. split; [reflexivity|]. split; [exact Hi|].
    unfold dict_to_list. rewrite !list_lookup_fmap, Hi. reflexivity.
  - intros [k v] Hin Hk. simpl in *. subst k.
    apply list_elem_of_lookup in Hin as [j Hj].
    apply lookup_zip_with_Some in Hj as (k' & v' & Heq & Hkj & Hvj).
    injection Heq as <- <-. unfold dict_to_list in Hvj.
    rewrite !list_lookup_fmap, Hkj in Hvj. simpl in Hvj. congruence.
Qed.

Lemma read_back_cells (names cols : list str) (r0 : row) :
  (forall col, col ∈ cols -> col ∈ names) ->
  dict_to_list cols (read_row names (dict_to_list names r0)) = dict_to_list cols r0.
Proof.
  intros Hsub. unfold dict_to_list at 1 3. apply map_ext_in. intros col Hcol.
  apply list_elem_of_In in Hcol. unfold dict_get at 1.
  rewrite (read_back_lookup names r0 col (Hsub col Hcol)). reflexivity.
Qed.

Lemma filter_not_blank (recs : list record) :
  Forall (fun rec => rec <> []) recs ->
  filter (fun r => is_blank r = false) recs = recs.
Proof.
  intros Hall. apply filter_all. intros rec Hrec.
  rewrite Forall_forall in Hall. specialize (Hall rec Hrec).
  destruct rec; [contradiction|reflexivity].
Qed.

Lemma dict_to_list_not_blank (names : list str) (r0 : row) :
  names <> [] -> dict_to_list names r0 <> [].
Proof. destruct names; [contradiction|discriminate]. Qed.

(** The rows of the store after a successful append: the former rows,
    then the row read back from the record that was written. *)
Lemma main_rows (a : Append.args) (now path : str) (d : disk) (r : row) :
  Append.row_of_args a now = Append.Parsed r ->
  keys r <> [] ->
  let old := default [] (d !! path) in
  let new := default [] (snd (Append.main a now path d) !! path) in
  exists rows',
    reader_rows new
    = rows' ++ [read_row (fieldnames_or_nil new) (dict_to_list (fieldnames_or_nil new) r)]
    /\ Forall2 (fun row row' =>
                  dict_to_list (fieldnames_or_nil old) row'
                  = dict_to_list (fieldnames_or_nil old) row)
               (reader_rows old) rows'
    /\ (forall col, col ∈ keys r -> col ∈ fieldnames_or_nil new).
Proof.
  intros Hrow Hkeys old new. subst new.
  unfold Append.main. rewrite Hrow. simpl snd.
  rewrite store_content, lookup_insert_eq. simpl default. fold old.
  set (schema := fieldnames_or_nil old).
  destruct (bool_decide_reflect (old <> [] /\ Append.new_cols r schema = [])) as [[Hne Hno]|Hnot].
  - assert (Hschema : schema <> []).
    { intros Hnil. destruct (keys r) as [|k ks] eqn:Hk; [contradiction|].
      assert (k ∈ Append.new_cols r schema) as Hin.
      { unfold Append.new_cols. rewrite Hk. apply list_elem_of_filter.
        split; [rewrite Hnil; intros H; inversion H|left]. }
      rewrite Hno in Hin. inversion Hin. }
    destruct old as [|h t] eqn:Hold; [contradiction|].
    exists (reader_rows (h :: t)).
    split; [|split].
    + unfold reader_rows. simpl tail. simpl fieldnames_or_nil.
      rewrite filter_app, map_app. f_equal.
      rewrite filter_cons, decide_True; [reflexivity|].
      pose proof (dict_to_list_not_blank schema r Hschema).
      destruct (dict_to_list schema r); [contradiction|reflexivity].
    + apply Forall2_same_length_lookup_2; [reflexivity|]. intros i x y Hx Hy. congruence.
    + simpl fieldnames_or_nil. intros col Hcol. fold schema.
      destruct (decide (col ∈ schema)) as [Hin|Hin]; [exact Hin|].
      assert (col ∈ Append.new_cols r schema) as Hnew
        by (apply list_elem_of_filter; split; assumption).
      rewrite Hno in Hnew. inversion Hnew.
  - set (cols := schema ++ Append.new_cols r schema).
    assert (Hcols : cols <> []).
    { intros Hnil. apply app_eq_nil in Hnil as [Hs Hn].
      destruct (keys r) as [|k ks] eqn:Hk; [contradiction|].
      assert (k ∈ Append.new_cols r schema) as Hin.
      { unfold Append.new_cols. rewrite Hk. apply list_elem_of_filter.
        split; [rewrite Hs; intros H; inversion H|left]. }
      rewrite Hn in Hin. inversion Hin. }
    exists (map (fun row => read_row cols (dict_to_list cols row)) (reader_rows old)).
    split; [|split].
    + unfold reader_rows at 1. simpl tail. simpl fieldnames_or_nil.
      rewrite filter_not_blank.
      * rewrite map_app, map_map. reflexivity.
      * apply Forall_app. split.
        -- apply Forall_fmap, Forall_forall. intros row _. apply dict_to_list_not_blank, Hcols.
        -- apply Forall_cons. split; [apply dict_to_list_not_blank, Hcols|apply Forall_nil_2].
    + apply Forall2_fmap_r, Forall2_same_length_lookup_2; [reflexivity|].
      intros i x y Hx Hy. assert (x = y) as -> by congruence.
      apply read_back_cells. intros col Hcol. apply elem_of_app. left. exact Hcol.
    + simpl fieldnames_or_nil. intros col Hcol. unfold cols. apply elem_of_app.
      destruct (decide (col ∈ schema)) as [Hin|Hin]; [left; exact Hin|right].
      apply list_elem_of_filter. split; assumption.
Qed.

(** On the records, a successful append of a record with at least one
    field keeps every row and adds one. *)
Lemma store_keeps_rows (a : Append.args) (now path : str) (d : disk) (r : row) :
  Append.row_of_args a now = Append.Parsed r ->
  keys r <> [] ->
  let old := default [] (d !! path) in
  let new := default [] (snd (Append.main a now path d) !! path) in
  exists rows' last_row,
    reader_rows new = rows' ++ [last_row]
    /\ Forall2 (fun row row' =>
                  dict_to_list (fieldnames_or_nil old) row'
                  = dict_to_list (fieldnames_or_nil old) row)
               (reader_rows old) rows'
    /\ dict_to_list (keys r) last_row = dict_to_list (keys r) r.
Proof.
  intros Hrow Hkeys old new.
  destruct (main_rows a now path d r Hrow Hkeys) as (rows' & Hrows & Hold & Hcols).
  exists rows', (read_row (fieldnames_or_nil new) (dict_to_list (fieldnames_or_nil new) r)).
  split; [exact Hrows|]. split; [exact Hold|].
  apply read_back_cells. exact Hcols.
Qed.








End store_facts.

(** ** Ragged rows *)

(** X9: what the rewrite does to a row that is not as wide as the
    header (distinct column names): read by [DictReader] and written back
    by [write_full_csv], a short row is padded with empty cells and a long
    row loses the cells beyond the header. *)
Theorem rewrite_pads_and_truncates (names : list str) (r : record) :
  NoDup names ->
  dict_to_list names (out_row names (read_row names r))
  = take (length names) r ++ replicate (length names - length r) [].
Proof.
  intros Hnd. rewrite dict_to_list_out_row. apply list_eq. intros i.
  unfold dict_to_list. rewrite list_lookup_fmap.
  destruct (names !! i) as [col|] eqn:Hi; simpl.
  - pose proof (lookup_lt_Some _ _ _ Hi) as Hlt.
    unfold dict_get. rewrite (read_row_lookup names r i col Hnd Hi). simpl.
    destruct (r !! i) as [x|] eqn:Hx.
    + rewrite lookup_app_l by (rewrite length_take; apply lookup_lt_Some in Hx; lia).
      rewrite lookup_take_lt by lia. rewrite Hx. reflexivity.
    + apply lookup_ge_None in Hx.
      rewrite lookup_app_r by (rewrite length_take; lia).
      rewrite length_take. symmetry. apply lookup_replicate_2. lia.
  - symmetry. apply lookup_ge_None. apply lookup_ge_None in Hi.
    rewrite length_app, length_take, length_replicate. lia.
Qed.

(** ** The guard's reading of the pairs *)

Section guard_more.
Context {U : UnicodeData}.

Lemma foldl_ext_elem {A B} (f g : B -> A -> B) (l : list A) (b : B) :
  (forall b x, x ∈ l -> f b x = g b x) -> foldl f b l = foldl g b l.
Proof.
  revert b. induction l as [|x l IH]; intros b Hfg; [reflexivity|].
  simpl. rewrite Hfg by left. apply IH. intros b' y Hy. apply Hfg. right. exact Hy.
Qed.

(** X10: the guard's [parse_pairs] never fails; a key has the value of
    the last pair with a separator and that key, with the white space
    around the value removed, and pairs without a separator count for
    nothing. *)
Theorem guard_parse_pairs_lookup (pairs : list str) (k : str) :
  dict_lookup (Guard.parse_pairs pairs) k
  = (fun raw => Some (strip (snd (split1 61 raw))))
      <$> last (filter (fun raw => pair_key raw = k)
                       (filter (fun raw => contains 61 raw = true) pairs)).
Proof.
  unfold Guard.parse_pairs. rewrite guard_parse_pairs_skips.
  rewrite (foldl_ext_elem _
             (fun d raw => dict_set d (pair_key raw) (Some (strip (snd (split1 61 raw)))))).
  - rewrite (dict_lookup_foldl_set pair_key (fun raw => Some (strip (snd (split1 61 raw))))).
    destruct (last _); reflexivity.
  - intros d raw Hraw. apply list_elem_of_filter in Hraw as [Hsep _]. rewrite Hsep.
    unfold pair_key. destruct (split1 61 raw). reflexivity.
Qed.

(** ** What a rejection means *)

(** X11: [main] rejects only on evidence: when it reports row [i] with
    two scores, the store file exists and has the checked column, the
    proposed value is not empty and not below the minimum length, the
    value reported is the value of row [i], its scores are the ones
    reported and one of them is strictly above its threshold, and no
    earlier row is too similar. *)
Theorem rejected_evidence (a : Guard.args) (d : disk) (i : nat) (sc st : Q) (ex pr : str) :
  Guard.main a d = Guard.Rejected i sc st ex pr ->
  exists f,
    d !! Guard.file a = Some f
    /\ Guard.check_col a ∈ fieldnames_or_nil f
    /\ dict_get (Guard.parse_pairs (Guard.pairs a)) (Guard.check_col a) None = Some pr
    /\ pr <> []
    /\ Guard.below_min_length a (Guard.norm a pr) = false
    /\ existing_values a f !! i = Some ex
    /\ too_similar a pr ex
    /\ (forall j v, j < i -> existing_values a f !! j = Some v -> ~ too_similar a pr v)
    /\ sc = Guard.difflib_similarity (Guard.norm a pr) (Guard.norm a ex)
    /\ st = Guard.jaccard_similarity (tokenize (Guard.norm a pr)) (tokenize (Guard.norm a ex)).
Proof.
  unfold Guard.main. destruct (d !! Guard.file a) as [f|]; [|discriminate].
  destruct (dict_get (Guard.parse_pairs (Guard.pairs a)) (Guard.check_col a) None)
    as [[|c t]|] eqn:Ht; simpl; try discriminate.
  destruct (bool_decide_reflect (Guard.check_col a ∈ fieldnames_or_nil f)) as [Hcol|Hcol];
    simpl; [|discriminate].
  destruct (Guard.below_min_length a (Guard.norm a (c :: t))) eqn:Hmin; [discriminate|].
  intros Hscan. pose proof (scan_first a (c :: t) (reader_rows f) 0) as Hfirst.
  rewrite Hscan in Hfirst.
  destruct Hfirst as (k & r & Hik & Hk & -> & Hsim & Hbefore & -> & -> & ->).
  simpl in Hik. subst k.
  exists f. repeat split; try assumption; try reflexivity; try discriminate.
  - unfold existing_values. rewrite list_lookup_fmap, Hk. reflexivity.
  - intros j v Hj Hv. apply existing_values_lookup in Hv as (r' & Hr' & <-).
    eapply Hbefore; eassumption.
Qed.

(** ** The guard and a growing store *)

Lemma scan_app_rejected (a : Guard.args) (t nt : str) (tk : list str) (rows more : list row)
    (n i : nat) (sc st : Q) (ex pr : str) :
  Guard.scan a t nt tk n rows = Guard.Rejected i sc st ex pr ->
  Guard.scan a t nt tk n (rows ++ more) = Guard.Rejected i sc st ex pr.
Proof.
  revert n. induction rows as [|r rows IH]; intros n; simpl; [discriminate|].
  destruct (_ || _); [auto|apply IH].
Qed.

Lemma reader_rows_app (f extra : file) :
  f <> [] -> reader_rows (f ++ extra) = reader_rows f ++ map (read_row (fieldnames_or_nil f))
                                           (filter (fun r => is_blank r = false) extra).
Proof.
  destruct f as [|h t]; [contradiction|]. intros _. unfold reader_rows. simpl.
  rewrite filter_app, map_app. reflexivity.
Qed.

(** X12: a rejection is stable when the store grows at its end: if
    [main] rejects a record against a file, it rejects it with the same
    evidence against that file followed by any further records. *)
Theorem rejection_stable (a : Guard.args) (d : disk) (f extra : file)
    (i : nat) (sc st : Q) (ex pr : str) :
  d !! Guard.file a = Some f ->
  Guard.main a d = Guard.Rejected i sc st ex pr ->
  Guard.main a (<[Guard.file a := f ++ extra]> d) = Guard.Rejected i sc st ex pr.
Proof.
  unfold Guard.main. intros Hf. rewrite Hf, lookup_insert_eq.
  destruct (truthy _); simpl; [|discriminate].
  destruct (bool_decide_reflect (Guard.check_col a ∈ fieldnames_or_nil f)) as [Hcol|Hcol];
    simpl; [|discriminate].
  assert (Hne : f <> []) by (intros ->; inversion Hcol).
  assert (Hhead : fieldnames_or_nil (f ++ extra) = fieldnames_or_nil f)
    by (destruct f; [contradiction|reflexivity]).
  rewrite Hhead, bool_decide_eq_true_2 by exact Hcol. simpl.
  destruct (Guard.below_min_length _ _); [discriminate|].
  rewrite reader_rows_app by exact Hne. apply scan_app_rejected.
Qed.

End guard_more.

(** ** Patterns that repeat one class *)

Section class_runs.
Context {U : UnicodeData}.
Variable p : N -> bool.

Lemma rep_match_all (lo : nat) (s : str) (n : nat) (prev : option N) (len : nat) :
  lo <= n + run_length p s ->
  rep_match p lo (fun _ _ l => Some l) n prev s len = Some (len + run_length p s).
Proof.
  revert n prev len. induction s as [|c s IH]; intros n prev len Hlo; simpl in *.
  - rewrite (proj2 (Nat.leb_le lo n)) by lia. f_equal. lia.
  - destruct (p c).
    + rewrite IH by lia. f_equal. lia.
    + rewrite (proj2 (Nat.leb_le lo n)) by lia. f_equal. lia.
Qed.

Lemma match_at_rep (prev : option N) (s : str) :
  match_at (Rep p 1) prev s
  = match run_length p s with
    | O => None
    | S m => Some (S m)
    end.
Proof.
  unfold match_at. simpl. destruct s as [|c s]; [reflexivity|]. simpl.
  destruct (p c); [|reflexivity].
  rewrite rep_match_all by lia. reflexivity.
Qed.

Lemma sub_from_squeeze (repl : str) (s : str) (prev : option N) :
  sub_from (Rep p 1) repl prev 0 s = squeeze p repl false s
  /\ sub_from (Rep p 1) repl prev (run_length p s) s = squeeze p repl true s.
Proof.
  revert prev. induction s as [|c s IH]; intros prev; [split; reflexivity|].
  assert (H0 : sub_from (Rep p 1) repl prev 0 (c :: s) = squeeze p repl false (c :: s)).
  { cbn [sub_from]. rewrite match_at_rep. cbn [run_length squeeze].
    destruct (p c).
    - f_equal. apply IH.
    - f_equal. apply IH. }
  split; [exact H0|].
  cbn [run_length]. destruct (p c) eqn:Hc.
  - cbn [sub_from squeeze]. rewrite Hc. apply IH.
  - rewrite H0. cbn [squeeze]. rewrite Hc. reflexivity.
Qed.

(** [re.sub] with a pattern [class+] replaces every maximal run. *)
Lemma sub_rep (repl : str) (s : str) : sub (Rep p 1) repl s = squeeze p repl false s.
Proof. apply sub_from_squeeze. Qed.

Lemma squeeze_elem (repl : str) (b : bool) (s : str) (c : N) :
  c ∈ squeeze p repl b s -> c ∈ repl \/ (c ∈ s /\ p c = false).
Proof.
  revert b. induction s as [|x s IH]; intros b; simpl; [intros H; inversion H|].
  destruct (p x) eqn:Hx.
  - destruct b.
    + intros H. apply IH in H as [H|[H Hp]]; [left; exact H|right; split; [right|]; assumption].
    + intros H. apply elem_of_app in H as [H|H]; [left; exact H|].
      apply IH in H as [H|[H Hp]]; [left; exact H|right; split; [right|]; assumption].
  - intros H. apply elem_of_cons in H as [->|H]; [right; split; [left|exact Hx]|].
    apply IH in H as [H|[H Hp]]; [left; exact H|right; split; [right|]; assumption].
Qed.

(** After a run has been replaced by one character of the class, no two
    neighbours are both in the class. *)
Lemma squeeze_no_adjacent (x0 : N) (s : str) (b : bool) :
  p x0 = true ->
  (forall c t, squeeze p [x0] true s = c :: t -> p c = false)
  /\ (forall i x y, squeeze p [x0] b s !! i = Some x -> squeeze p [x0] b s !! S i = Some y ->
        p x = true -> p y = false).
Proof.
  intros Hx0. revert b. induction s as [|c s IH]; intros b.
  - split; [discriminate|]. intros i x y H. destruct i; discriminate.
  - assert (Hhead : forall c' t, squeeze p [x0] true (c :: s) = c' :: t -> p c' = false).
    { simpl. destruct (p c) eqn:Hc.
      - apply (IH true).
      - intros c' t [= <- _]. exact Hc. }
    split; [exact Hhead|].
    simpl. destruct (p c) eqn:Hc.
    + destruct b; [apply (IH true)|].
      intros [|i] x y Hx Hy Hpx; simpl in *.
      * destruct (squeeze p [x0] true s) as [|c' t] eqn:E; [discriminate|].
        injection Hy as <-. apply (proj1 (IH true) c' t eq_refl).
      * exact (proj2 (IH true) i x y Hx Hy Hpx).
    + intros [|i] x y Hx Hy Hpx; simpl in *.
      * injection Hx as <-. congruence.
      * exact (proj2 (IH false) i x y Hx Hy Hpx).
Qed.

Lemma findall_from_prev (prev prev' : option N) (k : nat) (s : str) :
  findall_from (Rep p 1) prev k s = findall_from (Rep p 1) prev' k s.
Proof.
  destruct s as [|c s]; [reflexivity|]. destruct k; [|reflexivity].
  cbn [findall_from]. rewrite !match_at_rep. reflexivity.
Qed.

Lemma findall_from_skip (prev : option N) (k : nat) (s : str) :
  findall_from (Rep p 1) prev k s = findall (Rep p 1) (drop k s).
Proof.
  revert prev s. induction k as [|k IH]; intros prev s.
  - rewrite drop_0. apply findall_from_prev.
  - destruct s as [|c s]; [reflexivity|]. cbn [findall_from drop]. apply IH.
Qed.

(** A token starts at a character of the class and takes the whole run. *)
Lemma findall_run (c : N) (s : str) :
  p c = true ->
  findall (Rep p 1) (c :: s)
  = (c :: take (run_length p s) s) :: findall (Rep p 1) (drop (run_length p s) s).
Proof.
  intros Hc. unfold findall at 1. cbn [findall_from]. rewrite match_at_rep.
  cbn [run_length]. rewrite Hc. cbn [take]. f_equal. apply findall_from_skip.
Qed.

Lemma findall_gap (c : N) (s : str) :
  p c = false -> findall (Rep p 1) (c :: s) = findall (Rep p 1) s.
Proof.
  intros Hc. unfold findall at 1. cbn [findall_from]. rewrite match_at_rep.
  cbn [run_length]. rewrite Hc. apply findall_from_prev.
Qed.

Lemma run_take_Forall (s : str) : Forall (fun c => p c = true) (take (run_length p s) s).
Proof.
  induction s as [|c s IH]; simpl; [constructor|].
  destruct (p c) eqn:Hc; simpl; [|constructor]. constructor; assumption.
Qed.

Lemma run_drop_head (s : str) (x : N) (t : str) :
  drop (run_length p s) s = x :: t -> p x = false.
Proof.
  induction s as [|c s IH]; simpl; [discriminate|].
  destruct (p c) eqn:Hc; simpl; [exact IH|]. intros [= <- _]. exact Hc.
Qed.

Lemma filter_all_true (l : str) :
  Forall (fun c => p c = true) l -> filter (fun c => p c = true) l = l.
Proof.
  induction 1 as [|c l Hc _ IH]; [reflexivity|].
  rewrite filter_cons_True by exact Hc. f_equal. exact IH.
Qed.

Lemma filter_run (s : str) :
  filter (fun c => p c = true) s
  = take (run_length p s) s ++ filter (fun c => p c = true) (drop (run_length p s) s).
Proof.
  generalize (run_take_Forall s). generalize (run_length p s). intros k Hk.
  rewrite <- (take_drop k s) at 1. rewrite filter_app. f_equal.
  apply filter_all_true, Hk.
Qed.

Lemma findall_rep_tokens (n : nat) (s : str) :
  length s <= n ->
  Forall (fun t => t <> [] /\ Forall (fun c => p c = true) t) (findall (Rep p 1) s)
  /\ concat (findall (Rep p 1) s) = filter (fun c => p c = true) s.
Proof.
  revert s. induction n as [|n IH]; intros s Hlen.
  - destruct s; [|simpl in Hlen; lia]. split; [constructor|reflexivity].
  - destruct s as [|c s]; [split; [constructor|reflexivity]|]. simpl in Hlen.
    destruct (p c) eqn:Hc.
    + rewrite (findall_run c s Hc).
      destruct (IH (drop (run_length p s) s)) as [Hall Hcat].
      { rewrite length_drop. lia. }
      split.
      * constructor; [|exact Hall]. split; [discriminate|].
        constructor; [exact Hc|apply run_take_Forall].
      * cbn [concat]. rewrite Hcat. rewrite filter_cons_True by exact Hc.
        cbn [app]. f_equal. symmetry. apply filter_run.
    + rewrite (findall_gap c s Hc). rewrite filter_cons_False by congruence.
      apply IH. lia.
Qed.

(** In a text whose characters outside the class are separators [x0], each
    followed by a character of the class, the tokens joined by [x0] give
    the text back. *)
Lemma join_findall (x0 : N) (n : nat) (s : str) :
  length s <= n ->
  (forall c t, s = c :: t -> p c = true) ->
  (forall l1 x l2, s = l1 ++ x :: l2 -> p x = false ->
     x = x0 /\ exists y l3, l2 = y :: l3 /\ p y = true) ->
  join [x0] (findall (Rep p 1) s) = s.
Proof.
  revert s. induction n as [|n IH]; intros s Hlen Hhead Hsep.
  - destruct s; [reflexivity|simpl in Hlen; lia].
  - destruct s as [|c s]; [reflexivity|]. simpl in Hlen.
    pose proof (Hhead c s eq_refl) as Hc.
    rewrite (findall_run c s Hc).
    pose proof (take_drop (run_length p s) s) as Hsplit.
    pose proof (run_drop_head s) as Hdrop.
    revert Hsplit Hdrop.
    generalize (take (run_length p s) s) (drop (run_length p s) s).
    intros tk rest Hsplit Hdrop. subst s.
    destruct rest as [|x rest].
    + rewrite app_nil_r. reflexivity.
    + pose proof (Hdrop x rest eq_refl) as Hx.
      destruct (Hsep (c :: tk) x rest eq_refl Hx) as (-> & y & l3 & -> & Hy).
      rewrite (findall_gap x0 _ Hx).
      assert (Hrec : join [x0] (findall (Rep p 1) (y :: l3)) = y :: l3).
      { apply IH.
        - rewrite length_app in Hlen. simpl in Hlen |- *. lia.
        - intros c' t [= <- <-]. exact Hy.
        - intros l1 x l2 E Hpx.
          apply (Hsep (c :: tk ++ x0 :: l1) x l2); [|exact Hpx].
          cbn [app]. f_equal. rewrite E. rewrite <- app_assoc. reflexivity. }
      rewrite (findall_run y l3 Hy) in Hrec |- *.
      cbn [join] in Hrec |- *. rewrite Hrec. reflexivity.
Qed.

End class_runs.

(** ** The shape of a normalized text *)

Section normal_form.
Context {U : UnicodeData}.

Lemma lstrip_suffix (s : str) : exists pre, s = pre ++ lstrip s.
Proof.
  induction s as [|c s [pre IH]]; [exists []; reflexivity|]. simpl.
  destruct (is_space c); [|exists []; reflexivity].
  exists (c :: pre). simpl. f_equal. exact IH.
Qed.

Lemma rstrip_prefix (s : str) : exists suf, s = rstrip s ++ suf.
Proof.
  unfold rstrip. destruct (lstrip_suffix (rev s)) as [pre E].
  exists (rev pre). rewrite <- rev_app_distr, <- E. symmetry. apply rev_involutive.
Qed.

Lemma strip_infix (s : str) : exists pre suf, s = pre ++ strip s ++ suf.
Proof.
  unfold strip. destruct (lstrip_suffix s) as [pre E].
  destruct (rstrip_prefix (lstrip s)) as [suf E'].
  exists pre, suf. rewrite <- E'. exact E.
Qed.

Lemma strip_elem (s : str) (c : N) : c ∈ strip s -> c ∈ s.
Proof.
  destruct (strip_infix s) as (pre & suf & E). intros H. rewrite E.
  apply elem_of_app. right. apply elem_of_app. left. exact H.
Qed.

Lemma strip_head (s : str) (c : N) (t : str) : strip s = c :: t -> is_space c = false.
Proof.
  unfold strip. intros E. destruct (rstrip_prefix (lstrip s)) as [suf E'].
  rewrite E in E'. apply (lstrip_head s c (t ++ suf)). exact E'.
Qed.

Lemma strip_last (s : str) (t : str) (c : N) : strip s = t ++ [c] -> is_space c = false.
Proof.
  unfold strip, rstrip. intros E. apply (f_equal (@rev N)) in E.
  rewrite rev_involutive, rev_app_distr in E. simpl in E.
  apply lstrip_head in E. exact E.
Qed.

Lemma lookup_infix (l pre m suf : str) (i : nat) (x : N) :
  l = pre ++ m ++ suf -> m !! i = Some x -> l !! (length pre + i) = Some x.
Proof.
  intros -> H. rewrite lookup_app_r by lia.
  replace (length pre + i - length pre) with i by lia.
  apply lookup_app_l_Some. exact H.
Qed.

(** What is left of a text: the separator and word characters. *)
Lemma normalize_text_chars (text : pyval) (c : N) :
  c ∈ normalize_text text -> c = 32%N \/ (is_word c = true /\ is_space c = false).
Proof.
  unfold normalize_text. intros H. apply strip_elem in H.
  unfold sub at 1, spaces_re in H. rewrite (proj1 (sub_from_squeeze _ _ _ _)) in H.
  apply squeeze_elem in H as [H|[H Hsp]].
  - left. apply list_elem_of_singleton in H. exact H.
  - apply sub_cls_elem in H as [H|[_ Hp]].
    + left. apply list_elem_of_singleton in H. exact H.
    + right. split; [|exact Hsp]. unfold not_word_not_space in Hp.
      rewrite Hsp in Hp. simpl in Hp. rewrite andb_true_r in Hp.
      apply negb_false_iff in Hp. exact Hp.
Qed.

Lemma normalize_text_spacing (text : pyval) (i : nat) (x y : N) :
  normalize_text text !! i = Some x -> normalize_text text !! S i = Some y ->
  is_space x = true -> is_space y = false.
Proof.
  unfold normalize_text. set (u := sub spaces_re _ _).
  destruct (strip_infix u) as (pre & suf & E). intros Hx Hy.
  pose proof (lookup_infix _ _ _ _ _ _ E Hx) as Hx'.
  pose proof (lookup_infix _ _ _ _ _ _ E Hy) as Hy'.
  rewrite Nat.add_succ_r in Hy'. revert Hx' Hy'.
  unfold u, spaces_re, sub. rewrite (proj1 (sub_from_squeeze _ _ _ _)).
  apply (squeeze_no_adjacent is_space 32%N _ false space_is_space).
Qed.

(** Digits other than the placeholder do not survive. *)
Lemma normalize_text_digit (text : pyval) (c : N) :
  is_digit 32%N = false ->
  c ∈ normalize_text text -> is_digit c = true -> c = 48%N.
Proof.
  intros H32 H Hd. unfold normalize_text in H. apply strip_elem in H.
  assert (Hsp : forall x : N, x ∈ lit " " -> x = c -> False).
  { intros x Hx ->. change (lit " ") with [32%N] in Hx.
    apply list_elem_of_singleton in Hx. congruence. }
  apply sub_from_elem in H as [H|H]; [destruct (Hsp c H eq_refl)|].
  apply sub_from_elem in H as [H|H]; [destruct (Hsp c H eq_refl)|].
  unfold digits_re, sub in H. rewrite (proj1 (sub_from_squeeze _ _ _ _)) in H.
  apply squeeze_elem in H as [H|[_ H]]; [|congruence].
  change (lit " 0 ") with [32%N; 48%N; 32%N] in H.
  apply elem_of_cons in H as [->|H]; [congruence|].
  apply elem_of_cons in H as [->|H]; [reflexivity|].
  apply list_elem_of_singleton in H. congruence.
Qed.

End normal_form.

(** X14: [normalize_text] returns a text made of word characters and single
    U+0020 separators only: every character is U+0020 or a word character
    that is not white space, the text neither starts nor ends with white
    space, and no two neighbours are both white space. *)
Theorem normalize_text_shape `{UnicodeData} (text : pyval) :
  let n := Text.normalize_text text in
  Forall (fun c => c = 32%N \/ (is_word c = true /\ is_space c = false)) n
  /\ (forall c, head n = Some c -> is_space c = false)
  /\ (forall c, last n = Some c -> is_space c = false)
  /\ (forall i x y, n !! i = Some x -> n !! S i = Some y ->
        is_space x = true -> is_space y = false).
Proof.
  cbn zeta. split; [|split; [|split]].
  - apply Forall_forall. intros c Hc. apply (normalize_text_chars text c Hc).
  - intros c Hc. unfold normalize_text in Hc |- *.
    destruct (strip _) as [|c' t] eqn:E; [discriminate|]. injection Hc as ->.
    apply (strip_head _ _ _ E).
  - intros c Hc. apply last_Some in Hc as [t E]. apply (strip_last _ _ _ E).
  - apply normalize_text_spacing.
Qed.

(** X15: numbers are masked: when U+0020 is not a digit, the only digit
    character a normalized text can hold is the placeholder "0". *)
Theorem normalize_text_masks_digits `{UnicodeData} (text : pyval) (c : N) :
  is_digit 32%N = false ->
  c ∈ Text.normalize_text text -> is_digit c = true -> c = 48%N.
Proof. apply normalize_text_digit. Qed.

(** X16: [tokenize] returns non-empty runs of word characters, and together
    the tokens are the word characters of the text, in order: nothing is
    lost or added but the characters between the words. *)
Theorem tokenize_spec `{UnicodeData} (s : str) :
  Forall (fun t => t <> [] /\ Forall (fun c => is_word c = true) t) (Text.tokenize s)
  /\ concat (Text.tokenize s) = filter (fun c => is_word c = true) s.
Proof. apply (findall_rep_tokens is_word (length s) s). lia. Qed.

(** X17: when U+0020 is not a word character, a normalized text is its
    tokens joined by single spaces: tokenizing loses nothing of it. *)
Theorem tokenize_normalized_join `{UnicodeData} (text : pyval) :
  is_word 32%N = false ->
  join (lit " ") (Text.tokenize (Text.normalize_text text)) = Text.normalize_text text.
Proof.
  intros H32. unfold tokenize, word_re.
  apply (join_findall is_word 32%N (length (normalize_text text))); [lia| |].
  - intros c t E.
    destruct (normalize_text_chars text c) as [->|[Hw _]]; [rewrite E; left| |exact Hw].
    unfold normalize_text in E. apply strip_head in E.
    rewrite space_is_space in E. discriminate.
  - intros l1 x l2 E Hx.
    assert (Hx32 : x = 32%N).
    { destruct (normalize_text_chars text x) as [->|[Hw _]]; [|reflexivity|congruence].
      rewrite E. apply elem_of_app. right. left. }
    subst x. split; [reflexivity|].
    destruct l2 as [|y l3].
    + unfold normalize_text in E. apply strip_last in E.
      rewrite space_is_space in E. discriminate.
    + exists y, l3. split; [reflexivity|].
      assert (Hy : is_space y = false).
      { apply (normalize_text_spacing text (length l1) 32%N y).
        - rewrite E. apply list_lookup_middle. reflexivity.
        - rewrite E. change (l1 ++ 32%N :: y :: l3) with (l1 ++ [32%N] ++ y :: l3).
          rewrite app_assoc. apply list_lookup_middle.
          rewrite length_app. simpl. lia.
        - apply space_is_space. }
      destruct (normalize_text_chars text y) as [->|[Hw _]]; [| |exact Hw].
      * rewrite E. apply elem_of_app. right. right. left.
      * rewrite space_is_space in Hy. discriminate.
Qed.

(** ** The scores lie between 0 and 1 *)

Lemma Qred_frac_range (m n : nat) :
  m <= n -> n <> 0 ->
  (0 <= Qred (Qmake (Z.of_nat m) (Pos.of_nat n)))%Q
  /\ (Qred (Qmake (Z.of_nat m) (Pos.of_nat n)) <= 1)%Q.
Proof.
  intros Hmn Hn. rewrite Qred_correct. unfold Qle. simpl.
  destruct n as [|n]; [contradiction|]. rewrite <- Pos.of_nat_succ. lia.
Qed.

Lemma Qred_frac_one (m n : nat) :
  n <> 0 -> Qred (Qmake (Z.of_nat m) (Pos.of_nat n)) = 1%Q -> m = n.
Proof.
  intros Hn H. pose proof (Qred_correct (Qmake (Z.of_nat m) (Pos.of_nat n))) as E.
  rewrite H in E. unfold Qeq in E. simpl in E.
  destruct n as [|n]; [contradiction|]. rewrite <- Pos.of_nat_succ in E. lia.
Qed.

Section matcher_b_bounds.
Variables a b : str.

Lemma j2lenget_b_bound (blo : nat) (M : gmap nat nat) (j : nat) :
  j2len_ok blo M -> blo <= j -> Difflib.j2lenget M j + 1 <= j + 1 - blo.
Proof.
  intros HM Hj. destruct j as [|j]; simpl; [lia|].
  destruct (M !! j) as [v|] eqn:E; simpl; [|lia].
  destruct (HM j v E). lia.
Qed.

Lemma scan_row_b_bounds (i blo bhi : nat) (M : gmap nat nat) (js : list nat)
    (newM : gmap nat nat) (bi bj bs : nat) :
  j2len_ok blo M -> j2len_ok blo newM ->
  blo <= bj -> bj + bs <= bhi ->
  match Difflib.scan_row i blo bhi M js newM (bi, bj, bs) with
  | (newM', (bi', bj', bs')) => j2len_ok blo newM' /\ blo <= bj' /\ bj' + bs' <= bhi
  end.
Proof.
  intros HM. revert newM bi bj bs.
  induction js as [|j js IH]; intros newM bi bj bs HN Hlo Hhi; simpl.
  - auto.
  - destruct (Nat.ltb_spec j blo) as [|Hj]; [apply IH; assumption|].
    destruct (Nat.leb_spec bhi j) as [|Hj']; [auto|].
    pose proof (j2lenget_b_bound blo M j HM Hj) as Hk.
    assert (HN' : j2len_ok blo (<[j := Difflib.j2lenget M j + 1]> newM)).
    { intros j0 v. rewrite lookup_insert. case_decide; [intros [= <-]; subst; lia|apply HN]. }
    unfold Difflib.block_size. simpl snd.
    destruct (bs <? Difflib.j2lenget M j + 1); apply IH; try assumption; lia.
Qed.

Lemma scan_rows_b_bounds (alo blo bhi m : nat) :
  blo <= bhi ->
  match foldl (fun st i => Difflib.scan_row i blo bhi (fst st) (Difflib.row_indices a b i) ∅ (snd st))
              (∅, (alo, blo, 0)) (seq alo m) with
  | (M, (bi, bj, bs)) => j2len_ok blo M /\ blo <= bj /\ bj + bs <= bhi
  end.
Proof.
  intros Hb. induction m as [|m IH].
  - simpl. split; [|lia]. intros j v. rewrite lookup_empty. discriminate.
  - rewrite seq_S, foldl_app. simpl.
    destruct (foldl _ _ (seq alo m)) as [M [[bi bj] bs]]. destruct IH as (HM & Hlo & Hhi).
    simpl. apply scan_row_b_bounds; try assumption.
    intros j v. rewrite lookup_empty. discriminate.
Qed.

Lemma extend_back_b_bounds (want : bool) (alo blo bhi : nat) (bi bj bs : nat) :
  blo <= bj -> bj + bs <= bhi ->
  match Difflib.extend_back a b want alo blo bi bj bs with
  | (bi', bj', bs') => blo <= bj' /\ bj' + bs' <= bhi
  end.
Proof.
  revert bj bs. induction bi as [|bi IH]; intros bj bs Hlo Hhi; simpl; [lia|].
  destruct bj as [|bj]; [lia|].
  destruct (_ && _) eqn:E; [|lia].
  apply andb_true_iff in E as [E _]. apply andb_true_iff in E as [E _].
  apply andb_true_iff in E as [_ E]. apply Nat.ltb_lt in E.
  apply IH; lia.
Qed.

Lemma extend_fwd_b_bounds (want : bool) (blo ahi bhi n : nat) (bi bj bs : nat) :
  blo <= bj -> bj + bs <= bhi ->
  match Difflib.extend_fwd a b want ahi bhi n bi bj bs with
  | (bi', bj', bs') => blo <= bj' /\ bj' + bs' <= bhi
  end.
Proof.
  revert bs. induction n as [|n IH]; intros bs Hlo Hhi; simpl; [lia|].
  destruct (_ && _) eqn:E; [|lia].
  apply andb_true_iff in E as [E _]. apply andb_true_iff in E as [E _].
  apply andb_true_iff in E as [_ E]. apply Nat.ltb_lt in E.
  apply IH; lia.
Qed.

(** The longest match lies inside the range of [b] it was searched in. *)
Lemma find_longest_match_b_bounds (alo ahi blo bhi : nat) :
  blo <= bhi ->
  match Difflib.find_longest_match a b alo ahi blo bhi with
  | (i, j, k) => blo <= j /\ j + k <= bhi
  end.
Proof.
  intros Hle. unfold Difflib.find_longest_match, Difflib.scan_rows.
  pose proof (scan_rows_b_bounds alo blo bhi (ahi - alo) Hle) as H0.
  destruct (foldl _ _ _) as [M [[bi0 bj0] bs0]]. simpl snd.
  destruct H0 as (_ & Hlo0 & Hhi0).
  pose proof (extend_back_b_bounds false alo blo bhi bi0 bj0 bs0 Hlo0 Hhi0) as H1.
  destruct (Difflib.extend_back a b false alo blo bi0 bj0 bs0) as [[bi1 bj1] bs1].
  destruct H1 as (Hlo1 & Hhi1).
  pose proof (extend_fwd_b_bounds false blo ahi bhi (ahi - (bi1 + bs1)) bi1 bj1 bs1 Hlo1 Hhi1) as H2.
  destruct (Difflib.extend_fwd a b false ahi bhi _ bi1 bj1 bs1) as [[bi2 bj2] bs2].
  destruct H2 as (Hlo2 & Hhi2).
  pose proof (extend_back_b_bounds true alo blo bhi bi2 bj2 bs2 Hlo2 Hhi2) as H3.
  destruct (Difflib.extend_back a b true alo blo bi2 bj2 bs2) as [[bi3 bj3] bs3].
  destruct H3 as (Hlo3 & Hhi3).
  pose proof (extend_fwd_b_bounds true blo ahi bhi (ahi - (bi3 + bs3)) bi3 bj3 bs3 Hlo3 Hhi3) as H4.
  destruct (Difflib.extend_fwd a b true ahi bhi _ bi3 bj3 bs3) as [[bi4 bj4] bs4].
  tauto.
Qed.

Lemma matched_app (l1 l2 : list Difflib.block) : matched (l1 ++ l2) = matched l1 + matched l2.
Proof. induction l1 as [|x l1 IH]; simpl; [reflexivity|]. rewrite IH. lia. Qed.

Lemma matched_snoc (l : list Difflib.block) (i j k : nat) :
  matched (l ++ [(i, j, k)]) = matched l + k.
Proof. rewrite matched_app. unfold matched at 2. simpl. unfold Difflib.block_size. simpl. lia. Qed.

(** The blocks found never cover more than the ranges they were searched
    in: they do not overlap, in [a] or in [b]. *)
Lemma blocks_loop_matched (fuel : nat) (queue : list (nat * nat * nat * nat))
    (acc res : list Difflib.block) :
  Forall queue_ranges queue ->
  Difflib.blocks_loop a b fuel queue acc = Some res ->
  matched res <= matched acc + queue_span_a queue
  /\ matched res <= matched acc + queue_span_b queue.
Proof.
  revert queue acc. induction fuel as [|fuel IH]; intros queue acc Hok.
  - destruct queue as [|[[[alo ahi] blo] bhi] rest]; simpl; [|discriminate].
    intros [= <-]. lia.
  - destruct queue as [|[[[alo ahi] blo] bhi] rest]; simpl; [intros [= <-]; lia|].
    apply Forall_cons in Hok as [[Hqa Hqb] Hrest]. simpl in Hqa, Hqb.
    pose proof (find_longest_match_bounds a b alo ahi blo bhi Hqa) as Ha.
    pose proof (find_longest_match_b_bounds alo ahi blo bhi Hqb) as Hb.
    destruct (Difflib.find_longest_match a b alo ahi blo bhi) as [[i j] k].
    destruct Ha as [Hla Hha]. destruct Hb as [Hlb Hhb].
    destruct (Nat.eqb_spec k 0) as [->|Hk].
    + intros H. apply IH in H; [|exact Hrest]. lia.
    + intros H. apply IH in H.
      * rewrite matched_snoc in H.
        destruct ((alo <? i) && (blo <? j)); destruct ((i + k <? ahi) && (j + k <? bhi));
          simpl in H; lia.
      * destruct ((alo <? i) && (blo <? j)); destruct ((i + k <? ahi) && (j + k <? bhi));
          repeat (apply Forall_cons; split); try exact Hrest;
          unfold queue_ranges; simpl; lia.
Qed.

Lemma matched_insert (x : Difflib.block) (l : list Difflib.block) :
  matched (Difflib.insert_block x l) = Difflib.block_size x + matched l.
Proof.
  induction l as [|y l IH]; simpl; [reflexivity|].
  destruct (Difflib.block_leb x y); simpl; [reflexivity|]. rewrite IH. lia.
Qed.

Lemma matched_sort (l : list Difflib.block) : matched (Difflib.sort_blocks l) = matched l.
Proof.
  unfold Difflib.sort_blocks. induction l as [|x l IH]; [reflexivity|].
  cbn [foldr]. rewrite matched_insert, IH. reflexivity.
Qed.

Lemma matched_collapse (cur : Difflib.block) (l acc : list Difflib.block) :
  matched (Difflib.collapse cur l acc) = matched acc + Difflib.block_size cur + matched l.
Proof.
  revert cur acc. induction l as [|[[i2 j2] k2] l IH]; intros [[i1 j1] k1] acc; simpl.
  - unfold Difflib.block_size. simpl.
    destruct (Nat.eqb_spec k1 0) as [->|_]; [lia|].
    rewrite matched_snoc. lia.
  - destruct ((i1 + k1 =? i2) && (j1 + k1 =? j2)); rewrite IH;
      unfold Difflib.block_size; simpl; [lia|].
    destruct (Nat.eqb_spec k1 0) as [->|_]; [lia|].
    rewrite matched_snoc. lia.
Qed.

Lemma matching_blocks_matched :
  matched (Difflib.get_matching_blocks a b) <= length a
  /\ matched (Difflib.get_matching_blocks a b) <= length b.
Proof.
  unfold Difflib.get_matching_blocks. rewrite matched_app, matched_collapse, matched_sort.
  unfold matched at 1 3 4 6. unfold Difflib.block_size at 1 2 3 4. simpl.
  rewrite !Nat.add_0_r.
  unfold Difflib.raw_blocks.
  destruct (Difflib.blocks_loop a b _ _ _) as [res|] eqn:E; simpl; [|lia].
  apply blocks_loop_matched in E.
  - simpl in E. lia.
  - apply Forall_cons. split; [unfold queue_ranges; simpl; lia|apply Forall_nil_2].
Qed.

Lemma ratio_range : (0 <= Difflib.ratio a b)%Q /\ (Difflib.ratio a b <= 1)%Q.
Proof.
  unfold Difflib.ratio, Difflib.calculate_ratio. fold (matched (Difflib.get_matching_blocks a b)).
  destruct (Nat.eqb_spec (length a + length b) 0) as [|Hn].
  - split; discriminate.
  - apply Qred_frac_range; [|exact Hn].
    pose proof matching_blocks_matched. lia.
Qed.

End matcher_b_bounds.

Lemma jaccard_range (tokens_a tokens_b : list str) :
  (0 <= Guard.jaccard_similarity tokens_a tokens_b)%Q
  /\ (Guard.jaccard_similarity tokens_a tokens_b <= 1)%Q.
Proof.
  unfold Guard.jaccard_similarity.
  destruct (_ && _); [split; discriminate|].
  destruct (_ || _); [split; discriminate|].
  cbn zeta. destruct (Nat.eqb_spec (size (list_to_set tokens_a ∪ list_to_set tokens_b : gset str)) 0)
    as [|Hn]; [split; discriminate|].
  apply Qred_frac_range; [|exact Hn].
  apply subseteq_size. intros x Hx. apply elem_of_intersection in Hx as [Hx _].
  apply elem_of_union. left. exact Hx.
Qed.

(** X18: the character score is a number between 0 and 1, whatever the
    two texts are. *)
Theorem difflib_similarity_range (a b : str) :
  (0 <= Guard.difflib_similarity a b)%Q /\ (Guard.difflib_similarity a b <= 1)%Q.
Proof. apply ratio_range. Qed.

(** X19: the token score is a number between 0 and 1, and it does not
    depend on which of the two token lists comes first. *)
Theorem jaccard_similarity_range (tokens_a tokens_b : list str) :
  (0 <= Guard.jaccard_similarity tokens_a tokens_b)%Q
  /\ (Guard.jaccard_similarity tokens_a tokens_b <= 1)%Q
  /\ Guard.jaccard_similarity tokens_a tokens_b = Guard.jaccard_similarity tokens_b tokens_a.
Proof.
  split; [apply jaccard_range|]. split; [apply jaccard_range|].
  unfold Guard.jaccard_similarity.
  set (A := list_to_set tokens_a : gset str). set (B := list_to_set tokens_b : gset str).
  rewrite (andb_comm (bool_decide (A = ∅))), (orb_comm (bool_decide (A = ∅))).
  assert (A ∩ B = B ∩ A) as -> by apply (comm_L (∩)).
  assert (A ∪ B = B ∪ A) as -> by apply (comm_L (∪)).
  reflexivity.
Qed.

(** X20: the token score is 1 exactly when the two texts have the same set
    of tokens: order and repetition of the tokens do not count. *)
Theorem jaccard_similarity_one (tokens_a tokens_b : list str) :
  Guard.jaccard_similarity tokens_a tokens_b = 1%Q
  <-> forall t, t ∈ tokens_a <-> t ∈ tokens_b.
Proof.
  set (A := list_to_set tokens_a : gset str). set (B := list_to_set tokens_b : gset str).
  assert (Hsets : A = B <-> forall t, t ∈ tokens_a <-> t ∈ tokens_b).
  { split.
    - intros E t. rewrite <- !(elem_of_list_to_set (C := gset str)). fold A B.
      rewrite E. reflexivity.
    - intros H. apply set_eq. intros t. unfold A, B. rewrite !elem_of_list_to_set. apply H. }
  rewrite <- Hsets. unfold Guard.jaccard_similarity. fold A B.
  destruct (bool_decide_reflect (A = ∅)) as [HA|HA];
    destruct (bool_decide_reflect (B = ∅)) as [HB|HB]; cbn [andb orb].
  - split; [congruence|reflexivity].
  - split; [discriminate|congruence].
  - split; [discriminate|congruence].
  - cbn zeta. pose proof (gset_size_union_pos A B HA) as Hu.
    destruct (Nat.eqb_spec (size (A ∪ B)) 0) as [|_]; [contradiction|].
    split.
    + intros H. apply Qred_frac_one in H; [|exact Hu].
      assert (E : A ∩ B = A ∪ B).
      { apply set_subseteq_size_eq; [|lia].
        intros x Hx. apply elem_of_intersection in Hx as [Hx _].
        apply elem_of_union. left. exact Hx. }
      apply set_eq. intros x. split; intros Hx.
      * assert (Hx' : x ∈ A ∪ B) by (apply elem_of_union; left; exact Hx).
        rewrite <- E in Hx'. apply elem_of_intersection in Hx'. tauto.
      * assert (Hx' : x ∈ A ∪ B) by (apply elem_of_union; right; exact Hx).
        rewrite <- E in Hx'. apply elem_of_intersection in Hx'. tauto.
    + intros <-.
      assert (A ∩ A = A) as -> by apply (idemp_L (∩)).
      assert (A ∪ A = A) as Hi by apply (idemp_L (∪)).
      rewrite Hi in *. apply Qred_same, Hu.
Qed.

(** ** Thresholds of one *)

Section thresholds.
Context {U : UnicodeData}.

Lemma gt_false_le (x y : Q) : (x <= y)%Q -> Guard.gt x y = false.
Proof.
  intros H. unfold Guard.gt. apply negb_false_iff. apply Qle_bool_iff. exact H.
Qed.

Lemma scan_unique (a : Guard.args) (t nt : str) (tk : list str) (rows : list row) (i : nat) :
  (1 <= Guard.threshold a)%Q -> (1 <= Guard.token_threshold a)%Q ->
  Guard.scan a t nt tk i rows = Guard.Unique.
Proof.
  intros Hc Ht. revert i. induction rows as [|r rows IH]; intros i; [reflexivity|].
  cbn [Guard.scan]. cbn zeta.
  rewrite gt_false_le.
  - rewrite gt_false_le; [apply IH|].
    eapply Qle_trans; [apply jaccard_range|exact Ht].
  - eapply Qle_trans; [apply ratio_range|exact Hc].
Qed.

End thresholds.

(** X21: with both thresholds at 1 or more the guard rejects nothing, not
    even an exact copy of a stored text: the scores never exceed 1 and
    the comparison is strict. *)
Theorem thresholds_of_one_reject_nothing `{UnicodeData} (a : Guard.args) (d : disk)
    (i : nat) (sc st : Q) (ex pr : str) :
  (1 <= Guard.threshold a)%Q -> (1 <= Guard.token_threshold a)%Q ->
  Guard.main a d <> Guard.Rejected i sc st ex pr.
Proof.
  intros Hc Ht. unfold Guard.main.
  destruct (d !! Guard.file a); [|discriminate].
  destruct (negb (truthy _)); [discriminate|].
  destruct (negb (bool_decide _)); [discriminate|].
  destruct (Guard.below_min_length _ _); [discriminate|].
  rewrite scan_unique by assumption. discriminate.
Qed.

(** ** Paths *)

Section paths.
Import Posixpath.

Lemma rfind_from_absent (c : N) (s : str) (i found : Z) :
  c ∉ s -> rfind_from c s i found = found.
Proof.
  revert i found. induction s as [|x s IH]; intros i found Hc; [reflexivity|].
  simpl. apply not_elem_of_cons in Hc as [Hx Hs].
  destruct (N.eqb_spec x c) as [->|_]; [contradiction|]. apply IH, Hs.
Qed.

Lemma rfind_from_last (c : N) (s1 s2 : str) (i found : Z) :
  c ∉ s2 -> rfind_from c (s1 ++ c :: s2) i found = (i + Z.of_nat (length s1))%Z.
Proof.
  intros Hc. revert i found. induction s1 as [|x s1 IH]; intros i found; simpl.
  - rewrite N.eqb_refl, rfind_from_absent by exact Hc. lia.
  - rewrite IH. lia.
Qed.

Lemma rfind_absent (c : N) (s : str) : c ∉ s -> rfind c s = (-1)%Z.
Proof. apply rfind_from_absent. Qed.

Lemma rfind_last (c : N) (s1 s2 : str) :
  c ∉ s2 -> rfind c (s1 ++ c :: s2) = Z.of_nat (length s1).
Proof. intros Hc. unfold rfind. rewrite rfind_from_last by exact Hc. lia. Qed.

(** A text either lacks the character or splits at its last occurrence. *)
Lemma last_occurrence (c : N) (s : str) :
  c ∉ s \/ exists s1 s2, s = s1 ++ c :: s2 /\ c ∉ s2.
Proof.
  induction s as [|x s IH].
  - left. apply not_elem_of_nil.
  - destruct IH as [Hc|(s1 & s2 & -> & Hc)].
    + destruct (N.eqb_spec x c) as [->|Hx].
      * right. exists [], s. split; [reflexivity|exact Hc].
      * left. apply not_elem_of_cons. split; [congruence|exact Hc].
    + right. exists (x :: s1), s2. split; [reflexivity|exact Hc].
Qed.

Lemma drop_middle (s1 s2 : str) (c : N) :
  from (Z.of_nat (length s1) + 1) (s1 ++ c :: s2) = s2.
Proof.
  unfold from. replace (Z.to_nat (Z.of_nat (length s1) + 1)) with (length (s1 ++ [c])).
  - change (s1 ++ c :: s2) with (s1 ++ [c] ++ s2). rewrite app_assoc. apply drop_app_length.
  - rewrite length_app. simpl. lia.
Qed.

Lemma basename_absent (p : str) : 47%N ∉ p -> basename p = p.
Proof. intros H. unfold basename. rewrite rfind_absent by exact H. reflexivity. Qed.

Lemma basename_last (s1 s2 : str) : 47%N ∉ s2 -> basename (s1 ++ 47%N :: s2) = s2.
Proof. intros H. unfold basename. rewrite rfind_last by exact H. apply drop_middle. Qed.

(** The base name holds no separator and is an end of the path. *)
Lemma basename_spec (p : str) : (47%N ∉ basename p) /\ exists pre, p = pre ++ basename p.
Proof.
  destruct (last_occurrence 47%N p) as [H|(s1 & s2 & -> & H)].
  - rewrite basename_absent by exact H. split; [exact H|]. exists []. reflexivity.
  - rewrite basename_last by exact H. split; [exact H|].
    exists (s1 ++ [47%N]). rewrite <- app_assoc. reflexivity.
Qed.

Lemma splitext_parts (p : str) : fst (splitext p) ++ snd (splitext p) = p.
Proof.
  unfold splitext. destruct (_ && _); simpl; [apply take_drop|apply app_nil_r].
Qed.

Lemma endswith_split (c : N) (s : str) : endswith c s = true -> exists s0, s = s0 ++ [c].
Proof.
  unfold endswith. destruct (last s) as [x|] eqn:E; [|discriminate].
  intros Hx. apply N.eqb_eq in Hx. subst x. apply last_Some in E. exact E.
Qed.

(** Joining a directory and a name without separator gives a path whose
    base name is that name. *)
Lemma basename_join (dir name : str) : 47%N ∉ name -> basename (join dir name) = name.
Proof.
  intros H. unfold join.
  assert (startswith 47 name = false) as ->.
  { destruct name as [|x name]; [reflexivity|]. simpl.
    apply not_elem_of_cons in H as [Hx _]. apply N.eqb_neq. congruence. }
  destruct dir as [|x dir]; [simpl; apply basename_absent, H|].
  cbn [is_nil orb]. destruct (endswith 47 (x :: dir)) eqn:E.
  - apply endswith_split in E as [s0 ->]. rewrite <- app_assoc. apply basename_last, H.
  - apply (basename_last (x :: dir) name H).
Qed.

(** The stamped name is longer than the base name and has no separator. *)
Lemma stamped_name (stamp base : str) :
  47%N ∉ stamp -> 47%N ∉ base ->
  let root := fst (splitext base) in
  let ext := snd (splitext base) in
  let ext' := if is_nil ext then lit ".csv" else ext in
  (47%N ∉ root ++ lit "_" ++ stamp ++ ext')
  /\ length base < length (root ++ lit "_" ++ stamp ++ ext').
Proof.
  intros Hs Hb root ext ext'. pose proof (splitext_parts base) as Hp. fold root ext in Hp.
  assert (Hroot : 47%N ∉ root).
  { intros H. apply Hb. rewrite <- Hp. apply elem_of_app. left. exact H. }
  assert (Hext : 47%N ∉ ext).
  { intros H. apply Hb. rewrite <- Hp. apply elem_of_app. right. exact H. }
  assert (Hext' : (47%N ∉ ext') /\ length ext <= length ext').
  { unfold ext'. destruct ext as [|c e]; simpl; [|split; [exact Hext|lia]].
    split; [|lia]. apply (bool_decide_unpack _). vm_compute. exact I. }
  split.
  - rewrite !not_elem_of_app. repeat split; try tauto.
    apply (bool_decide_unpack _). vm_compute. exact I.
  - rewrite <- Hp. rewrite !length_app. change (length (lit "_")) with 1. lia.
Qed.

Lemma resolve_stamped (d : disk) (stamp path : str) :
  exists_nonempty d path = false -> 47%N ∉ stamp ->
  snd (AppendCli.resolve_stamped_path d stamp path true) = true
  /\ fst (AppendCli.resolve_stamped_path d stamp path true) <> path
  /\ (47%N ∉ basename (fst (AppendCli.resolve_stamped_path d stamp path true)))
  /\ length (basename path)
     < length (basename (fst (AppendCli.resolve_stamped_path d stamp path true))).
Proof.
  intros Hex Hs. unfold AppendCli.resolve_stamped_path. rewrite Hex. cbn [negb orb].
  destruct (basename_spec path) as [Hb _].
  pose proof (stamped_name stamp (basename path) Hs Hb) as [Hn Hl].
  destruct (splitext (basename path)) as [root ext]. cbn [fst snd] in *.
  rewrite basename_join by exact Hn.
  split; [reflexivity|]. split; [|split; [exact Hn|exact Hl]].
  intros E. apply (f_equal basename) in E. rewrite basename_join in E by exact Hn.
  rewrite <- E in Hl. lia.
Qed.

End paths.

(** X22: when stamping is on and the requested file is missing or empty,
    [resolve_stamped_path] returns a path other than the requested one,
    whose base name has no separator and is longer than the requested
    base name; the time stamp has no "/". *)
Theorem resolve_stamped_path_fresh (d : disk) (stamp path : str) :
  exists_nonempty d path = false -> 47%N ∉ stamp ->
  let resolved := fst (AppendCli.resolve_stamped_path d stamp path true) in
  snd (AppendCli.resolve_stamped_path d stamp path true) = true
  /\ resolved <> path
  /\ (47%N ∉ Posixpath.basename resolved)
  /\ length (Posixpath.basename path) < length (Posixpath.basename resolved).
Proof. intros Hex Hs. apply resolve_stamped; assumption. Qed.

(** X23: with stamping on, a run for a requested file that is missing or
    empty leaves the requested path as it was: the row goes to the
    stamped file. *)
Theorem stamped_run_leaves_requested `{UnicodeData} (a : Append.args) (file now stamp : str)
    (d : disk) :
  exists_nonempty d file = false -> 47%N ∉ stamp ->
  snd (AppendCli.main a file true now stamp d) !! file = d !! file.
Proof.
  intros Hex Hs. unfold AppendCli.main.
  destruct (resolve_stamped d stamp file Hex Hs) as (_ & Hne & _).
  destruct (AppendCli.resolve_stamped_path d stamp file true) as [csv_path stamped].
  cbn [fst] in Hne. unfold Append.main.
  destruct (Append.row_of_args a now) as [r| |]; [|reflexivity..].
  cbn [snd]. rewrite store_content. apply lookup_insert_ne. congruence.
Qed.

(** X24: hence the guard does not see a row appended with stamping on to a
    file that is missing or empty: run on the requested path, it gives the
    verdict it gave before the row was appended. *)
Theorem stamped_run_unseen_by_guard `{UnicodeData} (aa : Append.args) (now stamp : str)
    (ga : Guard.args) (d : disk) :
  exists_nonempty d (Guard.file ga) = false -> 47%N ∉ stamp ->
  Guard.main ga (snd (AppendCli.main aa (Guard.file ga) true now stamp d)) = Guard.main ga d.
Proof.
  intros Hex Hs.
  assert (E : snd (AppendCli.main aa (Guard.file ga) true now stamp d) !! Guard.file ga
              = d !! Guard.file ga).
  { unfold AppendCli.main.
    destruct (resolve_stamped d stamp (Guard.file ga) Hex Hs) as (_ & Hne & _).
    destruct (AppendCli.resolve_stamped_path d stamp (Guard.file ga) true) as [csv_path stamped].
    cbn [fst] in Hne. unfold Append.main.
    destruct (Append.row_of_args aa now) as [r| |]; [|reflexivity..].
    cbn [snd]. rewrite store_content. apply lookup_insert_ne. congruence. }
  unfold Guard.main. rewrite E. reflexivity.
Qed.

(** ** The further properties on example data *)

Lemma parse_pairs_record_witness :
  let pairs := [lit "text=hi"; lit "score=7"] in
  NoDup (keys scored_row)
  /\ (forall k, k ∈ keys scored_row <-> exists raw, raw ∈ pairs /\ pair_key raw = k)
  /\ (forall k, k ∈ keys scored_row -> k <> [])
  /\ (forall k, dict_lookup scored_row k
               = (fun raw => Some (pair_value raw))
                   <$> last (filter (fun raw => pair_key raw = k) pairs)).
Proof.
  apply (parse_pairs_record [lit "text=hi"; lit "score=7"] scored_row). reflexivity.
Defined.

Lemma parse_pairs_snoc_witness :
  let data := [(lit "text", Some (lit "hi"))] in
  let raw := lit "score=7" in
  Append.parse_pairs ([lit "text=hi"] ++ [raw])
  = Append.Parsed (dict_set data (pair_key raw) (Some (pair_value raw)))
  /\ keys (dict_set data (pair_key raw) (Some (pair_value raw)))
     = if bool_decide (pair_key raw ∈ keys data) then keys data
       else keys data ++ [pair_key raw].
Proof.
  apply (parse_pairs_snoc [lit "text=hi"] [(lit "text", Some (lit "hi"))] (lit "score=7"));
    reflexivity.
Defined.

Lemma main_other_files_witness :
  snd (Append.main (append_args [lit "text=hi"]) [] data_csv short_disk) !! lit "other.csv"
  = short_disk !! lit "other.csv".
Proof.
  apply (main_other_files (append_args [lit "text=hi"]) [] data_csv short_disk (lit "other.csv")).
  by_computation.
Defined.


Lemma rewrite_pads_and_truncates_witness :
  dict_to_list [lit "text"; lit "label"]
    (out_row [lit "text"; lit "label"] (read_row [lit "text"; lit "label"] [lit "hi"]))
  = take 2 [lit "hi"] ++ replicate (2 - 1) [].
Proof.
  apply (rewrite_pads_and_truncates [lit "text"; lit "label"] [lit "hi"]). by_computation.
Defined.

Lemma rejected_evidence_witness :
  let a := Guard.default_args [lit "text=the cat sat on the mat"] data_csv text_col in
  let pr := lit "the cat sat on the mat" in
  let ex := lit "The cat sat on the mat." in
  exists f,
    cats_disk !! Guard.file a = Some f
    /\ Guard.check_col a ∈ fieldnames_or_nil f
    /\ dict_get (Guard.parse_pairs (Guard.pairs a)) (Guard.check_col a) None = Some pr
    /\ pr <> []
    /\ Guard.below_min_length a (Guard.norm a pr) = false
    /\ existing_values a f !! 0 = Some ex
    /\ too_similar a pr ex
    /\ (forall j v, j < 0 -> existing_values a f !! j = Some v -> ~ too_similar a pr v)
    /\ 1%Q = Guard.difflib_similarity (Guard.norm a pr) (Guard.norm a ex)
    /\ 1%Q = Guard.jaccard_similarity (tokenize (Guard.norm a pr)) (tokenize (Guard.norm a ex)).
Proof.
  apply (rejected_evidence
           (Guard.default_args [lit "text=the cat sat on the mat"] data_csv text_col)
           cats_disk 0 1%Q 1%Q (lit "The cat sat on the mat.") (lit "the cat sat on the mat")).
  vm_compute. reflexivity.
Defined.

Lemma rejection_stable_witness :
  let a := Guard.default_args [lit "text=the cat sat on the mat"] data_csv text_col in
  Guard.main a (<[Guard.file a := cats_file ++ [[lit "A dog."; lit "c"]]]> cats_disk)
  = Guard.Rejected 0 1%Q 1%Q (lit "The cat sat on the mat.") (lit "the cat sat on the mat").
Proof.
  apply (rejection_stable
           (Guard.default_args [lit "text=the cat sat on the mat"] data_csv text_col)
           cats_disk cats_file [[lit "A dog."; lit "c"]]).
  - reflexivity.
  - vm_compute. reflexivity.
Defined.

Lemma normalize_text_masks_digits_witness : 48%N = 48%N.
Proof.
  apply (normalize_text_masks_digits (Some (lit "Call 555 now")) 48%N).
  - reflexivity.
  - by_computation.
  - reflexivity.
Defined.

Lemma tokenize_normalized_join_witness :
  join (lit " ") (tokenize (normalize_text (Some (lit " Hello,  World! 42 "))))
  = normalize_text (Some (lit " Hello,  World! 42 ")).
Proof.
  apply (tokenize_normalized_join (Some (lit " Hello,  World! 42 "))). reflexivity.
Defined.

Lemma thresholds_of_one_reject_nothing_witness :
  Guard.main (strict_args [lit "text=The cat sat on the mat."]) cats_disk
  <> Guard.Rejected 0 1%Q 1%Q (lit "The cat sat on the mat.") (lit "The cat sat on the mat.").
Proof.
  apply (thresholds_of_one_reject_nothing (strict_args [lit "text=The cat sat on the mat."])
           cats_disk 0 1%Q 1%Q).
  - vm_compute. discriminate.
  - vm_compute. discriminate.
Defined.

Lemma resolve_stamped_path_fresh_witness :
  let resolved := fst (AppendCli.resolve_stamped_path ∅ new_year (lit "out/data.csv") true) in
  snd (AppendCli.resolve_stamped_path ∅ new_year (lit "out/data.csv") true) = true
  /\ resolved <> lit "out/data.csv"
  /\ (47%N ∉ Posixpath.basename resolved)
  /\ length (Posixpath.basename (lit "out/data.csv")) < length (Posixpath.basename resolved).
Proof.
  apply (resolve_stamped_path_fresh ∅ new_year (lit "out/data.csv")).
  - reflexivity.
  - by_computation.
Defined.

Lemma stamped_run_leaves_requested_witness :
  snd (AppendCli.main (append_args [lit "text=hi"]) data_csv true [] new_year ∅) !! data_csv
  = (∅ : disk) !! data_csv.
Proof.
  apply (stamped_run_leaves_requested (append_args [lit "text=hi"]) data_csv [] new_year ∅).
  - reflexivity.
  - by_computation.
Defined.

Lemma stamped_run_unseen_by_guard_witness :
  let ga := Guard.default_args [lit "text=hi"] data_csv text_col in
  Guard.main ga (snd (AppendCli.main (append_args [lit "text=hi"]) (Guard.file ga) true []
                        new_year ∅))
  = Guard.main ga ∅.
Proof.
  apply (stamped_run_unseen_by_guard (append_args [lit "text=hi"]) [] new_year
           (Guard.default_args [lit "text=hi"] data_csv text_col) ∅).
  - reflexivity.
  - by_computation.
Defined.

(** * The text of the store *)

(** ** What the reader makes of what the writer wrote *)

Section codec.
Import CsvText.

Lemma special_false (c : N) :
  special c = false -> (c =? 44)%N = false /\ (c =? 34)%N = false
                       /\ (c =? 13)%N = false /\ (c =? 10)%N = false.
Proof.
  unfold special. intros H.
  apply orb_false_elim in H as [H H10]. apply orb_false_elim in H as [H H13].
  apply orb_false_elim in H as [H44 H34]. tauto.
Qed.

Lemma read_text_cons (c : N) (rest : str) (r : reader) :
  read_text (c :: rest) r
  = match parse_process_char (parser_of r) (Some c) with
    | None => None
    | Some p =>
        if ends_line c rest then
          match end_of_line p (records r) with
          | None => None
          | Some r' => read_text rest r'
          end
        else read_text rest (Reader p true (records r))
    end.
Proof. reflexivity. Qed.

Lemma read_step (c : N) (rest : str) (r : reader) (p : parser) :
  parse_process_char (parser_of r) (Some c) = Some p ->
  ends_line c rest = false ->
  read_text (c :: rest) r = read_text rest (Reader p true (records r)).
Proof. intros Hp He. rewrite read_text_cons, Hp, He. reflexivity. Qed.

Lemma short_nil : short [] = true.
Proof. reflexivity. Qed.

Lemma short_app_lt (cur : str) (c : N) (s : str) :
  short (cur ++ c :: s) = true -> (N.of_nat (length cur) < field_limit)%N.
Proof.
  unfold short. intros H. apply N.leb_le in H. rewrite length_app in H. simpl in H. lia.
Qed.

Lemma add_char_some (st0 : pstate) (cur : str) (fs : record) (c : N) :
  (N.of_nat (length cur) < field_limit)%N ->
  parse_add_char (Parser st0 cur fs) c = Some (Parser st0 (cur ++ [c]) fs).
Proof.
  intros H. unfold parse_add_char. cbn [field state fields].
  rewrite (proj2 (N.leb_gt _ _) H). reflexivity.
Qed.

(** Characters of an unquoted field. *)
Lemma read_plain (s rest : str) (cur : str) (fs : record) (out : file) :
  needs_quotes s = false -> short (cur ++ s) = true ->
  read_text (s ++ rest) (Reader (Parser IN_FIELD cur fs) true out)
  = read_text rest (Reader (Parser IN_FIELD (cur ++ s) fs) true out).
Proof.
  revert cur. induction s as [|c s IH]; intros cur Hs Hlen.
  - rewrite app_nil_r. reflexivity.
  - simpl in Hs. apply orb_false_elim in Hs as [Hc Hs].
    destruct (special_false c Hc) as (H44 & H34 & H13 & H10).
    cbn [app]. rewrite (read_step c _ _ (Parser IN_FIELD (cur ++ [c]) fs)).
    + cbn [records]. rewrite IH; rewrite <- ?app_assoc; [reflexivity|exact Hs|exact Hlen].
    + unfold parse_process_char. cbn [parser_of state is_newline].
      rewrite H10, H13, H44. cbn [orb]. apply add_char_some, (short_app_lt cur c s Hlen).
    + unfold ends_line. rewrite H10, H13. reflexivity.
Qed.

(** The first character of an unquoted field, at the start of a field
    or of a record. *)
Lemma read_plain_first (c : N) (s rest : str) (st0 : pstate) (fs : record)
    (mid : bool) (out : file) :
  st0 = START_FIELD \/ st0 = START_RECORD ->
  needs_quotes (c :: s) = false -> short (c :: s) = true ->
  read_text ((c :: s) ++ rest) (Reader (Parser st0 [] fs) mid out)
  = read_text rest (Reader (Parser IN_FIELD (c :: s) fs) true out).
Proof.
  intros Hst Hs Hlen. simpl in Hs. apply orb_false_elim in Hs as [Hc Hs].
  destruct (special_false c Hc) as (H44 & H34 & H13 & H10).
  cbn [app]. rewrite (read_step c _ _ (Parser IN_FIELD [c] fs)).
  - cbn [records]. rewrite read_plain; [reflexivity|exact Hs|exact Hlen].
  - assert (E : start_field (Parser START_FIELD [] fs) (Some c)
                = Some (Parser IN_FIELD [c] fs)).
    { unfold start_field. cbn [is_newline]. rewrite H10, H13, H34, H44. reflexivity. }
    destruct Hst as [-> | ->]; unfold parse_process_char; cbn [parser_of state is_newline].
    + exact E.
    + rewrite H10, H13. exact E.
  - unfold ends_line. rewrite H10, H13. reflexivity.
Qed.

(** The text of a quoted field after the opening quote, up to and with
    the closing quote. *)
Lemma read_quoted (s rest : str) (cur : str) (fs : record) (mid : bool) (out : file) :
  short (cur ++ s) = true ->
  read_text (escape s ++ 34%N :: rest) (Reader (Parser IN_QUOTED_FIELD cur fs) mid out)
  = read_text rest (Reader (Parser QUOTE_IN_QUOTED_FIELD (cur ++ s) fs) true out).
Proof.
  revert cur mid. induction s as [|c s IH]; intros cur mid Hlen.
  - rewrite app_nil_r. reflexivity.
  - pose proof (short_app_lt cur c s Hlen) as Hlt.
    assert (Hlen' : short ((cur ++ [c]) ++ s) = true) by (rewrite <- app_assoc; exact Hlen).
    cbn [escape]. destruct (N.eqb_spec c 34) as [->|Hc].
    + cbn [app].
      rewrite (read_step 34 _ _ (Parser QUOTE_IN_QUOTED_FIELD cur fs)) by reflexivity.
      rewrite (read_step 34 _ _ (Parser IN_QUOTED_FIELD (cur ++ [34%N]) fs)).
      * cbn [records]. rewrite IH by exact Hlen'. rewrite <- app_assoc. reflexivity.
      * unfold parse_process_char. cbn [parser_of state N.eqb Pos.eqb].
        rewrite (add_char_some _ cur fs 34 Hlt). reflexivity.
      * reflexivity.
    + cbn [app]. rewrite read_text_cons. unfold parse_process_char.
      cbn [parser_of state]. rewrite (proj2 (N.eqb_neq c 34) Hc).
      rewrite (add_char_some _ cur fs c Hlt). cbn [records].
      destruct (ends_line c (escape s ++ 34%N :: rest)).
      * unfold end_of_line, parse_process_char. cbn [state].
        rewrite bool_decide_eq_false_2 by discriminate.
        rewrite IH by exact Hlen'. rewrite <- app_assoc. reflexivity.
      * rewrite IH by exact Hlen'. rewrite <- app_assoc. reflexivity.
Qed.

Lemma format_field_nil (f : str) : format_field f = [] -> f = [].
Proof.
  unfold format_field. destruct (needs_quotes f); [discriminate|]. auto.
Qed.

(** A field and the delimiter after it. *)
Lemma read_field_comma (f rest : str) (st0 : pstate) (fs : record) (mid : bool) (out : file) :
  st0 = START_FIELD \/ st0 = START_RECORD ->
  short f = true ->
  read_text (format_field f ++ 44%N :: rest) (Reader (Parser st0 [] fs) mid out)
  = read_text rest (Reader (Parser START_FIELD [] (fs ++ [f])) true out).
Proof.
  intros Hst Hlen. unfold format_field. destruct (needs_quotes f) eqn:Hq.
  - cbn [app]. rewrite (read_step 34 _ _ (Parser IN_QUOTED_FIELD [] fs)).
    + cbn [records]. rewrite <- app_assoc. cbn [app].
      rewrite read_quoted by exact Hlen. reflexivity.
    + destruct Hst as [-> | ->]; reflexivity.
    + reflexivity.
  - destruct f as [|c s].
    + cbn [app]. rewrite read_text_cons.
      destruct Hst as [-> | ->]; reflexivity.
    + rewrite (read_plain_first c s _ st0 fs mid out Hst Hq Hlen). reflexivity.
Qed.

(** The last field of a record and the line terminator. *)
Lemma read_field_last (f rest : str) (st0 : pstate) (fs : record) (mid : bool) (out : file) :
  st0 = START_FIELD \/ (st0 = START_RECORD /\ format_field f <> []) ->
  short f = true ->
  read_text (format_field f ++ 13%N :: 10%N :: rest) (Reader (Parser st0 [] fs) mid out)
  = read_text rest (Reader parse_reset false (out ++ [fs ++ [f]])).
Proof.
  intros Hst Hlen. unfold format_field in *. destruct (needs_quotes f) eqn:Hq.
  - cbn [app]. rewrite (read_step 34 _ _ (Parser IN_QUOTED_FIELD [] fs)).
    + cbn [records]. rewrite <- app_assoc. cbn [app].
      rewrite read_quoted by exact Hlen. reflexivity.
    + destruct Hst as [-> | [-> _]]; reflexivity.
    + reflexivity.
  - destruct f as [|c s].
    + destruct Hst as [-> | [_ Hne]]; [reflexivity|contradiction].
    + assert (Hst' : st0 = START_FIELD \/ st0 = START_RECORD) by tauto.
      rewrite (read_plain_first c s _ st0 fs mid out Hst' Hq Hlen). reflexivity.
Qed.

Lemma read_fields (f : str) (more : record) (rest : str) (acc : record)
    (mid : bool) (out : file) :
  record_short (f :: more) ->
  read_text (format_fields (f :: more) ++ 13%N :: 10%N :: rest)
            (Reader (Parser START_FIELD [] acc) mid out)
  = read_text rest (Reader parse_reset false (out ++ [acc ++ f :: more])).
Proof.
  revert f acc mid. induction more as [|g more IH]; intros f acc mid Hlen;
    apply Forall_cons in Hlen as [Hf Hmore].
  - cbn [format_fields]. apply read_field_last; [left; reflexivity|exact Hf].
  - change (format_fields (f :: g :: more))
      with (format_field f ++ [44%N] ++ format_fields (g :: more)).
    rewrite <- !app_assoc. cbn [app].
    rewrite read_field_comma by (try exact Hf; left; reflexivity).
    rewrite IH by exact Hmore. rewrite <- app_assoc. reflexivity.
Qed.

(** A record written by the writer is read back as it was, and the
    reader is at the start of a record again. *)
Lemma read_format_row (rec : record) (rest : str) (out : file) :
  record_short rec ->
  read_text (format_row rec ++ rest) (Reader parse_reset false out)
  = read_text rest (Reader parse_reset false (out ++ [rec])).
Proof.
  intros Hlen. unfold format_row. destruct rec as [|f more]; [reflexivity|].
  cbn [is_blank]. pose proof Hlen as Hlen0. apply Forall_cons in Hlen as [Hf Hmore].
  destruct more as [|g more].
  - cbn [format_fields]. destruct (bool_decide_reflect (format_field f = [])) as [E|E].
    + apply format_field_nil in E. subst f. reflexivity.
    + rewrite <- app_assoc. cbn [app]. unfold parse_reset.
      apply (read_field_last f rest START_RECORD [] false out); [right; auto|exact Hf].
  - rewrite bool_decide_eq_false_2.
    + change (format_fields (f :: g :: more))
        with (format_field f ++ [44%N] ++ format_fields (g :: more)).
      rewrite <- !app_assoc. cbn [app]. unfold parse_reset.
      rewrite read_field_comma by (try exact Hf; right; reflexivity).
      apply (read_fields g more rest [f] true out Hmore).
    + change (format_fields (f :: g :: more))
        with (format_field f ++ [44%N] ++ format_fields (g :: more)).
      intros E. apply app_eq_nil in E as [_ E]. discriminate E.
Qed.

Lemma ends_line_app (c : N) (t1 t2 : str) :
  head t2 <> Some 10%N -> ends_line c (t1 ++ t2) = ends_line c t1.
Proof.
  intros H. destruct t1 as [|x t1]; [|reflexivity].
  unfold ends_line. destruct t2 as [|y t2]; [reflexivity|]. simpl in *.
  destruct (N.eqb_spec y 10) as [->|_]; [contradiction|]. reflexivity.
Qed.

(** Reading goes on in a text that is added, unless the addition starts
    with a line feed (which could complete a CR LF). *)
Lemma read_text_app (t1 t2 : str) (r : reader) :
  head t2 <> Some 10%N ->
  read_text (t1 ++ t2) r
  = match read_text t1 r with
    | Some r' => read_text t2 r'
    | None => None
    end.
Proof.
  intros H. revert r. induction t1 as [|c t1 IH]; intros r; [reflexivity|].
  cbn [app]. rewrite !read_text_cons, (ends_line_app c t1 t2 H).
  destruct (parse_process_char (parser_of r) (Some c)) as [p|]; [|reflexivity].
  destruct (ends_line c t1); [|apply IH].
  destruct (end_of_line p (records r)) as [r'|]; [apply IH|reflexivity].
Qed.

Lemma format_field_head (f : str) : head (format_field f) <> Some 10%N.
Proof.
  unfold format_field. destruct (needs_quotes f) eqn:Hq; [discriminate|].
  destruct f as [|c s]; [discriminate|]. simpl in *.
  apply orb_false_elim in Hq as [Hc _].
  destruct (special_false c Hc) as (_ & _ & _ & H10).
  intros [= ->]. discriminate.
Qed.

Lemma format_row_head (rec : record) : head (format_row rec) <> Some 10%N.
Proof.
  unfold format_row. destruct rec as [|f more]; [discriminate|]. cbn [is_blank].
  destruct (bool_decide_reflect (format_fields (f :: more) = [])) as [E|E]; [discriminate|].
  destruct more as [|g more].
  - cbn [format_fields] in *. pose proof (format_field_head f) as H.
    destruct (format_field f); [contradiction|exact H].
  - change (format_fields (f :: g :: more))
      with (format_field f ++ [44%N] ++ format_fields (g :: more)).
    pose proof (format_field_head f) as H.
    destruct (format_field f); [discriminate|exact H].
Qed.

Lemma ends_record_spec (t : str) :
  ends_record t = true
  <-> exists out, read_text t reader_start = Some (Reader parse_reset false out).
Proof.
  unfold ends_record. split.
  - destruct (read_text t reader_start) as [[[[] [|] [|]] [|] out]|]; try discriminate.
    eauto.
  - intros [out ->]. reflexivity.
Qed.

Lemma ends_record_records (t : str) (out : file) :
  read_text t reader_start = Some (Reader parse_reset false out) ->
  read_records t = Some out.
Proof. intros H. unfold read_records. rewrite H. reflexivity. Qed.

(** A record written after a text that ends where a record ends. *)
Lemma read_text_format_row (t : str) (rec : record) (out : file) :
  record_short rec ->
  read_text t reader_start = Some (Reader parse_reset false out) ->
  read_text (t ++ format_row rec) reader_start
  = Some (Reader parse_reset false (out ++ [rec])).
Proof.
  intros Hlen H. rewrite read_text_app by apply format_row_head. rewrite H.
  rewrite <- (app_nil_r (format_row rec)). rewrite read_format_row by exact Hlen. reflexivity.
Qed.

(** After a character the reader has returned a record, or is within a
    line, or within a quoted field. *)
Lemma end_of_line_progress (p : parser) (out : file) (r : reader) :
  end_of_line p out = Some r ->
  records r <> [] \/ state (parser_of r) = IN_QUOTED_FIELD.
Proof.
  unfold end_of_line.
  destruct (parse_process_char p None) as [p'|] eqn:E; [|discriminate].
  destruct (bool_decide_reflect (state p' = START_RECORD)) as [Hs|Hs]; intros [= <-]; simpl.
  - left. intros H. apply app_eq_nil in H as [_ H]. discriminate.
  - right. unfold parse_process_char in E.
    destruct p as [[] cur fs]; simpl in E; injection E as <-; simpl in *;
      try reflexivity; contradiction.
Qed.

Lemma read_text_progress (c : N) (t : str) (r r' : reader) :
  read_text (c :: t) r = Some r' ->
  records r' <> [] \/ midline r' = true \/ state (parser_of r') = IN_QUOTED_FIELD.
Proof.
  revert c r. induction t as [|c' t IH]; intros c r.
  - rewrite read_text_cons.
    destruct (parse_process_char (parser_of r) (Some c)) as [p|]; [|discriminate].
    destruct (ends_line c []).
    + destruct (end_of_line p (records r)) as [r1|] eqn:E; [|discriminate].
      intros [= <-]. destruct (end_of_line_progress _ _ _ E); tauto.
    + intros [= <-]. right. left. reflexivity.
  - rewrite read_text_cons.
    destruct (parse_process_char (parser_of r) (Some c)) as [p|]; [|discriminate].
    destruct (ends_line c (c' :: t)).
    + destruct (end_of_line p (records r)) as [r1|]; [|discriminate]. apply IH.
    + apply IH.
Qed.

(** A text that ends where a record ends is empty exactly when it has
    no record. *)
Lemma ends_record_nonempty (t : str) (out : file) :
  read_text t reader_start = Some (Reader parse_reset false out) ->
  (t = [] <-> out = []).
Proof.
  intros H. destruct t as [|c t].
  - injection H as <-. tauto.
  - apply read_text_progress in H as [H|[H|H]]; simpl in H; [|discriminate..].
    split; [discriminate|contradiction].
Qed.

(** *** The cells the reader returns are within the limit *)

Lemma add_char_short (p p' : parser) (c : N) :
  parser_short p -> parse_add_char p c = Some p' ->
  parser_short p' /\ state p' = state p.
Proof.
  intros [Hf Hfs]. unfold parse_add_char.
  destruct (N.leb_spec field_limit (N.of_nat (length (field p)))) as [|Hlt]; [discriminate|].
  intros [= <-]. split; [|reflexivity]. split; [|exact Hfs]. cbn [field].
  unfold short. apply N.leb_le. rewrite length_app. simpl. lia.
Qed.

Lemma save_field_short (p : parser) : parser_short p -> parser_short (parse_save_field p).
Proof.
  intros [Hf Hfs]. split; [reflexivity|]. cbn [parse_save_field fields].
  apply Forall_app. split; [exact Hfs|]. apply Forall_cons. split; [exact Hf|apply Forall_nil_2].
Qed.

Lemma set_state_short (s : pstate) (p : parser) : parser_short p -> parser_short (set_state s p).
Proof. intros H. exact H. Qed.

Local Ltac parser_short_tac :=
  repeat match goal with
         | |- parser_short (parse_save_field _) => apply save_field_short
         | |- parser_short (set_state _ _) => apply set_state_short
         end;
  try assumption.

Lemma process_char_short (p p' : parser) (c : option N) :
  parser_short p -> parse_process_char p c = Some p' -> parser_short p'.
Proof.
  intros Hp. unfold parse_process_char, start_field, end_of_field.
  destruct (state p); destruct c as [x|]; cbn [is_newline];
    repeat match goal with
           | |- context [if ?b then _ else _] => destruct b
           end;
    intros E;
    first
      [ discriminate E
      | injection E as <-; parser_short_tac
      | destruct (parse_add_char _ x) as [q|] eqn:Ea in E; [|discriminate E];
        cbn in E; injection E as <-; parser_short_tac;
        eapply add_char_short; [|exact Ea]; parser_short_tac
      | eapply add_char_short; [|exact E]; parser_short_tac ].
Qed.

Lemma end_of_line_short (p : parser) (out : file) (r : reader) :
  parser_short p -> Forall record_short out -> end_of_line p out = Some r -> reader_short r.
Proof.
  intros Hp Hout. unfold end_of_line.
  destruct (parse_process_char p None) as [p'|] eqn:E; [|discriminate].
  pose proof (process_char_short p p' None Hp E) as Hp'.
  destruct (bool_decide (state p' = START_RECORD)); intros [= <-]; split; cbn.
  - split; [reflexivity|apply Forall_nil_2].
  - apply Forall_app. split; [exact Hout|].
    apply Forall_cons. split; [apply Hp'|apply Forall_nil_2].
  - exact Hp'.
  - exact Hout.
Qed.

Lemma read_text_short (t : str) (r r' : reader) :
  reader_short r -> read_text t r = Some r' -> reader_short r'.
Proof.
  revert r. induction t as [|c t IH]; intros r Hr; [intros [= <-]; exact Hr|].
  rewrite read_text_cons. destruct Hr as [Hp Hout].
  destruct (parse_process_char (parser_of r) (Some c)) as [p|] eqn:E; [|discriminate].
  pose proof (process_char_short _ _ _ Hp E) as Hp'.
  destruct (ends_line c t).
  - destruct (end_of_line p (records r)) as [r1|] eqn:E1; [|discriminate].
    apply IH. eapply end_of_line_short; eassumption.
  - apply IH. split; assumption.
Qed.

Lemma read_records_short (t : str) (f : file) :
  read_records t = Some f -> Forall record_short f.
Proof.
  unfold read_records. destruct (read_text t reader_start) as [r|] eqn:E; [|discriminate].
  assert (Hr : reader_short r).
  { eapply read_text_short; [|exact E]. split; [split; [reflexivity|apply Forall_nil_2]|].
    apply Forall_nil_2. }
  unfold end_of_file.
  destruct (if midline r then end_of_line (parser_of r) (records r) else Some r) as [r'|] eqn:E';
    [|discriminate].
  assert (Hr' : reader_short r').
  { destruct (midline r); [|injection E' as <-; exact Hr].
    destruct Hr. eapply end_of_line_short; eassumption. }
  destruct Hr' as [Hp Hout].
  destruct (_ || _); intros [= <-]; [|exact Hout].
  apply Forall_app. split; [exact Hout|].
  apply Forall_cons. split; [apply (save_field_short _ Hp)|apply Forall_nil_2].
Qed.

(** *** The operations on the text and on the records *)

Lemma records_of_clean (t : str) (out : file) :
  read_text t reader_start = Some (Reader parse_reset false out) -> records_of t = out.
Proof. intros H. unfold records_of. rewrite (ends_record_records t out H). reflexivity. Qed.

Lemma disk_of_lookup (td : tdisk) (p : str) :
  default [] (disk_of td !! p) = records_of (default [] (td !! p)).
Proof.
  unfold disk_of. rewrite lookup_fmap. destruct (td !! p); reflexivity.
Qed.

Lemma write_op_refines (p : str) (op : fop) (td : tdisk) :
  target op = p -> op_short op ->
  ends_record (default [] (td !! p)) = true ->
  disk_of (write_op td op) = run_op (disk_of td) op
  /\ ends_record (default [] (write_op td op !! p)) = true.
Proof.
  intros Ht Hs Hc. apply ends_record_spec in Hc as [out Hout].
  destruct op as [q|q|q rec|q]; simpl in Ht; subst q; simpl.
  - rewrite lookup_insert_eq. split; [|reflexivity].
    unfold disk_of. rewrite fmap_insert. reflexivity.
  - rewrite lookup_insert_eq. split.
    + unfold disk_of at 1. rewrite fmap_insert. f_equal. symmetry. apply disk_of_lookup.
    + apply ends_record_spec. eauto.
  - rewrite lookup_insert_eq. split.
    + unfold disk_of at 1. rewrite fmap_insert. f_equal.
      rewrite disk_of_lookup, (records_of_clean _ _ Hout).
      apply records_of_clean, read_text_format_row; [exact Hs|exact Hout].
    + apply ends_record_spec. eexists. apply read_text_format_row; [exact Hs|exact Hout].
  - split; [reflexivity|]. apply ends_record_spec. eauto.
Qed.

Lemma write_refines (p : str) (ops : list fop) (td : tdisk) :
  Forall (fun op => target op = p) ops ->
  Forall op_short ops ->
  ends_record (default [] (td !! p)) = true ->
  disk_of (write td ops) = run (disk_of td) ops
  /\ ends_record (default [] (write td ops !! p)) = true.
Proof.
  revert td. induction ops as [|op ops IH]; intros td Hall Hs Hc;
    [split; [reflexivity|exact Hc]|].
  apply Forall_cons in Hall as [Hop Hall]. apply Forall_cons in Hs as [Hsop Hs].
  destruct (write_op_refines p op td Hop Hsop Hc) as [E Hc'].
  unfold write, run. cbn [foldl]. rewrite <- E. apply IH; assumption.
Qed.

End codec.

(** ** [main] on the text and on the records *)

Section text_main.
Context {U : UnicodeData}.
Import CsvText.

Lemma store_ops_target (d : disk) (p : str) (r : row) :
  Forall (fun op => target op = p) (Append.store_ops d p r).
Proof.
  unfold Append.store_ops, Append.write_full_csv_ops, Append.append_row_same_schema_ops.
  destruct (Csv.exists_nonempty d p).
  - destruct (Append.read_existing_csv d p) as [cols rows].
    destruct (Append.new_cols r cols).
    + repeat (apply Forall_cons; split; [reflexivity|]). apply Forall_nil_2.
    + repeat first [ apply Forall_app; split
                   | apply Forall_cons; split; [reflexivity|]
                   | apply Forall_nil_2
                   | apply Forall_fmap, Forall_forall; intros; reflexivity ].
  - repeat first [ apply Forall_app; split
                 | apply Forall_cons; split; [reflexivity|]
                 | apply Forall_nil_2
                 | apply Forall_fmap, Forall_forall; intros; reflexivity ].
Qed.

Lemma dict_lookup_elem {V} (d : list (str * V)) (k : str) (v : V) :
  dict_lookup d k = Some v -> (k, v) ∈ d.
Proof.
  induction d as [|[k0 v0] d IH]; simpl; [discriminate|].
  destruct (bool_decide_reflect (k0 = k)) as [->|_].
  - intros [= ->]. left.
  - intros H. right. apply IH, H.
Qed.

Lemma row_short_lookup (r : row) (k : str) (v : pyval) :
  row_short r -> dict_lookup r k = Some v -> short (cell v) = true.
Proof.
  intros Hr H. apply dict_lookup_elem in H.
  apply (proj1 (Forall_forall _ _) Hr) in H. apply H.
Qed.

Lemma row_short_keys (r : row) (k : str) : row_short r -> k ∈ keys r -> short k = true.
Proof.
  intros Hr H. apply list_elem_of_fmap in H as [[k0 v] [-> H]].
  apply (proj1 (Forall_forall _ _) Hr) in H. apply H.
Qed.

Lemma read_row_lookup_short (names : list str) (rec : record) (k : str) (v : pyval) :
  record_short rec -> dict_lookup (read_row names rec) k = Some v -> short (cell v) = true.
Proof.
  intros Hrec. unfold read_row.
  rewrite (dict_lookup_foldl_set (fun key => key) (fun _ => None)).
  destruct (last (filter _ (drop (length rec) names))); [intros [= <-]; reflexivity|].
  unfold dict_zip. rewrite (dict_lookup_foldl_set fst snd).
  destruct (last (filter _ (zip names (map Some rec)))) as [[k0 v0]|] eqn:E; [|discriminate].
  intros [= <-]. apply last_filter_elem in E as [E _]. apply elem_of_zip_r in E.
  apply list_elem_of_fmap in E as [c [-> Hc]].
  apply (proj1 (Forall_forall _ _) Hrec c Hc).
Qed.

Lemma dict_to_list_short (names : list str) (r : row) :
  (forall k v, dict_lookup r k = Some v -> short (cell v) = true) ->
  record_short (dict_to_list names r).
Proof.
  intros H. unfold dict_to_list, record_short. apply Forall_fmap, Forall_forall.
  intros key _. simpl. unfold dict_get.
  destruct (dict_lookup r key) as [v|] eqn:E; [apply (H key v E)|reflexivity].
Qed.

(** The records [main] writes are within the limit when the row and the
    records of the store are. *)
Lemma store_ops_short (d : disk) (p : str) (r : row) :
  row_short r -> Forall record_short (default [] (d !! p)) ->
  Forall op_short (Append.store_ops d p r).
Proof.
  intros Hr Hold.
  assert (Hcols : record_short (fieldnames_or_nil (default [] (d !! p)))).
  { destruct (default [] (d !! p)) as [|h t]; [apply Forall_nil_2|].
    apply Forall_cons in Hold as [Hh _]. exact Hh. }
  assert (Hrow : forall cols, record_short (dict_to_list cols (out_row cols r))).
  { intros cols. rewrite dict_to_list_out_row. apply dict_to_list_short.
    intros k v. apply row_short_lookup, Hr. }
  assert (Hadded : forall cols, record_short (Append.new_cols r cols)).
  { intros cols. apply Forall_forall. intros k Hk. apply (row_short_keys r k Hr).
    unfold Append.new_cols in Hk. apply list_elem_of_filter in Hk. tauto. }
  assert (Hrows : forall cols row, row ∈ reader_rows (default [] (d !! p)) ->
            record_short (dict_to_list cols (out_row cols row))).
  { intros cols row Hin. rewrite dict_to_list_out_row. apply dict_to_list_short.
    unfold reader_rows in Hin. apply list_elem_of_fmap in Hin as [rec [-> Hrec]].
    intros k v. apply read_row_lookup_short.
    apply list_elem_of_filter in Hrec as [_ Hrec].
    destruct (default [] (d !! p)) as [|h t]; [inversion Hrec|].
    apply Forall_cons in Hold as [_ Ht]. apply (proj1 (Forall_forall _ _) Ht rec Hrec). }
  unfold Append.store_ops, Append.write_full_csv_ops, Append.append_row_same_schema_ops,
    Append.read_existing_csv.
  destruct (Csv.exists_nonempty d p).
  - destruct (Append.new_cols r (fieldnames_or_nil (default [] (d !! p)))) as [|c added] eqn:Ha.
    + repeat (apply Forall_cons; split; [first [exact I | apply Hrow]|]). apply Forall_nil_2.
    + assert (Hall : record_short (fieldnames_or_nil (default [] (d !! p)) ++ c :: added)).
      { apply Forall_app. split; [exact Hcols|]. rewrite <- Ha. apply Hadded. }
      apply Forall_app. split.
      * apply Forall_app. split.
        { apply Forall_cons. split; [exact I|]. apply Forall_cons. split; [|apply Forall_nil_2].
          simpl. rewrite dict_to_list_header. exact Hall. }
        apply Forall_app. split.
        { apply Forall_fmap, Forall_forall. intros row Hin. apply Hrows, Hin. }
        apply Forall_cons. split; [exact I|apply Forall_nil_2].
      * repeat (apply Forall_cons; split; [first [exact I | apply Hrow]|]). apply Forall_nil_2.
  - apply Forall_app. split.
    + apply Forall_app. split.
      { apply Forall_cons. split; [exact I|]. apply Forall_cons. split; [|apply Forall_nil_2].
        simpl. rewrite dict_to_list_header. apply Forall_forall. intros k Hk.
        apply (row_short_keys r k Hr Hk). }
      simpl. apply Forall_cons. split; [exact I|apply Forall_nil_2].
    + repeat (apply Forall_cons; split; [first [exact I | apply Hrow]|]). apply Forall_nil_2.
Qed.

Lemma write_app (td : tdisk) (l1 l2 : list fop) : write td (l1 ++ l2) = write (write td l1) l2.
Proof. apply foldl_app. Qed.

(** On a text that ends where a record ends, [main] performs the
    operations that the records of the text call for. *)
Lemma main_text_ops (a : Append.args) (now p : str) (td : tdisk) (r : row) :
  Append.row_of_args a now = Append.Parsed r ->
  ends_record (default [] (td !! p)) = true ->
  AppendText.main a now p td = (0%Z, write td (Append.store_ops (disk_of td) p r)).
Proof.
  intros Hrow Hc. apply ends_record_spec in Hc as [out Hout].
  pose proof (ends_record_nonempty _ _ Hout) as Hne.
  pose proof (disk_of_lookup td p) as Hd. rewrite (records_of_clean _ _ Hout) in Hd.
  unfold AppendText.main. rewrite Hrow.
  unfold Append.store_ops, AppendText.read_existing_csv, Append.read_existing_csv.
  rewrite Hd, (ends_record_records _ _ Hout).
  assert (Hex : exists_nonempty td p = Csv.exists_nonempty (disk_of td) p).
  { unfold exists_nonempty, Csv.exists_nonempty. clear Hout.
    unfold disk_of in *. rewrite lookup_fmap in *.
    destruct (td !! p) as [t|]; simpl in *; [|reflexivity]. subst out.
    destruct t as [|c t]; destruct (records_of _) as [|x f]; try reflexivity.
    - destruct Hne as [Hne _]. discriminate (Hne eq_refl).
    - destruct Hne as [_ Hne]. discriminate (Hne eq_refl). }
  rewrite Hex. destruct (Csv.exists_nonempty (disk_of td) p).
  - destruct (Append.new_cols r (fieldnames_or_nil out)); [reflexivity|].
    unfold AppendText.append_row_same_schema, AppendText.write_full_csv.
    rewrite write_app. reflexivity.
  - unfold AppendText.append_row_same_schema, AppendText.write_full_csv.
    rewrite write_app. reflexivity.
Qed.

(** The records of the store after [main] on the text are the records
    after [main] on the records, and the text ends where a record ends
    again. *)
Lemma main_refines (a : Append.args) (now p : str) (td : tdisk) (r : row) :
  Append.row_of_args a now = Append.Parsed r ->
  row_short r ->
  ends_record (default [] (td !! p)) = true ->
  fst (AppendText.main a now p td) = 0%Z
  /\ disk_of (snd (AppendText.main a now p td)) = snd (Append.main a now p (disk_of td))
  /\ ends_record (default [] (snd (AppendText.main a now p td) !! p)) = true.
Proof.
  intros Hrow Hr Hc. rewrite (main_text_ops a now p td r Hrow Hc).
  unfold Append.main. rewrite Hrow. cbn [fst snd].
  split; [reflexivity|]. apply (write_refines p); [apply store_ops_target| |exact Hc].
  apply store_ops_short; [exact Hr|].
  rewrite disk_of_lookup. apply ends_record_spec in Hc as [out Hout].
  rewrite (records_of_clean _ _ Hout).
  apply (read_records_short _ _ (ends_record_records _ _ Hout)).
Qed.

(** What is read before and after [main]. *)
Lemma main_reads (a : Append.args) (now p : str) (td : tdisk) (r : row) :
  Append.row_of_args a now = Append.Parsed r ->
  row_short r ->
  ends_record (default [] (td !! p)) = true ->
  read_records (default [] (td !! p)) = Some (default [] (disk_of td !! p))
  /\ read_records (default [] (snd (AppendText.main a now p td) !! p))
     = Some (default [] (snd (Append.main a now p (disk_of td)) !! p)).
Proof.
  intros Hrow Hr Hc. destruct (main_refines a now p td r Hrow Hr Hc) as (_ & Hd & Hc').
  apply ends_record_spec in Hc as [out Hout]. apply ends_record_spec in Hc' as [out' Hout'].
  rewrite <- Hd, !disk_of_lookup.
  rewrite (records_of_clean _ _ Hout), (records_of_clean _ _ Hout').
  split; apply ends_record_records; assumption.
Qed.

End text_main.


(** X5: a successful [main] on a store whose text ends where a record
    ends never removes, renames or reorders a column: the header read
    afterwards is the header read before, followed by the keys of the
    record that were not in it, in the record's key order.  (The keys and
    values of the record are within the reader's field size limit.) *)
Theorem main_schema_grows `{UnicodeData} (a : Append.args) (now path : str)
    (td : CsvText.tdisk) (r : row) :
  Append.row_of_args a now = Append.Parsed r ->
  row_short r ->
  CsvText.ends_record (default [] (td !! path)) = true ->
  exists old new,
    CsvText.read_records (default [] (td !! path)) = Some old
    /\ CsvText.read_records (default [] (snd (AppendText.main a now path td) !! path)) = Some new
    /\ fieldnames_or_nil new
       = fieldnames_or_nil old ++ Append.new_cols r (fieldnames_or_nil old).
Proof.
  intros Hrow Hr Hc. destruct (main_reads a now path td r Hrow Hr Hc) as [Hold Hnew].
  do 2 eexists. split; [exact Hold|]. split; [exact Hnew|].
  apply (store_schema_grows a now path (CsvText.disk_of td) r Hrow).
Qed.

(** X6: [main] keeps the store well formed.  When the text of the store
    ends where a record ends, its column names are distinct and every
    record is as wide as the header (as in a file that does not exist
    yet), the same holds of the store after a successful append, with or
    without new columns.  (The keys and values of the record are within
    the reader's field size limit.) *)
Theorem main_keeps_well_formed `{UnicodeData} (a : Append.args) (now path : str)
    (td : CsvText.tdisk) (r : row) (old : file) :
  Append.row_of_args a now = Append.Parsed r ->
  row_short r ->
  CsvText.ends_record (default [] (td !! path)) = true ->
  CsvText.read_records (default [] (td !! path)) = Some old ->
  well_formed_store old ->
  exists new,
    CsvText.read_records (default [] (snd (AppendText.main a now path td) !! path)) = Some new
    /\ well_formed_store new
    /\ CsvText.ends_record (default [] (snd (AppendText.main a now path td) !! path)) = true.
Proof.
  intros Hrow Hr Hc Hread Hwf.
  destruct (main_reads a now path td r Hrow Hr Hc) as [Hold Hnew].
  rewrite Hread in Hold. injection Hold as Hold.
  eexists. split; [exact Hnew|]. split.
  - apply (store_keeps_well_formed a now path (CsvText.disk_of td) r Hrow).
    rewrite <- Hold. exact Hwf.
  - apply (main_refines a now path td r Hrow Hr Hc).
Qed.

(** X7: a successful append of a record with at least one field to a
    store whose text ends where a record ends keeps every row and adds
    one.  Read again, the store has its former rows, each with the cells
    it had for the former columns, followed by one row that has the cells
    of the record.  (The keys and values of the record are within the
    reader's field size limit.) *)
Theorem main_keeps_rows `{UnicodeData} (a : Append.args) (now path : str)
    (td : CsvText.tdisk) (r : row) :
  Append.row_of_args a now = Append.Parsed r ->
  row_short r ->
  keys r <> [] ->
  CsvText.ends_record (default [] (td !! path)) = true ->
  exists old new rows' last_row,
    CsvText.read_records (default [] (td !! path)) = Some old
    /\ CsvText.read_records (default [] (snd (AppendText.main a now path td) !! path)) = Some new
    /\ reader_rows new = rows' ++ [last_row]
    /\ Forall2 (fun row row' =>
                  dict_to_list (fieldnames_or_nil old) row'
                  = dict_to_list (fieldnames_or_nil old) row)
               (reader_rows old) rows'
    /\ dict_to_list (keys r) last_row = dict_to_list (keys r) r.
Proof.
  intros Hrow Hr Hkeys Hc. destruct (main_reads a now path td r Hrow Hr Hc) as [Hold Hnew].
  destruct (store_keeps_rows a now path (CsvText.disk_of td) r Hrow Hkeys)
    as (rows' & last_row & H1 & H2 & H3).
  do 4 eexists. split; [exact Hold|]. split; [exact Hnew|]. eauto.
Qed.

(** ** The properties of the text on example data *)

(** A known-schema append to a store whose text ends where a record
    ends. *)
Example same_schema_text_example :
  CsvText.ends_record short_text = true
  /\ AppendText.main (append_args [lit "text=hi"]) [] data_csv short_tdisk
     = (0%Z, {[ data_csv := short_text ++ lit "hi" ++ crlf ]})
  /\ CsvText.read_records (short_text ++ lit "hi" ++ crlf)
     = Some [[lit "text"]; [lit "ab"]; [lit "hi"]].
Proof. repeat split; vm_compute; reflexivity. Qed.


Local Ltac row_short_computed :=
  repeat (apply Forall_cons; split; [split; reflexivity|]); apply Forall_nil_2.

Lemma main_schema_grows_witness :
  let a := append_args [lit "text=hi"; lit "score=7"] in
  exists old new,
    CsvText.read_records (default [] (short_tdisk !! data_csv)) = Some old
    /\ CsvText.read_records
         (default [] (snd (AppendText.main a [] data_csv short_tdisk) !! data_csv)) = Some new
    /\ fieldnames_or_nil new
       = fieldnames_or_nil old ++ Append.new_cols scored_row (fieldnames_or_nil old).
Proof.
  apply (main_schema_grows (append_args [lit "text=hi"; lit "score=7"]) [] data_csv
           short_tdisk scored_row).
  - reflexivity.
  - row_short_computed.
  - reflexivity.
Defined.

Lemma main_keeps_well_formed_witness :
  let a := append_args [lit "text=hi"; lit "score=7"] in
  exists new,
    CsvText.read_records
      (default [] (snd (AppendText.main a [] data_csv short_tdisk) !! data_csv)) = Some new
    /\ well_formed_store new
    /\ CsvText.ends_record
         (default [] (snd (AppendText.main a [] data_csv short_tdisk) !! data_csv)) = true.
Proof.
  apply (main_keeps_well_formed (append_args [lit "text=hi"; lit "score=7"]) [] data_csv
           short_tdisk scored_row short_file).
  - reflexivity.
  - row_short_computed.
  - reflexivity.
  - reflexivity.
  - split; [by_computation|]. repeat constructor.
Defined.

Lemma main_keeps_rows_witness :
  let a := append_args [lit "text=hi"; lit "score=7"] in
  exists old new rows' last_row,
    CsvText.read_records (default [] (short_tdisk !! data_csv)) = Some old
    /\ CsvText.read_records
         (default [] (snd (AppendText.main a [] data_csv short_tdisk) !! data_csv)) = Some new
    /\ reader_rows new = rows' ++ [last_row]
    /\ Forall2 (fun row row' =>
                  dict_to_list (fieldnames_or_nil old) row'
                  = dict_to_list (fieldnames_or_nil old) row)
               (reader_rows old) rows'
    /\ dict_to_list (keys scored_row) last_row = dict_to_list (keys scored_row) scored_row.
Proof.
  apply (main_keeps_rows (append_args [lit "text=hi"; lit "score=7"]) [] data_csv
           short_tdisk scored_row).
  - reflexivity.
  - row_short_computed.
  - discriminate.
  - reflexivity.
Defined.
